(** * howl: streaming wake-word client, demo and data transforms

    A shallow embedding of

    - [src/ww4ff/data/transform/base.py]  ([Composition], [batchify],
      [random_slice], [WakeWordBatchifier], [ZmuvTransform]),
    - [src/howl/client/howl_client.py]    ([HowlClient]),
    - [src/howl/run/demo.py]              ([InferenceClient]),

    together with the properties of these programs that are stated in the
    repository's specification.

    Conventions of the embedding.

    - A Python computation that may raise is a value of [pyres]: [Ok v] or
      [Raise e], where [e] names the exception class.
    - Tensor elements are exact real numbers extended with the three
      non-finite values of IEEE arithmetic ([xreal]): rounding and overflow
      are not modelled, the results of [x / 0] and of [sqrt] of a negative
      number are. Where rounding decides a property, the same code is also
      given over single-precision numbers ([Zmuv32]).
    - Python's [float] is IEEE binary64, [int] is unbounded ([PyFloat]).
    - A tensor is a shape and its elements in row-major order.
    - Side effects on the outside world (audio subsystem, logging, console,
      engine and listener calls) are recorded, in order, in a trace of
      [event]s. *)

From Stdlib Require Import String Ascii.
From Stdlib Require Import List ZArith Lia Bool Arith.
From Stdlib.Strings Require Import Byte.
From Stdlib Require Import Reals Lra Psatz.
From Stdlib Require Import Floats.SpecFloat.
From Stdlib Require Import Permutation Sorted.
Import ListNotations.

Set Implicit Arguments.

(* ===================================================================== *)
(** * Python results *)
(* ===================================================================== *)

Module Py.

(** The exception classes that the embedded code can raise. *)
Inductive exn : Type :=
| TypeError
| AttributeError
| IndexError
| ValueError
| RuntimeError
| NameError
| OverflowError
| ZeroDivisionError.

Inductive pyres (A : Type) : Type :=
| Ok (v : A)
| Raise (e : exn).

Arguments Ok {A} v.
Arguments Raise {A} e.

Definition bind {A B : Type} (c : pyres A) (k : A -> pyres B) : pyres B :=
  match c with
  | Ok v => k v
  | Raise e => Raise e
  end.

(** [[f x for x in l]] where [f] may raise: the first exception wins. *)
Fixpoint mapM {A B : Type} (f : A -> pyres B) (l : list A) : pyres (list B) :=
  match l with
  | [] => Ok []
  | x :: l' =>
      bind (f x) (fun y => bind (mapM f l') (fun ys => Ok (y :: ys)))
  end.

End Py.

Export Py.

Declare Scope py_scope.
Delimit Scope py_scope with py.
Notation "x <- c ;; k" := (Py.bind c (fun x => k))
  (at level 61, c at next level, right associativity) : py_scope.
Notation "' pat <- c ;; k" := (Py.bind c (fun x => match x with pat => k end))
  (at level 61, pat pattern, c at next level, right associativity) : py_scope.

(* ===================================================================== *)
(** * Extended reals: exact arithmetic with IEEE non-finite values *)
(* ===================================================================== *)

Module XReal.

Local Open Scope R_scope.

(** The value of one tensor element. [Fin r] is the real number [r];
    [PInf], [NInf] and [NaN] are what floating-point arithmetic returns
    where real arithmetic has no result. *)
Inductive xreal : Type :=
| Fin (r : R)
| PInf
| NInf
| NaN.

(** The infinity with the sign of [r]; an operand [0] counts as [+0]. *)
Definition inf_of_sign (r : R) : xreal :=
  if Rlt_dec r 0 then NInf else PInf.

Definition xopp (a : xreal) : xreal :=
  match a with
  | Fin r => Fin (- r)
  | PInf => NInf
  | NInf => PInf
  | NaN => NaN
  end.

Definition xadd (a b : xreal) : xreal :=
  match a, b with
  | NaN, _ | _, NaN => NaN
  | Fin x, Fin y => Fin (x + y)
  | PInf, NInf | NInf, PInf => NaN
  | PInf, _ | _, PInf => PInf
  | NInf, _ | _, NInf => NInf
  end.

Definition xsub (a b : xreal) : xreal := xadd a (xopp b).

(** [inf * 0] is [NaN]; otherwise the sign rule. *)
Definition xmul_inf (positive : bool) (b : xreal) : xreal :=
  match b with
  | NaN => NaN
  | Fin y =>
      if Req_dec_T y 0 then NaN
      else if positive then inf_of_sign y else xopp (inf_of_sign y)
  | PInf => if positive then PInf else NInf
  | NInf => if positive then NInf else PInf
  end.

Definition xmul (a b : xreal) : xreal :=
  match a, b with
  | Fin x, Fin y => Fin (x * y)
  | PInf, _ => xmul_inf true b
  | NInf, _ => xmul_inf false b
  | NaN, _ => NaN
  | Fin _, PInf => xmul_inf true a
  | Fin _, NInf => xmul_inf false a
  | Fin _, NaN => NaN
  end.

(** Division. [0 / 0] and [inf / inf] are [NaN]; [x / 0] for [x <> 0] is
    the infinity with the sign of [x]. *)
Definition xdiv (a b : xreal) : xreal :=
  match a, b with
  | NaN, _ | _, NaN => NaN
  | Fin x, Fin y =>
      if Req_dec_T y 0
      then (if Req_dec_T x 0 then NaN else inf_of_sign x)
      else Fin (x / y)
  | Fin _, (PInf | NInf) => Fin 0
  | (PInf | NInf), (PInf | NInf) => NaN
  | PInf, Fin y => inf_of_sign y
  | NInf, Fin y => xopp (inf_of_sign y)
  end.

(** [x ** 2] *)
Definition xsqr (a : xreal) : xreal := xmul a a.

(** [sqrt]: the square root of a negative number is [NaN]; no exception
    is raised by the tensor library. *)
Definition xsqrt (a : xreal) : xreal :=
  match a with
  | Fin r => if Rlt_dec r 0 then NaN else Fin (sqrt r)
  | PInf => PInf
  | NInf => NaN
  | NaN => NaN
  end.

Definition is_finite (a : xreal) : Prop :=
  match a with
  | Fin _ => True
  | _ => False
  end.

Definition xsum (l : list xreal) : xreal := fold_left xadd l (Fin 0).

End XReal.

Export XReal.

(* ===================================================================== *)
(** * Tensors *)
(* ===================================================================== *)

Module Tensor.

Local Open Scope py_scope.

(** A tensor: its shape and its elements in row-major order. The empty
    shape is a zero-dimensional (scalar) tensor. *)
Record tensor : Type := mkTensor {
  shape : list nat;
  flat : list xreal
}.

Definition shape_prod (sh : list nat) : nat := fold_right Nat.mul 1 sh.

Definition wf (t : tensor) : Prop := length (flat t) = shape_prod (shape t).

(** A one-dimensional tensor holding [l]. *)
Definition vec (l : list xreal) : tensor := mkTensor [length l] l.

(** [torch.zeros(k)] *)
Definition zeros (k : nat) : tensor := vec (repeat (Fin 0%R) k).

(** [torch.full(sh, v)] *)
Definition full (sh : list nat) (v : xreal) : tensor :=
  mkTensor sh (repeat v (shape_prod sh)).

(** [t.dim()] *)
Definition dim (t : tensor) : nat := length (shape t).

(** [t.numel()]; on a well-formed tensor this is [shape_prod (shape t)]. *)
Definition numel (t : tensor) : nat := length (flat t).

(** [t.size(-1)] and [t.size()[-1]]: both raise [IndexError] on a
    zero-dimensional tensor. *)
Definition size_last (t : tensor) : pyres nat :=
  match shape t with
  | [] => Raise IndexError
  | d :: sh => Ok (last sh d)
  end.

(** [len(t)]: the size of the first dimension. *)
Definition len (t : tensor) : pyres nat :=
  match shape t with
  | [] => Raise TypeError
  | d :: _ => Ok d
  end.

(** [t.squeeze()]: every dimension of size 1 is removed. *)
Definition squeeze (t : tensor) : tensor :=
  mkTensor (filter (fun d => negb (d =? 1)) (shape t)) (flat t).

(** [t.sum()], [t ** 2] *)
Definition tsum (t : tensor) : xreal := xsum (flat t).
Definition tsqr (t : tensor) : tensor := mkTensor (shape t) (map xsqr (flat t)).
Definition tmap (f : xreal -> xreal) (t : tensor) : tensor :=
  mkTensor (shape t) (map f (flat t)).

(** The first [n] rows of width [k] of a row-major element list. *)
Fixpoint rows {A : Type} (n k : nat) (l : list A) : list (list A) :=
  match n with
  | O => []
  | S n' => firstn k l :: rows n' k (skipn k l)
  end.

(** Row-wise concatenation of two lists of rows. *)
Fixpoint zip_app {A : Type} (r1 r2 : list (list A)) : list (list A) :=
  match r1, r2 with
  | x :: r1', y :: r2' => (x ++ y) :: zip_app r1' r2'
  | _, _ => []
  end.

Definition lead (sh : list nat) : list nat := removelast sh.

Definition rows_of (t : tensor) : list (list xreal) :=
  rows (shape_prod (lead (shape t))) (last (shape t) 0) (flat t).

Definition shape_eqb (s1 s2 : list nat) : bool :=
  if list_eq_dec Nat.eq_dec s1 s2 then true else false.

(** [torch.cat(ts, -1)].
    - A zero-dimensional operand is refused.
    - An operand of shape [(0,)] is skipped, whatever the other shapes.
    - The other operands must agree on every dimension but the last. *)
Definition cat2_last (t1 t2 : tensor) : pyres tensor :=
  if shape_eqb (lead (shape t1)) (lead (shape t2))
  then Ok (mkTensor (lead (shape t1) ++ [last (shape t1) 0 + last (shape t2) 0])
                    (concat (zip_app (rows_of t1) (rows_of t2))))
  else Raise RuntimeError.

Definition is_legacy_empty (t : tensor) : bool := shape_eqb (shape t) [0].

Definition cat_last (ts : list tensor) : pyres tensor :=
  if existsb (fun t => dim t =? 0) ts then Raise RuntimeError
  else
    match filter (fun t => negb (is_legacy_empty t)) ts with
    | [] => match ts with [] => Raise RuntimeError | _ => Ok (vec []) end
    | t :: rest =>
        fold_left (fun acc u => a <- acc ;; cat2_last a u) rest (Ok t)
    end.

(** [torch.stack(ts)]: a new leading dimension; all operands must have
    the same shape and there must be at least one. *)
Definition stack (ts : list tensor) : pyres tensor :=
  match ts with
  | [] => Raise RuntimeError
  | t :: rest =>
      if forallb (fun u => shape_eqb (shape u) (shape t)) rest
      then Ok (mkTensor (length ts :: shape t) (concat (map flat ts)))
      else Raise RuntimeError
  end.

(** Python slice bounds: [l[a:b]] on a sequence of length [n] keeps the
    positions [lo <= i < hi] where a negative index counts from the end
    and both bounds are clamped to [0, n]. *)
Definition slice_bound (n : nat) (i : Z) : nat :=
  let i' := if (i <? 0)%Z then (i + Z.of_nat n)%Z else i in
  Z.to_nat (Z.min (Z.max i' 0) (Z.of_nat n)).

Definition slice {A : Type} (a b : Z) (l : list A) : list A :=
  let lo := slice_bound (length l) a in
  let hi := slice_bound (length l) b in
  firstn (hi - lo) (skipn lo l).

(** [t[..., a:b]] *)
Definition slice_last (a b : Z) (t : tensor) : pyres tensor :=
  match shape t with
  | [] => Raise IndexError
  | _ =>
      let k := last (shape t) 0 in
      let w := slice_bound k b - slice_bound k a in
      Ok (mkTensor (lead (shape t) ++ [w])
                   (concat (map (slice a b) (rows_of t))))
  end.

(** Broadcasting: shapes are aligned on the right, a missing dimension
    counts as 1, and two sizes are compatible when they are equal or one
    of them is 1. *)
Definition pad_shape (n : nat) (sh : list nat) : list nat :=
  repeat 1 (n - length sh) ++ sh.

Fixpoint broadcast_dims (s1 s2 : list nat) : option (list nat) :=
  match s1, s2 with
  | [], [] => Some []
  | a :: s1', b :: s2' =>
      match broadcast_dims s1' s2' with
      | None => None
      | Some sh =>
          if a =? b then Some (a :: sh)
          else if a =? 1 then Some (b :: sh)
          else if b =? 1 then Some (a :: sh)
          else None
      end
  | _, _ => None
  end.

Definition broadcast_shapes (s1 s2 : list nat) : option (list nat) :=
  let n := Nat.max (length s1) (length s2) in
  broadcast_dims (pad_shape n s1) (pad_shape n s2).

(** The elements of a tensor of shape [from] expanded to shape [to]
    (of the same rank). *)
Fixpoint expand {A : Type} (from to : list nat) (l : list A) : list A :=
  match from, to with
  | df :: from', dt :: to' =>
      let subs := map (expand from' to') (rows df (shape_prod from') l) in
      if df =? dt then concat subs
      else concat (repeat (hd [] subs) dt)
  | _, _ => l
  end.

Fixpoint map2 {A B C : Type} (f : A -> B -> C) (l1 : list A) (l2 : list B)
  : list C :=
  match l1, l2 with
  | x :: l1', y :: l2' => f x y :: map2 f l1' l2'
  | _, _ => []
  end.

(** [a * b], element-wise with broadcasting. *)
Definition tmul (a b : tensor) : pyres tensor :=
  match broadcast_shapes (shape a) (shape b) with
  | None => Raise RuntimeError
  | Some sh =>
      let n := length sh in
      Ok (mkTensor sh
            (map2 xmul (expand (pad_shape n (shape a)) sh (flat a))
                       (expand (pad_shape n (shape b)) sh (flat b))))
  end.

End Tensor.

Export Tensor.
(* ===================================================================== *)
(** * Floating-point numbers *)
(* ===================================================================== *)

(** Python's [float]: IEEE binary64, every operation rounded to nearest,
    ties to even. *)
Module PyFloat.

Local Open Scope Z_scope.
Local Open Scope py_scope.

Definition prec : Z := 53.
Definition emax : Z := 1024.

Definition float : Type := spec_float.

(** An integer as a number with exponent 0, before any rounding. *)
Definition exact (p : Z) : float :=
  match p with
  | Z0 => S754_zero false
  | Zpos m => S754_finite false m 0
  | Zneg m => S754_finite true m 0
  end.

Definition overflow_checked (f : float) : pyres float :=
  match f with
  | S754_infinity _ => Raise OverflowError
  | _ => Ok f
  end.

(** [float(p)] for an [int]: the nearest number, [OverflowError] when
    there is none. *)
Definition of_int (p : Z) : pyres float :=
  overflow_checked (binary_normalize prec emax p 0 false).

(** [p / q] for two [int]s: the quotient rounded once. *)
Definition truediv (p q : Z) : pyres float :=
  if q =? 0 then Raise ZeroDivisionError
  else if p =? 0 then Ok (S754_zero (q <? 0))
  else overflow_checked (SFdiv prec emax (exact p) (exact q)).

(** [x * m] for a [float] and an [int]: the [int] is converted first. *)
Definition mul_int (x : float) (m : Z) : pyres float :=
  y <- of_int m ;; Ok (SFmul prec emax x y).

(** [int(x)]: the integral part; infinities and not-a-number have
    none. *)
Definition to_int (x : float) : pyres Z :=
  match x with
  | S754_zero _ => Ok 0
  | S754_finite s m e =>
      let a := match e with
               | Zneg _ => Z.shiftr (Zpos m) (- e)
               | _ => Z.shiftl (Zpos m) e
               end in
      Ok (if s then - a else a)
  | S754_infinity _ => Raise OverflowError
  | S754_nan => Raise ValueError
  end.

(** [int((x / d) * m)] for three [int]s. *)
Definition int_scaled (x d m : Z) : pyres Z :=
  q <- truediv x d ;; r <- mul_int q m ;; to_int r.

End PyFloat.

(** Single precision, the element type of a tensor made by
    [torch.zeros] and of the audio tensors: IEEE binary32. *)
Module Float32.

Local Open Scope Z_scope.

Definition prec : Z := 24.
Definition emax : Z := 128.

Definition float32 : Type := spec_float.

Definition zero : float32 := S754_zero false.
Definition add : float32 -> float32 -> float32 := SFadd prec emax.
Definition sub : float32 -> float32 -> float32 := SFsub prec emax.
Definition mul : float32 -> float32 -> float32 := SFmul prec emax.
Definition div : float32 -> float32 -> float32 := SFdiv prec emax.
Definition sqrt : float32 -> float32 := SFsqrt prec emax.

(** An integer (a Python scalar in a tensor operation) as an element. *)
Definition of_int (p : Z) : float32 := binary_normalize prec emax p 0 false.

(** The element nearest to the fraction [p / q], for [p] and [q] below
    [2^24]. *)
Definition ratio (p q : Z) : float32 := div (of_int p) (of_int q).

(** A tensor of single-precision elements. *)
Record tensor32 : Type := mkTensor32 {
  shape32 : list nat;
  flat32 : list float32
}.

Definition vec32 (l : list float32) : tensor32 := mkTensor32 [length l] l.

(** [t.numel()], [t.sum()] with the elements added in order, [t ** 2]. *)
Definition numel32 (t : tensor32) : nat := length (flat32 t).
Definition sum32 (t : tensor32) : float32 := fold_left add (flat32 t) zero.
Definition sqr32 (t : tensor32) : tensor32 :=
  mkTensor32 (shape32 t) (map (fun x => mul x x) (flat32 t)).

(** [a * b], element-wise with broadcasting. *)
Definition mul32 (a b : tensor32) : pyres tensor32 :=
  match broadcast_shapes (shape32 a) (shape32 b) with
  | None => Raise RuntimeError
  | Some sh =>
      let n := length sh in
      Ok (mkTensor32 sh
            (map2 mul (expand (pad_shape n (shape32 a)) sh (flat32 a))
                      (expand (pad_shape n (shape32 b)) sh (flat32 b))))
  end.

End Float32.

(* ===================================================================== *)
(** * [ZmuvTransform]  (src/ww4ff/data/transform/base.py, lines 132-159) *)
(* ===================================================================== *)

Module Zmuv.

Local Open Scope py_scope.

(** The three registered buffers. Each is a one-element tensor in the
    source; the embedding keeps the element. [std] is not a buffer. *)
Record zmuv : Type := mkZmuv {
  total : xreal;
  mean : xreal;
  mean2 : xreal
}.

(** [__init__]: the three buffers start as [torch.zeros(1)]. *)
Definition init : zmuv := mkZmuv (Fin 0%R) (Fin 0%R) (Fin 0%R).

(** [update(self, data, mask=None)].
<<
    if mask is not None:
        data = data * mask
        mask_size = mask.sum().item()
    else:
        mask_size = data.numel()
    self.mean = (data.sum() + self.mean * self.total) / (self.total + mask_size)
    self.mean2 = ((data ** 2).sum() + self.mean2 * self.total) / (self.total + mask_size)
    self.total += mask_size
>> *)
Definition update (s : zmuv) (data : tensor) (mask : option tensor) : pyres zmuv :=
  '(data, mask_size) <-
     match mask with
     | Some m => d <- tmul data m ;; Ok (d, tsum m)
     | None => Ok (data, Fin (INR (numel data)))
     end ;;
  let mean' :=
    xdiv (xadd (tsum data) (xmul (mean s) (total s)))
         (xadd (total s) mask_size) in
  let mean2' :=
    xdiv (xadd (tsum (tsqr data)) (xmul (mean2 s) (total s)))
         (xadd (total s) mask_size) in
  Ok (mkZmuv (xadd (total s) mask_size) mean' mean2').

(** [initialize(self, iterable)]: [update], unmasked, on every tensor in
    turn. *)
Fixpoint initialize (s : zmuv) (iterable : list tensor) : pyres zmuv :=
  match iterable with
  | [] => Ok s
  | ex :: rest => s' <- update s ex None ;; initialize s' rest
  end.

(** The radicand of [std]: [self.mean2 - self.mean ** 2]. *)
Definition radicand (s : zmuv) : xreal := xsub (mean2 s) (xsqr (mean s)).

(** The tensor method [.sqrt()]: it returns a value for every operand. *)
Definition tensor_sqrt (a : xreal) : pyres xreal := Ok (xsqrt a).

(** The property [std]: [(self.mean2 - self.mean ** 2).sqrt()]. *)
Definition std (s : zmuv) : pyres xreal := tensor_sqrt (radicand s).

(** The shape of a one-element buffer, [torch.zeros(1)]. *)
Definition buffer_shape : list nat := [1].

(** [forward(self, x)]: [(x - self.mean) / self.std], element-wise; [x]
    is broadcast against the one-element buffers, which gives a
    zero-dimensional [x] the shape of a buffer and leaves every other
    shape as it is. *)
Definition forward (s : zmuv) (x : tensor) : pyres tensor :=
  sd <- std s ;;
  match broadcast_shapes (shape x) buffer_shape with
  | None => Raise RuntimeError
  | Some sh =>
      Ok (mkTensor sh (map (fun e => xdiv (xsub e (mean s)) sd) (flat x)))
  end.

(** The statistics are real numbers, the count is not negative and
    [mean2 >= mean ** 2]. *)
Definition consistent (s : zmuv) : Prop :=
  match total s, mean s, mean2 s with
  | Fin t, Fin m, Fin m2 => (0 <= t /\ m * m <= m2)%R
  | _, _, _ => False
  end.

(** A tensor all of whose elements are real numbers. *)
Definition finite_tensor (t : tensor) : Prop := Forall is_finite (flat t).

End Zmuv.
(* ===================================================================== *)
(** * [ZmuvTransform] over single-precision elements *)
(* ===================================================================== *)

(** The statistics of [ZmuvTransform] as the buffers hold them: the
    buffers are made by [torch.zeros(1)], so every operation of [update]
    and [std] is rounded to single precision. *)
Module Zmuv32.

Import Float32.
Local Open Scope py_scope.

Record zmuv32 : Type := mkZmuv32 {
  total : float32;
  mean : float32;
  mean2 : float32
}.

(** [__init__] *)
Definition init : zmuv32 := mkZmuv32 zero zero zero.

(** [update(self, data, mask=None)], lines 139-148. *)
Definition update (s : zmuv32) (data : tensor32) (mask : option tensor32)
  : pyres zmuv32 :=
  '(data, mask_size) <-
     match mask with
     | Some m => d <- mul32 data m ;; Ok (d, sum32 m)
     | None => Ok (data, of_int (Z.of_nat (numel32 data)))
     end ;;
  let mean' :=
    div (add (sum32 data) (mul (mean s) (total s)))
        (add (total s) mask_size) in
  let mean2' :=
    div (add (sum32 (sqr32 data)) (mul (mean2 s) (total s)))
        (add (total s) mask_size) in
  Ok (mkZmuv32 (add (total s) mask_size) mean' mean2').

(** The radicand of [std] and the property [std], line 156. *)
Definition radicand (s : zmuv32) : float32 :=
  sub (mean2 s) (mul (mean s) (mean s)).

Definition std (s : zmuv32) : float32 := sqrt (radicand s).

End Zmuv32.

(* ===================================================================== *)
(** * Python built-ins used by the transforms *)
(* ===================================================================== *)

Module Builtins.

Local Open Scope py_scope.

(** [max(iterable)]: [ValueError] on an empty iterable. *)
Definition py_max (l : list nat) : pyres nat :=
  match l with
  | [] => Raise ValueError
  | x :: l' => Ok (fold_left Nat.max l' x)
  end.

Section Sorting.

Variables (A K : Type).
Variable key : A -> K.
Variable ltb : K -> K -> bool.

(** Insertion of [x] in front of a list sorted in descending order, where
    [x] stood before every element of the list: [x] passes the elements
    with a strictly larger key only, so that equal keys keep their
    order. *)
Fixpoint insert_desc (x : A) (l : list A) : list A :=
  match l with
  | [] => [x]
  | y :: l' =>
      if ltb (key x) (key y) then y :: insert_desc x l' else x :: l
  end.

(** [sorted(l, key=key, reverse=True)]: descending and stable. *)
Definition sorted_desc (l : list A) : list A := fold_right insert_desc [] l.

Fixpoint insert_asc (x : A) (l : list A) : list A :=
  match l with
  | [] => [x]
  | y :: l' =>
      if ltb (key y) (key x) then y :: insert_asc x l' else x :: l
  end.

(** [sorted(l, key=key)]: ascending and stable. *)
Definition sorted_asc (l : list A) : list A := fold_right insert_asc [] l.

End Sorting.

(** [int(p / q)] for integers [p] and [q > 0]: the quotient truncated
  towards zero. The quotient is taken exactly; the quotient that Python
  rounds once has the same integral part for [p] below [2^53]. *)
Definition int_div (p q : Z) : Z := Z.quot p q.

End Builtins.

Export Builtins.

(* ===================================================================== *)
(** * The module [random] *)
(* ===================================================================== *)

Module Random.

(** The generator: an unbounded sequence of raw draws and the position of
  the next one. Only the support of each distribution is modelled: every
  value that a call may return is returned for some raw draw. *)
Record rng : Type := mkRng {
draws : nat -> Z;
pos : nat
}.

Definition next (g : rng) : Z * rng :=
(draws g (pos g), mkRng (draws g) (S (pos g))).

(** A computation that draws random numbers and may raise. *)
Definition rand (A : Type) : Type := rng -> pyres (A * rng).

Definition ret {A : Type} (v : A) : rand A := fun g => Ok (v, g).

Definition bind {A B : Type} (c : rand A) (k : A -> rand B) : rand B :=
fun g =>
  match c g with
  | Ok (v, g') => k v g'
  | Raise e => Raise e
  end.

Definition lift {A : Type} (c : pyres A) : rand A :=
fun g =>
  match c with
  | Ok v => Ok (v, g)
  | Raise e => Raise e
  end.

(** [random.random()]: a number in [[0, 1)], here [k / 2^53]; the result
  is the numerator [k]. *)
Definition unit_denominator : Z := 2 ^ 53.

Definition random : rand Z :=
fun g => let (r, g') := next g in
         Ok (r mod unit_denominator, g')%Z.

(** [random.randint(lo, hi)]: an integer in [[lo, hi]]; [ValueError] when
  the range is empty. *)
Definition randint (lo hi : Z) : rand Z :=
fun g =>
  if (hi <? lo)%Z then Raise ValueError
  else let (r, g') := next g in
       Ok (lo + r mod (hi - lo + 1), g')%Z.

(** [random.choice(seq)]: [IndexError] on an empty sequence. *)
Definition choice {A : Type} (l : list A) : rand A :=
fun g =>
  match l with
  | [] => Raise IndexError
  | x :: _ =>
      let (r, g') := next g in
      Ok (nth (Z.to_nat (r mod Z.of_nat (length l))) l x, g')
  end.

(** A loop body run on every element in turn, results collected. *)
Fixpoint for_each {A B : Type} (f : A -> rand B) (l : list A) : rand (list B) :=
match l with
| [] => ret []
| x :: l' => bind (f x) (fun y => bind (for_each f l') (fun ys => ret (y :: ys)))
end.

End Random.

Declare Scope rand_scope.
Delimit Scope rand_scope with rand.
Notation "x <- c ;; k" := (Random.bind c (fun x => k))
(at level 61, c at next level, right associativity) : rand_scope.
Notation "' pat <- c ;; k" :=
(Random.bind c (fun x => match x with pat => k end))
(at level 61, pat pattern, c at next level, right associativity) : rand_scope.

(* ===================================================================== *)
(** * Batch assembly  (src/ww4ff/data/transform/base.py, lines 51-125) *)
(* ===================================================================== *)

Module Transform.

Import Random.

(** Modelled from the spec: [WakeWordClipExample] and [EmplacableExample]
  of [ww4ff.data.dataset], which are not part of the sources. A clip has a
  waveform and [frame_labels], a dict from an end timestamp in
  milliseconds to a label index, kept here in insertion order. *)
Record example : Type := mkExample {
audio_data : tensor;
frame_labels : list (Z * Z)
}.

(** Modelled from the spec: [emplaced_audio_data], which returns a copy of
  the example with the waveform replaced. *)
Definition emplaced_audio_data (ex : example) (new_audio : tensor) : example :=
mkExample new_audio (frame_labels ex).

(** Modelled from the spec: [ClassificationBatch] of [ww4ff.data.dataset]:
  the padded audio, the optional label tensor and the lengths before
  padding. The two integer tensors are one-dimensional and kept as
  lists. *)
Record ClassificationBatch : Type := mkBatch {
batch_audio : tensor;
batch_labels : option (list Z);
batch_lengths : list nat
}.

Definition audio_size (ex : example) : pyres nat := size_last (audio_data ex).

(** [sorted(xs, key=lambda x: <waveform>.size()[-1], reverse=True)]: the
  keys are computed first, once for each element. *)
Definition sort_by_size {A : Type} (wave : A -> example) (xs : list A)
: pyres (list A) :=
(keyed <- mapM (fun x => k <- audio_size (wave x) ;; Ok (k, x)) xs ;;
 Ok (map snd (sorted_desc fst Nat.ltb keyed)))%py.

(** [torch.cat((ex.audio_data.squeeze(),
             torch.zeros(max_length - ex.audio_data.size(-1))), -1)] *)
Definition pad_to (max_length : nat) (ex : example) : pyres tensor :=
(n <- audio_size ex ;;
 cat_last [squeeze (audio_data ex); zeros (max_length - n)])%py.

(** Lines 64-69 and 118-123: sort, lengths, padding, stacking. *)
Definition assemble {A : Type} (wave : A -> example) (xs : list A)
: pyres (list A * tensor * list nat) :=
(xs <- sort_by_size wave xs ;;
 lengths <- mapM (fun x => audio_size (wave x)) xs ;;
 max_length <- py_max lengths ;;
 audio_tensor <- mapM (fun x => pad_to max_length (wave x)) xs ;;
 audio_tensor <- stack audio_tensor ;;
 Ok (xs, audio_tensor, lengths))%py.

(** [batchify(examples)] *)
Definition batchify (examples : list example) : pyres ClassificationBatch :=
('(_, audio_tensor, lengths) <- assemble (fun ex => ex) examples ;;
 Ok (mkBatch audio_tensor None lengths))%py.

(** [random_slice(examples, max_window_size)] *)
Definition random_slice_one (max_window_size : Z) (ex : example) : rand example :=
(n <- lift (audio_size ex) ;;
 if (Z.of_nat n <? max_window_size)%Z then ret ex
 else
   a <- randint 0 (Z.of_nat n - max_window_size) ;;
   w <- lift (slice_last a (a + max_window_size) (audio_data ex)) ;;
   ret (emplaced_audio_data ex w))%rand.

Definition random_slice (examples : list example) (max_window_size : Z)
: rand (list example) :=
for_each (random_slice_one max_window_size) examples.

(** The fields of [WakeWordBatchifier]. [positive_sample_prob] is the
  numerator of the probability over [unit_denominator]. *)
Record WakeWordBatchifier : Type := mkBatchifier {
negative_label : Z;
positive_sample_prob : Z;
window_size_ms : Z;
sample_rate : Z;
positive_delta_ms : Z
}.

(** The defaults of [__init__]: probability 0.5, 500 ms, 16000 Hz, 150 ms. *)
Definition default_batchifier (negative_label : Z) : WakeWordBatchifier :=
mkBatchifier negative_label (unit_denominator / 2) 500 16000 150.

Section Call.

Variable self : WakeWordBatchifier.

(** Lines 103-105: one interval around every value of [frame_labels],
    sorted by its start. *)
Definition positive_intervals (ex : example) : list (Z * Z) :=
  sorted_asc fst Z.ltb
    (map (fun kv => (snd kv - positive_delta_ms self,
                     snd kv + positive_delta_ms self)%Z)
         (frame_labels ex)).

(** Lines 106-111: the loop over the positive intervals. The state is
    [(negative_intervals, last_positive, b)], where [b] is the loop
    variable that line 112 reads after the loop. *)
Definition gaps_step (st : list (Z * Z) * Z * option Z) (iv : Z * Z)
  : list (Z * Z) * Z * option Z :=
  let '(negative_intervals, last_positive, _) := st in
  let (a, b) := iv in
  (if (last_positive <? a)%Z
   then negative_intervals ++ [(last_positive, a)]
   else negative_intervals,
   b, Some b).

(** Lines 103-112. The clip's end in milliseconds uses the literal
    16000; it is taken as the exact quotient of [len * 1000] by 16000,
    truncated. Line 112 divides first and rounds, and can end one
    millisecond earlier (1000 instead of 1001 for 16016 samples); nothing
    below depends on which of the two the end is. [b] is bound whenever
    [frame_labels] is not empty. *)
Definition negative_intervals (ex : example) : pyres (list (Z * Z)) :=
  let '(negs, _, b) := fold_left gaps_step (positive_intervals ex) ([], 0%Z, None) in
  match b with
  | None => Raise NameError
  | Some b =>
      (n <- len (audio_data ex) ;;
       Ok (negs ++ [(b, int_div (Z.of_nat n * 1000) 16000)]))%py
  end.

(** Lines 114-116: the window cut from the chosen interval [(a, b)]. *)
Definition negative_window (iv : Z * Z) : rand (Z * Z) :=
  let (a, b) := iv in
  if (window_size_ms self <? b - a)%Z then
    (a <- randint 0 (b - window_size_ms self) ;;
     ret (a, a + window_size_ms self)%Z)%rand
  else ret (a, b).

(** Lines 102-117: the negative path; the chosen interval, the emitted
    window and the emitted pair. *)
Definition negative_span (ex : example) : rand ((Z * Z) * (Z * Z)) :=
  (ivs <- lift (negative_intervals ex) ;;
   iv <- choice ivs ;;
   w <- negative_window iv ;;
   ret (iv, w))%rand.

Definition negative_sample (ex : example) : rand (Z * example) :=
  ('(_, (a, b)) <- negative_span ex ;;
   w <- lift (slice_last a b (audio_data ex)) ;;
   ret (negative_label self, emplaced_audio_data ex w))%rand.

(** Lines 96-97: the span [(a, b)], in samples, of the window that ends
    at [end_ms]. Both conversions from milliseconds are computed in
    floating point: [int((end_ms / 1000) * self.sample_rate)] and
    [int((self.window_size_ms / 1000) * self.sample_rate)]. *)
Definition positive_span (end_ms : Z) : pyres (Z * Z) :=
  (b <- PyFloat.int_scaled end_ms 1000 (sample_rate self) ;;
   width <- PyFloat.int_scaled (window_size_ms self) 1000 (sample_rate self) ;;
   Ok (Z.max (b - width) 0, b))%py.

(** Lines 95-101: the positive attempt; [None] stands for
    [select_negative = True]. *)
Definition positive_sample (ex : example) : rand (option (Z * example)) :=
  ('(end_ms, label) <- choice (frame_labels ex) ;;
   '(a, b) <- lift (positive_span end_ms) ;;
   if (b - a =? 0)%Z then ret None
   else
     w <- lift (slice_last a b (audio_data ex)) ;;
     ret (Some (label, emplaced_audio_data ex w)))%rand.

(** Lines 89-117: the body of the loop for one example. *)
Definition sample (ex : example) : rand (Z * example) :=
  match frame_labels ex with
  | [] =>
      (exs <- random_slice [ex]
                (int_div (sample_rate self * window_size_ms self) 1000) ;;
       match exs with
       | ex' :: _ => ret (negative_label self, ex')
       | [] => lift (Raise IndexError)
       end)%rand
  | _ =>
      (u <- random ;;
       let select_negative := (positive_sample_prob self <? u)%Z in
       if select_negative then negative_sample ex
       else
         p <- positive_sample ex ;;
         match p with
         | Some emitted => ret emitted
         | None => negative_sample ex
         end)%rand
  end.

(** [__call__(self, examples)] *)
Definition call (examples : list example) : rand ClassificationBatch :=
  (new_examples <- for_each sample examples ;;
   '(new_examples, audio_tensor, lengths) <- lift (assemble snd new_examples) ;;
   ret (mkBatch audio_tensor (Some (map fst new_examples)) lengths))%rand.

End Call.

End Transform.

(* ===================================================================== *)
(** * Calling a method through an instance *)
(* ===================================================================== *)

Module PyCall.

Inductive decorator : Type :=
| Undecorated
| StaticMethod.

(** A [def] inside a class body: its decorator, its positional parameters
    and how many of them (the last ones) have a default. *)
Record method : Type := mkMethod {
  m_decorator : decorator;
  m_params : list string;
  m_defaults : nat
}.

(** The number of positional arguments that the function receives when it
    is called as [obj.name(a1, ..., an)]: a plain function found through
    an instance is bound to it and receives the instance first; a
    [staticmethod] is not bound. *)
Definition received (m : method) (nargs : nat) : nat :=
  match m_decorator m with
  | Undecorated => S nargs
  | StaticMethod => nargs
  end.

(** The number of positional arguments that a function accepts. *)
Definition accepts (m : method) (n : nat) : bool :=
  (length (m_params m) - m_defaults m <=? n) && (n <=? length (m_params m)).

(** [obj.name(a1, ..., an)] with body [body]: [TypeError] when the number
    of arguments does not fit the parameters. *)
Definition call_bound {A : Type} (m : method) (nargs : nat) (body : pyres A)
  : pyres A :=
  if accepts m (received m nargs) then body else Raise TypeError.

End PyCall.

Export PyCall.

(* ===================================================================== *)
(** * Strings, bytes and samples *)
(* ===================================================================== *)

Module Text.

Definition is_lower (c : ascii) : bool :=
  let n := nat_of_ascii c in ((97 <=? n) && (n <=? 122))%nat.

Definition is_upper (c : ascii) : bool :=
  let n := nat_of_ascii c in ((65 <=? n) && (n <=? 90))%nat.

Definition upper (c : ascii) : ascii :=
  if is_lower c then ascii_of_nat (nat_of_ascii c - 32) else c.

Definition lower (c : ascii) : ascii :=
  if is_upper c then ascii_of_nat (nat_of_ascii c + 32) else c.

(** [str.title()] on ASCII text: a cased character is upper-cased when the
    character before it is not cased and lower-cased otherwise. *)
Fixpoint title_from (previous_is_cased : bool) (s : string) : string :=
  match s with
  | EmptyString => EmptyString
  | String c s' =>
      if is_lower c || is_upper c
      then String (if previous_is_cased then lower c else upper c)
                  (title_from true s')
      else String c (title_from false s')
  end.

Definition title (s : string) : string := title_from false s.

(** [sep.join(words)] *)
Definition join (sep : string) (words : list string) : string :=
  String.concat sep words.

(** [seq[i]] on a list: a negative index counts from the end. *)
Definition py_index {A : Type} (l : list A) (i : Z) : pyres A :=
  let j := if (i <? 0)%Z then (i + Z.of_nat (length l))%Z else i in
  if (j <? 0)%Z then Raise IndexError
  else match nth_error l (Z.to_nat j) with
       | Some v => Ok v
       | None => Raise IndexError
       end.

End Text.

Module Pcm.

Definition bytes : Type := list byte.

(** One little-endian signed 16-bit sample. *)
Definition int16 (lo hi : byte) : Z :=
  let v := (Z.of_N (Byte.to_N lo) + 256 * Z.of_N (Byte.to_N hi))%Z in
  if (v <? 32768)%Z then v else (v - 65536)%Z.

(** [np.frombuffer(data, dtype=np.int16)]: [ValueError] when the size of
    the buffer is not a multiple of two. *)
Fixpoint frombuffer_int16 (data : bytes) : pyres (list Z) :=
  match data with
  | [] => Ok []
  | [_] => Raise ValueError
  | lo :: hi :: rest =>
      Py.bind (frombuffer_int16 rest) (fun l => Ok (int16 lo hi :: l))
  end.

(** [torch.from_numpy(arr.astype(np.float) / 32767).float()] *)
Definition normalized (samples : list Z) : tensor :=
  vec (map (fun v => Fin (IZR v / 32767)%R) samples).

Definition paContinue : Z := 0.

End Pcm.

Export Pcm.

(* ===================================================================== *)
(** * The outside world of the clients *)
(* ===================================================================== *)

Module World.

Inductive torch_device : Type :=
| Cpu
| Cuda (index : Z).

(** What the clients do to their environment, in the order they do it. *)
Inductive event : Type :=
| PyAudioInit
| GetDeviceCount
| GetDeviceInfo (idx : nat)
| OpenStream (input_device_index : nat) (frames_per_buffer : Z)
| StartStream
| Infer (dev : torch_device) (inp : tensor)
| LogRecord (msg : string)
| ListenerCall (listener : nat) (seq : list Z)
| Print (text : string).

(** The environment: what has happened so far, whether the root logger is
    enabled for level [INFO], and the names of the audio input devices. *)
Record world : Type := mkWorld {
  trace : list event;
  info_enabled : bool;
  device_names : list string
}.

(** The world after some more events. *)
Definition extend (w : world) (evs : list event) : world :=
  mkWorld (trace w ++ evs) (info_enabled w) (device_names w).

Definition emit (e : event) (w : world) : world := extend w [e].

(** The keyword parameters of [logging.Logger._log]. *)
Definition log_keywords : list string :=
  ["exc_info"; "extra"; "stack_info"; "stacklevel"]%string.

(** [logging.info(msg, **kwargs)]. The root logger drops the call when it
    is not enabled for [INFO]; otherwise it passes the keyword arguments
    on to [_log], which raises [TypeError] on a keyword it does not have,
    before any record is made. *)
Definition logging_info (msg : string) (kwargs : list string) (w : world)
  : pyres unit * world :=
  if info_enabled w then
    if forallb (fun k => existsb (String.eqb k) log_keywords) kwargs
    then (Ok tt, emit (LogRecord msg) w)
    else (Raise TypeError, w)
  else (Ok tt, w).

Definition is_infer (e : event) : bool :=
  match e with Infer _ _ => true | _ => false end.

(** The number of inference calls in a trace. *)
Definition infer_count (t : list event) : nat := length (filter is_infer t).

(** Modelled from the spec: [InferenceContext] of [howl.context], of which
    the clients read the vocabulary. *)
Record InferenceContext : Type := mkContext {
  vocab : list string
}.

(** The device scan of [start] and of the demo's constructor: the first
    device named ["pulse"], else index 0; every device looked at is
    recorded. *)
Fixpoint scan_devices (names : list string) (idx : nat) (w : world) : nat * world :=
  match names with
  | [] => (0, w)
  | name :: rest =>
      let w := emit (GetDeviceInfo idx) w in
      if String.eqb name "pulse"%string then (idx, w) else scan_devices rest (S idx) w
  end.

Definition choose_device (w : world) : nat * world :=
  scan_devices (device_names w) 0 (emit GetDeviceCount w).

(** [self._audio.open(...)] followed by [stream.start_stream()]. *)
Definition open_and_start (chosen_idx : nat) (frames_per_buffer : Z) (w : world)
  : world :=
  emit StartStream (emit (OpenStream chosen_idx frames_per_buffer) w).

End World.

Export World.

(* ===================================================================== *)
(** * The inference engine *)
(* ===================================================================== *)

(** Modelled from the spec: [InferenceEngine] of [howl.model.inference].
    [infer] consumes one window, answers whether the phrase was detected
    and updates the engine; [sequence] is read afterwards. *)
Record InferenceEngine : Type := mkEngine {
  engine_state : Type;
  infer : engine_state -> tensor -> bool * engine_state;
  sequence : engine_state -> list Z
}.

(* ===================================================================== *)
(** * [HowlClient]  (src/howl/client/howl_client.py) *)
(* ===================================================================== *)

Module HowlClient.

Section WithEngine.

Variable E : InferenceEngine.

(** [last_data]: [np.zeros(chunk_size)] until the first chunk. *)
Inductive last_chunk : Type :=
| Zeros (n : Z)
| Chunk (data : bytes).

(** The attributes of a client. A listener is named by a number; calling
    it is recorded in the trace. The engine is [None] until one is given. *)
Record client : Type := mkClient {
  listeners : list nat;
  chunk_size : Z;
  device : torch_device;
  engine : option (engine_state E);
  ctx : option InferenceContext;
  _audio_buf : list bytes;
  last_data : last_chunk;
  stream : bool
}.

(** The state that a method runs in, and a method body: it may raise,
    and what it did before raising stays done. *)
Definition state : Type := client * world.
Definition M (A : Type) : Type := state -> pyres A * state.

Definition ret {A : Type} (v : A) : M A := fun s => (Ok v, s).
Definition raise {A : Type} (e : exn) : M A := fun s => (Raise e, s).
Definition bind {A B : Type} (c : M A) (k : A -> M B) : M B :=
  fun s => match c s with
           | (Ok v, s') => k v s'
           | (Raise e, s') => (Raise e, s')
           end.
Definition lift {A : Type} (c : pyres A) : M A := fun s => (c, s).
Definition get : M client := fun s => (Ok (fst s), s).
Definition modify (f : client -> client) : M unit :=
  fun s => (Ok tt, (f (fst s), snd s)).
Definition effect (e : event) : M unit :=
  fun s => (Ok tt, (fst s, emit e (snd s))).
Definition in_world {A : Type} (f : world -> pyres A * world) : M A :=
  fun s => let (r, w) := f (snd s) in (r, (fst s, w)).

Fixpoint for_each {A : Type} (f : A -> M unit) (l : list A) : M unit :=
  match l with
  | [] => ret tt
  | x :: l' => bind (f x) (fun _ => for_each f l')
  end.

Fixpoint mapM_ {A B : Type} (f : A -> M B) (l : list A) : M (list B) :=
  match l with
  | [] => ret []
  | x :: l' =>
      bind (f x) (fun y => bind (mapM_ f l') (fun ys => ret (y :: ys)))
  end.

Notation "x <- c ;; k" := (bind c (fun x => k))
  (at level 61, c at next level, right associativity).
Notation "c ;;; k" := (bind c (fun _ => k))
  (at level 61, right associativity).

Definition set_audio_buf (buf : list bytes) (c : client) : client :=
  mkClient (listeners c) (chunk_size c) (device c) (engine c) (ctx c)
           buf (last_data c) (stream c).
Definition set_last_data (d : last_chunk) (c : client) : client :=
  mkClient (listeners c) (chunk_size c) (device c) (engine c) (ctx c)
           (_audio_buf c) d (stream c).
Definition set_engine (e : option (engine_state E)) (c : client) : client :=
  mkClient (listeners c) (chunk_size c) (device c) e (ctx c)
           (_audio_buf c) (last_data c) (stream c).
Definition set_listeners (l : list nat) (c : client) : client :=
  mkClient l (chunk_size c) (device c) (engine c) (ctx c)
           (_audio_buf c) (last_data c) (stream c).
Definition set_stream (b : bool) (c : client) : client :=
  mkClient (listeners c) (chunk_size c) (device c) (engine c) (ctx c)
           (_audio_buf c) (last_data c) b.

(** The [def]s of the class, as written: [@staticmethod] stands above
    [list_pretrained(self)], and [_get_device(device)] has neither a
    decorator nor a [self]. *)
Definition def___init__ : method :=
  mkMethod Undecorated ["self"; "engine"; "context"; "device"; "chunk_size"]%string 4.
Definition def_list_pretrained : method :=
  mkMethod StaticMethod ["self"]%string 0.
Definition def__get_device : method :=
  mkMethod Undecorated ["device"]%string 0.
Definition def__on_audio : method :=
  mkMethod Undecorated ["self"; "in_data"]%string 0.
Definition def_start : method := mkMethod Undecorated ["self"]%string 0.
Definition def_add_listener : method :=
  mkMethod Undecorated ["self"; "listener"]%string 0.

(** The body of [_get_device(device)]. *)
Definition _get_device (device : Z) : torch_device :=
  if (device =? -1)%Z then Cpu else Cuda device.

(** [__init__(self, engine, context, device, chunk_size)]. Line 20 calls
    [self._get_device(device)]; the audio handle is made on line 24. *)
Definition __init__ (engine : option (engine_state E))
           (context : option InferenceContext) (device chunk_size : Z)
           (w : world) : pyres client * world :=
  match call_bound def__get_device 1 (Ok (_get_device device)) with
  | Raise e => (Raise e, w)
  | Ok dev =>
      (Ok (mkClient [] chunk_size dev engine context [] (Zeros chunk_size) false),
       emit PyAudioInit w)
  end.

(** [add_listener(self, listener)] *)
Definition add_listener (listener : nat) : M unit :=
  modify (fun c => set_listeners (listeners c ++ [listener]) c).

(** [self.engine.infer(inp)]: [None] has no attribute [infer]. *)
Definition engine_infer (inp : tensor) : M bool :=
  c <- get ;;
  match engine c with
  | None => raise AttributeError
  | Some e =>
      effect (Infer (device c) inp) ;;;
      let (detected, e') := infer E e inp in
      modify (set_engine (Some e')) ;;;
      ret detected
  end.

Definition engine_sequence : M (list Z) :=
  c <- get ;;
  match engine c with
  | None => raise AttributeError
  | Some e => ret (sequence E e)
  end.

(** [self.ctx.vocab[x]] *)
Definition vocab_word (x : Z) : M string :=
  c <- get ;;
  match ctx c with
  | None => raise AttributeError
  | Some context => lift (Text.py_index (vocab context) x)
  end.

(** [' '.join(self.ctx.vocab[x] for x in self.engine.sequence).title()] *)
Definition phrase_of (seq : list Z) : M string :=
  words <- mapM_ vocab_word seq ;;
  ret (Text.title (Text.join " " words)).

(** Lines 53-57: what the handler does on a detection. *)
Definition notify : M unit :=
  seq <- engine_sequence ;;
  phrase <- phrase_of seq ;;
  in_world (logging_info (phrase ++ " detected") ["end"%string]) ;;;
  c <- get ;;
  seq <- engine_sequence ;;
  for_each (fun lis => effect (ListenerCall lis seq)) (listeners c).

(** [_on_audio(self, in_data)], lines 39-59. *)
Definition _on_audio (in_data : bytes) : M (bytes * Z) :=
  let data_ok := (in_data, paContinue) in
  modify (set_last_data (Chunk in_data)) ;;;
  modify (fun c => set_audio_buf (_audio_buf c ++ [in_data]) c) ;;;
  c <- get ;;
  if negb (length (_audio_buf c) =? 16) then ret data_ok
  else
    let audio_data := concat (_audio_buf c) in
    modify (set_audio_buf (skipn 2 (_audio_buf c))) ;;;
    arr <- lift (frombuffer_int16 audio_data) ;;
    let inp := normalized arr in
    detected <- engine_infer inp ;;
    (if detected : bool then notify else ret tt) ;;;
    ret data_ok.

(** [start(self)], lines 61-87. *)
Definition start : M unit :=
  c <- get ;;
  match engine c with
  | None => raise AttributeError
  | Some _ =>
      match ctx c with
      | None => raise AttributeError
      | Some _ =>
          chosen_idx <- in_world (fun w => let (i, w') := choose_device w in (Ok i, w')) ;;
          in_world (fun w => (Ok tt, open_and_start chosen_idx (chunk_size c) w)) ;;;
          modify (set_stream true)
      end
  end.

(** The stream delivers a chunk. Line 85 installs the bound method
    [self._on_audio] as the [stream_callback] of the stream, and the
    audio library calls its callback as
    [callback(in_data, frame_count, time_info, status)]: four arguments,
    to be matched with the parameters of the [def]. *)
Definition stream_callback (in_data : bytes) : M (bytes * Z) :=
  lift (call_bound def__on_audio 4 (Ok tt)) ;;;
  _on_audio in_data.

(** The chunks of a delivery sequence handed to the callback in turn; an
    exception raised for one chunk does not undo what was done. *)
Fixpoint deliver (chunks : list bytes) (s : state) : state :=
  match chunks with
  | [] => s
  | in_data :: rest => deliver rest (snd (stream_callback in_data s))
  end.

End WithEngine.

End HowlClient.

(* ===================================================================== *)
(** * [InferenceClient]  (src/howl/run/demo.py) *)
(* ===================================================================== *)

Module Demo.

Section WithEngine.

Variable E : InferenceEngine.

Record client : Type := mkClient {
  engine : engine_state E;
  chunk_size : Z;
  words : list string;
  last_data : HowlClient.last_chunk;
  _audio_buf : list bytes;
  device : torch_device
}.

Definition state : Type := client * world.

(** [__init__(self, engine, device, words, chunk_size)], lines 18-44:
    the stream is opened and started by the constructor. *)
Definition __init__ (engine : engine_state E) (device : torch_device)
           (words : list string) (chunk_size : Z) (w : world) : state :=
  let w := emit PyAudioInit w in
  let (chosen_idx, w) := choose_device w in
  (mkClient engine chunk_size words (HowlClient.Zeros chunk_size) [] device,
   open_and_start chosen_idx chunk_size w).

Definition blank_line : string := "                                ".

Definition carriage_return : string := String (ascii_of_nat 13) EmptyString.

(** [print(text, end='\r')] *)
Definition print (text : string) (w : world) : world :=
  emit (Print (text ++ carriage_return)) w.

(** The [def] of the handler, as written on line 50. *)
Definition def__on_audio : method :=
  mkMethod Undecorated
           ["self"; "in_data"; "frame_count"; "time_info"; "status"]%string 0.

(** [_on_audio(self, in_data, frame_count, time_info, status)],
    lines 50-65. The last three arguments are not read. *)
Definition _on_audio (in_data : bytes) (s : state) : pyres (bytes * Z) * state :=
  let (c, w) := s in
  let data_ok := (in_data, paContinue) in
  let buf := _audio_buf c ++ [in_data] in
  let c := mkClient (engine c) (chunk_size c) (words c)
                    (HowlClient.Chunk in_data) buf (device c) in
  if negb (length buf =? 16) then (Ok data_ok, (c, w))
  else
    let audio_data := concat buf in
    let c := mkClient (engine c) (chunk_size c) (words c)
                      (last_data c) (skipn 2 buf) (device c) in
    match frombuffer_int16 audio_data with
    | Raise e => (Raise e, (c, w))
    | Ok arr =>
        let inp := normalized arr in
        let w := emit (Infer (device c) inp) w in
        let (detected, e') := infer E (engine c) inp in
        let c := mkClient e' (chunk_size c) (words c)
                          (last_data c) (_audio_buf c) (device c) in
        if detected then
          match mapM (Text.py_index (words c)) (sequence E e') with
          | Raise e => (Raise e, (c, w))
          | Ok ws =>
              let phrase := Text.title (Text.join " " ws) in
              (Ok data_ok, (c, print (phrase ++ " detected") w))
          end
        else (Ok data_ok, (c, print blank_line w))
    end.

(** The stream delivers a chunk: line 39 installs the bound method
    [self._on_audio] as the [stream_callback], which the audio library
    calls as [callback(in_data, frame_count, time_info, status)]. *)
Definition stream_callback (in_data : bytes) (s : state)
  : pyres (bytes * Z) * state :=
  match call_bound def__on_audio 4 (Ok tt) with
  | Ok _ => _on_audio in_data s
  | Raise e => (Raise e, s)
  end.

(** The chunks of a delivery sequence handed to the callback in turn. *)
Fixpoint deliver (chunks : list bytes) (s : state) : state :=
  match chunks with
  | [] => s
  | in_data :: rest => deliver rest (snd (stream_callback in_data s))
  end.

End WithEngine.

End Demo.

(* ===================================================================== *)
(** * [Composition], [compose], [identity]
      (src/ww4ff/data/transform/base.py, lines 21-43 and 128-129) *)
(* ===================================================================== *)

Module Composition.

Local Open Scope py_scope.

Section Stages.

(** The values that flow through a pipeline. *)
Variable V : Type.

(** A stage: a callable, applied to positional arguments, that may raise;
    and whether it is an [nn.Module]. *)
Record stage : Type := mkStage {
  is_module : bool;
  run : list V -> pyres V
}.

(** A function of one argument as a stage: any other number of arguments
    is a [TypeError]. *)
Definition unary_call (f : V -> pyres V) (args : list V) : pyres V :=
  match args with
  | [x] => f x
  | _ => Raise TypeError
  end.

Definition plain (f : V -> V) : stage :=
  mkStage false (unary_call (fun x => Ok (f x))).

(** [identity(x)] and [IdentityTransform.forward(self, x)]: both return
    [x]; the second is a module. *)
Definition identity : stage := mkStage false (unary_call (fun x => Ok x)).
Definition IdentityTransform : stage := mkStage true (unary_call (fun x => Ok x)).

(** [Composition.__init__]: the stages, and those among them that are
    modules, registered in a [ModuleList]. *)
Record composition : Type := mkComposition {
  modules : list stage;
  _module_list : list stage
}.

Definition compose (collate_modules : list stage) : composition :=
  mkComposition collate_modules (filter is_module collate_modules).

(** [forward(self, *args)]:
<<
    for mod in self.modules:
        args = mod( *args)
        args = (args,)
    return args[0]
>> *)
Fixpoint run_stages (mods : list stage) (args : list V) : pyres V :=
  match mods with
  | [] => match args with
          | [] => Raise IndexError
          | x :: _ => Ok x
          end
  | m :: rest => v <- run m args ;; run_stages rest [v]
  end.

Definition forward (self : composition) (args : list V) : pyres V :=
  run_stages (modules self) args.

End Stages.

End Composition.

(* ===================================================================== *)
(** * Tensor operations on concrete inputs *)
(* ===================================================================== *)

Module TensorExamples.

Local Open Scope R_scope.

Definition e (z : Z) : xreal := Fin (IZR z).

Example squeeze_row : squeeze (mkTensor [1; 3]%nat [e 1; e 2; e 3]) = vec [e 1; e 2; e 3].
Proof. reflexivity. Qed.

Example squeeze_one_sample : squeeze (vec [e 7]) = mkTensor [] [e 7].
Proof. reflexivity. Qed.

Example cat_vectors :
  cat_last [vec [e 1; e 2]; zeros 2] = Ok (vec [e 1; e 2; e 0; e 0]).
Proof. reflexivity. Qed.

Example cat_matrix :
  cat_last [mkTensor [2; 1]%nat [e 1; e 2]; mkTensor [2; 2]%nat [e 3; e 4; e 5; e 6]]
  = Ok (mkTensor [2; 3]%nat [e 1; e 3; e 4; e 2; e 5; e 6]).
Proof. reflexivity. Qed.

Example cat_scalar_refused :
  cat_last [mkTensor [] [e 7]; zeros 0] = Raise RuntimeError.
Proof. reflexivity. Qed.

Example slice_negative : slice (-3) (-1) [1; 2; 3; 4; 5]%nat = [3; 4]%nat.
Proof. reflexivity. Qed.

Example slice_clamped : slice 3 99 [1; 2; 3; 4; 5]%nat = [4; 5]%nat.
Proof. reflexivity. Qed.

Example slice_crossed : slice 4 2 [1; 2; 3; 4; 5]%nat = [].
Proof. reflexivity. Qed.

Example expand_column :
  expand [2; 1]%nat [2; 3]%nat [1; 2]%nat = [1; 1; 1; 2; 2; 2]%nat.
Proof. reflexivity. Qed.

Example expand_row :
  expand [1; 3]%nat [2; 3]%nat [1; 2; 3]%nat = [1; 2; 3; 1; 2; 3]%nat.
Proof. reflexivity. Qed.

Example mul_broadcast :
  tmul (mkTensor [2; 1]%nat [e 2; e 3]) (mkTensor [1; 2]%nat [Fin 1; Fin 0])
  = Ok (mkTensor [2; 2]%nat
          [xmul (e 2) (Fin 1); xmul (e 2) (Fin 0);
           xmul (e 3) (Fin 1); xmul (e 3) (Fin 0)]).
Proof. reflexivity. Qed.

Example mul_mismatch :
  tmul (vec [e 1; e 2]) (vec [e 1; e 2; e 3]) = Raise RuntimeError.
Proof. reflexivity. Qed.

End TensorExamples.

(* ===================================================================== *)
(** * Properties of the tensor operations *)
(* ===================================================================== *)

Module TensorProps.

Lemma rows_of_vec (l : list xreal) : rows_of (vec l) = [l].
Proof.
  unfold rows_of, vec, lead. cbn [shape flat removelast last shape_prod fold_right rows].
  rewrite firstn_all. reflexivity.
Qed.

Lemma cat2_last_vec (l1 l2 : list xreal) :
  cat2_last (vec l1) (vec l2) = Ok (vec (l1 ++ l2)).
Proof.
  unfold cat2_last. rewrite !rows_of_vec.
  unfold vec, lead, shape_eqb. cbn [shape removelast last zip_app concat app].
  destruct (list_eq_dec Nat.eq_dec [] []) as [_|H]; [|congruence].
  rewrite app_nil_r, length_app. reflexivity.
Qed.

Lemma is_legacy_empty_vec (l : list xreal) :
  is_legacy_empty (vec l) = match l with [] => true | _ => false end.
Proof.
  unfold is_legacy_empty, shape_eqb, vec. cbn [shape].
  destruct l as [|x l]; cbn [length];
    destruct (list_eq_dec Nat.eq_dec _ _) as [H|H]; congruence.
Qed.

(** Concatenating two one-dimensional tensors appends their elements,
    whether or not one of them is empty. *)
Lemma cat_last_vec (l1 l2 : list xreal) :
  cat_last [vec l1; vec l2] = Ok (vec (l1 ++ l2)).
Proof.
  unfold cat_last. cbn [existsb dim vec shape length Nat.eqb orb filter].
  fold (vec l1). fold (vec l2).
  rewrite !is_legacy_empty_vec.
  destruct l1 as [|x l1], l2 as [|y l2]; cbn [negb fold_left Py.bind app].
  - reflexivity.
  - reflexivity.
  - rewrite app_nil_r. reflexivity.
  - apply cat2_last_vec.
Qed.

Lemma wf_vec (l : list xreal) : wf (vec l).
Proof. unfold wf, vec. cbn. lia. Qed.

Lemma numel_wf (t : tensor) : wf t -> numel t = shape_prod (shape t).
Proof. intros H. exact H. Qed.

(** ** Broadcasting against a one-element tensor *)

(** The shape of [t op u] when [u] has the shape [(1,)]: a
    zero-dimensional [t] takes the shape of [u], every other shape
    stays. *)
Definition with_one (sh : list nat) : list nat :=
  match sh with
  | [] => [1]
  | _ => sh
  end.

Lemma broadcast_dims_ones (sh : list nat) :
  broadcast_dims sh (repeat 1 (length sh)) = Some sh.
Proof.
  induction sh as [|a sh IH]; [reflexivity|].
  cbn [length repeat broadcast_dims]. rewrite IH.
  destruct (Nat.eqb_spec a 1) as [->|_]; reflexivity.
Qed.

Lemma broadcast_with_one (sh : list nat) :
  broadcast_shapes sh [1] = Some (with_one sh).
Proof.
  destruct sh as [|a sh]; [reflexivity|].
  unfold broadcast_shapes, pad_shape. cbn [length with_one].
  replace (Nat.max (S (length sh)) 1) with (S (length sh)) by lia.
  rewrite Nat.sub_diag. cbn [repeat app].
  replace (S (length sh) - 1) with (length sh) by lia.
  rewrite <- repeat_cons.
  exact (broadcast_dims_ones (a :: sh)).
Qed.

Lemma with_one_wf (t : tensor) :
  wf t -> (2 <= numel t \/ numel t = 0) -> with_one (shape t) = shape t.
Proof.
  unfold wf, numel. intros Hwf Hn.
  destruct (shape t); [cbn in Hwf; lia | reflexivity].
Qed.

End TensorProps.

Import TensorProps.

(* ===================================================================== *)
(** * Properties of [ZmuvTransform] *)
(* ===================================================================== *)

Module ZmuvProps.

Import Zmuv.
Local Open Scope R_scope.

(** ** Sums of real numbers *)

Fixpoint rsum (l : list R) : R :=
  match l with
  | [] => 0
  | x :: l' => x + rsum l'
  end.

Definition squares (l : list R) : list R := map (fun x => x * x) l.

Lemma fold_xadd_fin (xs : list R) (a : R) :
  fold_left xadd (map Fin xs) (Fin a) = Fin (a + rsum xs).
Proof.
  revert a. induction xs as [|x xs IH]; intros a; simpl.
  - f_equal. ring.
  - rewrite IH. f_equal. ring.
Qed.

Lemma xsum_fin (xs : list R) : xsum (map Fin xs) = Fin (rsum xs).
Proof. unfold xsum. rewrite fold_xadd_fin. f_equal. ring. Qed.

Lemma map_xsqr_fin (xs : list R) :
  map xsqr (map Fin xs) = map Fin (squares xs).
Proof. unfold squares. rewrite !map_map. reflexivity. Qed.

Lemma rsum_app (a b : list R) : rsum (a ++ b) = rsum a + rsum b.
Proof. induction a as [|x a IH]; simpl; [ring | rewrite IH; ring]. Qed.

Lemma squares_app (a b : list R) : squares (a ++ b) = squares a ++ squares b.
Proof. apply map_app. Qed.

Lemma rsum_repeat (v : R) (n : nat) : rsum (repeat v n) = INR n * v.
Proof.
  induction n as [|n IH].
  - simpl. ring.
  - change (repeat v (S n)) with (v :: repeat v n).
    cbn [rsum]. rewrite IH, S_INR. ring.
Qed.

Lemma squares_repeat (v : R) (n : nat) :
  squares (repeat v n) = repeat (v * v) n.
Proof. unfold squares. induction n; simpl; congruence. Qed.

Lemma finite_elements (l : list xreal) :
  Forall is_finite l -> exists xs, l = map Fin xs.
Proof.
  induction 1 as [|a l Ha _ [xs ->]].
  - exists []. reflexivity.
  - destruct a as [r| | |]; try contradiction.
    exists (r :: xs). reflexivity.
Qed.

Lemma finite_map_fin (xs : list R) : Forall is_finite (map Fin xs).
Proof. induction xs; simpl; constructor; simpl; auto. Qed.

(** ** One unmasked update in closed form *)

Lemma update_closed_form (t m m2 : R) (sh : list nat) (xs : list R) :
  t + INR (length xs) <> 0 ->
  update (mkZmuv (Fin t) (Fin m) (Fin m2)) (mkTensor sh (map Fin xs)) None
  = Ok (mkZmuv (Fin (t + INR (length xs)))
               (Fin ((rsum xs + m * t) / (t + INR (length xs))))
               (Fin ((rsum (squares xs) + m2 * t) / (t + INR (length xs))))).
Proof.
  intros Hne. unfold update, tsum, tsqr, numel.
  cbn [Py.bind flat shape total mean mean2].
  rewrite map_xsqr_fin, !xsum_fin, length_map.
  cbn [xmul xadd xdiv].
  destruct (Req_dec_T (t + INR (length xs)) 0) as [H0|_]; [contradiction|].
  reflexivity.
Qed.

(** ** Moments *)

Lemma centered_squares_nonneg (xs : list R) (c : R) :
  0 <= rsum (squares xs) - 2 * c * rsum xs + INR (length xs) * (c * c).
Proof.
  induction xs as [|x xs IH].
  - simpl. lra.
  - change (squares (x :: xs)) with (x * x :: squares xs).
    cbn [rsum length]. rewrite S_INR.
    pose proof (Rle_0_sqr (x - c)) as Hx. unfold Rsqr in Hx. nra.
Qed.

Lemma sum_squared_le (xs : list R) :
  rsum xs * rsum xs <= INR (length xs) * rsum (squares xs).
Proof.
  destruct xs as [|x xs]; [simpl; lra|].
  set (l := x :: xs).
  assert (HN : 0 < INR (length l)) by (apply lt_0_INR; simpl; lia).
  pose proof (centered_squares_nonneg l (rsum l / INR (length l))) as H.
  replace (rsum (squares l) - 2 * (rsum l / INR (length l)) * rsum l +
           INR (length l) * (rsum l / INR (length l) * (rsum l / INR (length l))))
    with ((INR (length l) * rsum (squares l) - rsum l * rsum l) / INR (length l)) in H
    by (field; lra).
  assert (H' : 0 <= (INR (length l) * rsum (squares l) - rsum l * rsum l)
                    / INR (length l) * INR (length l))
    by (apply Rmult_le_pos; lra).
  replace ((INR (length l) * rsum (squares l) - rsum l * rsum l)
           / INR (length l) * INR (length l))
    with (INR (length l) * rsum (squares l) - rsum l * rsum l) in H'
    by (field; lra).
  lra.
Qed.

Lemma second_moment_dominates (xs : list R) (t m m2 : R) :
  0 <= t -> m * m <= m2 -> 0 < t + INR (length xs) ->
  let T := t + INR (length xs) in
  (rsum xs + m * t) / T * ((rsum xs + m * t) / T)
  <= (rsum (squares xs) + m2 * t) / T.
Proof.
  intros Ht Hm HT T.
  pose proof (sum_squared_le xs) as HA.
  pose proof (centered_squares_nonneg xs m) as HB.
  pose proof (pos_INR (length xs)) as HN.
  set (S := rsum xs) in *. set (Q := rsum (squares xs)) in *.
  set (N := INR (length xs)) in *.
  assert (Hkey : (S + m * t) * (S + m * t) <= (Q + m2 * t) * T).
  { unfold T.
    assert (Hd : 0 <= m2 - m * m) by lra.
    pose proof (Rmult_le_pos _ _ Ht HB) as H1.
    pose proof (Rmult_le_pos _ _ (Rmult_le_pos _ _ Ht HN) Hd) as H2.
    pose proof (Rmult_le_pos _ _ (Rmult_le_pos _ _ Ht Ht) Hd) as H3.
    nra. }
  replace ((S + m * t) / T * ((S + m * t) / T))
    with ((S + m * t) * (S + m * t) / (T * T)) by (field; unfold T; lra).
  replace ((Q + m2 * t) / T) with ((Q + m2 * t) * T / (T * T))
    by (field; unfold T; lra).
  apply Rmult_le_compat_r; [|exact Hkey].
  apply Rlt_le, Rinv_0_lt_compat. unfold T. nra.
Qed.


(** ** The first update with identical values *)

(** Three times the single-precision number nearest to 0.9, and seven
    times the one nearest to 0.1. *)
Definition three_times_0_9 : Float32.tensor32 :=
  Float32.vec32 (repeat (Float32.ratio 9 10) 3).

Definition seven_times_0_1 : Float32.tensor32 :=
  Float32.vec32 (repeat (Float32.ratio 1 10) 7).

(** C5, as stated, fails in the arithmetic of the buffers, which is
    single precision. For three copies of [v = 0.9] the first [update]
    leaves [total = 3] and [mean2 = v * v], but [mean] is the number just
    below [v], and [std] reads about [3.45e-4], not [0]. The three elements
    add up to the same sum in whatever order they are taken. For seven
    copies of [v = 0.1], added in order, [mean] is the number just above
    [v], the radicand [mean2 - mean ** 2] is negative and [std] reads
    [nan]. *)
Lemma update_first_identical_is_rounded :
  (let v := Float32.ratio 9 10 in
   v = S754_finite false 15099494 (-24)
   /\ Float32.add v (Float32.add v v) = Float32.add (Float32.add v v) v
   /\ (let q := Float32.mul v v in
       Float32.add q (Float32.add q q) = Float32.add (Float32.add q q) q)
   /\ exists s,
        Zmuv32.update Zmuv32.init three_times_0_9 None = Ok s
        /\ Zmuv32.total s = Float32.of_int 3
        /\ Zmuv32.mean s = S754_finite false 15099493 (-24)
        /\ Zmuv32.mean s <> v
        /\ Zmuv32.mean2 s = Float32.mul v v
        /\ Zmuv32.std s = S754_finite false 11863283 (-35)
        /\ Zmuv32.std s <> Float32.zero)
  /\ (let v := Float32.ratio 1 10 in
      v = S754_finite false 13421773 (-27)
      /\ exists s,
           Zmuv32.update Zmuv32.init seven_times_0_1 None = Ok s
           /\ Zmuv32.total s = Float32.of_int 7
           /\ Zmuv32.mean s = S754_finite false 13421774 (-27)
           /\ Zmuv32.mean s <> v
           /\ Zmuv32.radicand s = S754_finite true 8388608 (-53)
           /\ Zmuv32.std s = S754_nan).
Proof.
  split; cbv zeta.
  - split; [vm_compute; reflexivity|]. split; [vm_compute; reflexivity|].
    split; [vm_compute; reflexivity|].
    eexists. split; [vm_compute; reflexivity|].
    repeat split; try (vm_compute; reflexivity); vm_compute; discriminate.
  - split; [vm_compute; reflexivity|].
    eexists. split; [vm_compute; reflexivity|].
    repeat split; try (vm_compute; reflexivity); vm_compute; discriminate.
Qed.

(** C5, amended. In exact arithmetic, a first [update] (statistics still at
    their initial zeros), without a mask, of a tensor that holds [N > 0]
    times the same real number [v] leaves [total = N], [mean = v],
    [mean2 = v * v], and [std] then reads [0]. *)
Theorem update_first_identical (data : tensor) (N : nat) (v : R) :
  (0 < N)%nat ->
  flat data = repeat (Fin v) N ->
  update init data None = Ok (mkZmuv (Fin (INR N)) (Fin v) (Fin (v * v)))
  /\ std (mkZmuv (Fin (INR N)) (Fin v) (Fin (v * v))) = Ok (Fin 0).
Proof.
  intros HN Hflat.
  assert (HNR : 0 < INR N) by (apply lt_0_INR; exact HN).
  split.
  - destruct data as [sh fl]. simpl in Hflat. subst fl.
    replace (repeat (Fin v) N) with (map Fin (repeat v N))
      by (clear; induction N; simpl; congruence).
    unfold init. rewrite update_closed_form; rewrite repeat_length; [|lra].
    rewrite squares_repeat, !rsum_repeat.
    f_equal. f_equal; f_equal; field; lra.
  - unfold std, radicand, tensor_sqrt, xsub, xsqr. cbn [mean mean2 xmul xopp xadd xsqrt].
    replace (v * v + - (v * v)) with 0 by ring.
    destruct (Rlt_dec 0 0) as [H|_]; [lra|].
    rewrite sqrt_0. reflexivity.
Qed.

Lemma update_first_identical_witness :
  update init (full [2; 3]%nat (Fin 5)) None
  = Ok (mkZmuv (Fin (INR 6)) (Fin 5) (Fin (5 * 5)))
  /\ std (mkZmuv (Fin (INR 6)) (Fin 5) (Fin (5 * 5))) = Ok (Fin 0).
Proof.
  apply (@update_first_identical (full [2; 3]%nat (Fin 5)) 6 5).
  - lia.
  - reflexivity.
Defined.

(** ** Two updates and one update of the concatenation *)

(** Statistics that are real numbers with a count that is not negative. *)
Definition counted (s : zmuv) : Prop :=
  match total s, mean s, mean2 s with
  | Fin t, Fin _, Fin _ => 0 <= t
  | _, _, _ => False
  end.

(** C6. From any statistics with a non-negative count, an unmasked [update]
    with [A] followed by one with [B] gives the same [mean] and [mean2]
    (and [total]) as a single unmasked [update] with [torch.cat((A, B))],
    for all non-empty one-dimensional tensors [A] and [B] of real numbers.
    Arithmetic is exact. *)
Theorem update_twice_is_update_cat (s : zmuv) (a b : list R) :
  counted s -> a <> [] -> b <> [] ->
  exists s1 s2 ab s12,
    update s (vec (map Fin a)) None = Ok s1
    /\ update s1 (vec (map Fin b)) None = Ok s2
    /\ cat_last [vec (map Fin a); vec (map Fin b)] = Ok ab
    /\ update s ab None = Ok s12
    /\ mean s2 = mean s12 /\ mean2 s2 = mean2 s12 /\ total s2 = total s12.
Proof.
  intros Hs Ha Hb.
  destruct s as [[t| | |] [m| | |] [m2| | |]]; try contradiction.
  unfold counted in Hs; cbn in Hs.
  assert (HNa : 0 < INR (length a))
    by (apply lt_0_INR; destruct a; [congruence | simpl; lia]).
  assert (HNb : 0 < INR (length b))
    by (apply lt_0_INR; destruct b; [congruence | simpl; lia]).
  assert (Hcat : cat_last [vec (map Fin a); vec (map Fin b)]
                 = Ok (vec (map Fin (a ++ b))))
    by (rewrite cat_last_vec, map_app; reflexivity).
  eexists _, _, _, _.
  unfold vec.
  split; [apply update_closed_form; lra|].
  split; [apply update_closed_form; lra|].
  split; [exact Hcat|].
  split; [apply update_closed_form; rewrite length_app, plus_INR; lra|].
  cbn [mean mean2 total].
  rewrite squares_app, !rsum_app, length_app, plus_INR.
  repeat split; f_equal; field; lra.
Qed.

Lemma update_twice_is_update_cat_witness :
  exists s1 s2 ab s12,
    update init (vec (map Fin [1; 2])) None = Ok s1
    /\ update s1 (vec (map Fin [3])) None = Ok s2
    /\ cat_last [vec (map Fin [1; 2]); vec (map Fin [3])] = Ok ab
    /\ update init ab None = Ok s12
    /\ mean s2 = mean s12 /\ mean2 s2 = mean2 s12 /\ total s2 = total s12.
Proof.
  apply (@update_twice_is_update_cat init [1; 2] [3]).
  - unfold counted, init. cbn. lra.
  - discriminate.
  - discriminate.
Defined.

(** ** [std] on inconsistent statistics *)

Definition negative_radicand (s : zmuv) : Prop :=
  exists r, radicand s = Fin r /\ r < 0.

(** Statistics with [mean = 1] and [mean2 = 0]. *)
Definition inconsistent_stats : zmuv := mkZmuv (Fin 1) (Fin 1) (Fin 0).

(** C7, as stated, fails: on statistics whose radicand is negative [std]
    raises nothing. *)
Lemma std_negative_radicand_does_not_raise :
  ~ (forall s, negative_radicand s -> exists e, std s = Raise e).
Proof.
  intros H.
  destruct (H inconsistent_stats) as [e He].
  - exists (-1). split; [|lra].
    unfold radicand, inconsistent_stats, xsub, xsqr. cbn. f_equal. ring.
  - unfold std, tensor_sqrt in He. discriminate.
Qed.

(** C7, amended. When [mean2 - mean ** 2] is negative, reading [std]
    raises no error and returns [NaN]: the value is not clamped. [std] is
    computed from [mean] and [mean2] as [sqrt(mean2 - mean ** 2)] at every
    read; it is not one of the stored statistics. *)
Theorem std_negative_radicand_is_nan (s : zmuv) :
  negative_radicand s ->
  std s = Ok NaN
  /\ std s = tensor_sqrt (xsub (mean2 s) (xsqr (mean s)))
  /\ forall t, std (mkZmuv t (mean s) (mean2 s)) = std s.
Proof.
  intros [r [Hr Hneg]].
  split; [|split; [reflexivity | intros t; reflexivity]].
  unfold std, tensor_sqrt. rewrite Hr. cbn.
  destruct (Rlt_dec r 0) as [_|H]; [reflexivity | contradiction].
Qed.

Lemma std_negative_radicand_is_nan_witness :
  std inconsistent_stats = Ok NaN
  /\ std inconsistent_stats
     = tensor_sqrt (xsub (mean2 inconsistent_stats) (xsqr (mean inconsistent_stats)))
  /\ forall t, std (mkZmuv t (mean inconsistent_stats) (mean2 inconsistent_stats))
               = std inconsistent_stats.
Proof.
  apply (@std_negative_radicand_is_nan inconsistent_stats).
  exists (-1). split; [|lra].
  unfold radicand, inconsistent_stats, xsub, xsqr. cbn. f_equal. ring.
Defined.

(** ** The invariant [mean2 >= mean ** 2] *)

Lemma init_consistent : consistent init.
Proof. unfold consistent, init. cbn. lra. Qed.

(** One unmasked update keeps the statistics consistent, unless it is the
    update of statistics with a zero count by an empty tensor; the count is
    positive afterwards. *)
Lemma update_preserves_consistent (s : zmuv) (data : tensor) :
  consistent s -> finite_tensor data ->
  numel data <> 0%nat \/ total s <> Fin 0 ->
  exists s', update s data None = Ok s' /\ consistent s' /\ total s' <> Fin 0.
Proof.
  intros Hs Hfin Hpos.
  destruct s as [[t| | |] [m| | |] [m2| | |]]; try contradiction.
  unfold consistent in Hs. cbn in Hs. destruct Hs as [Ht Hm].
  destruct data as [sh fl].
  destruct (finite_elements Hfin) as [xs Hxs]. cbn in Hxs. subst fl.
  unfold numel in Hpos. cbn [flat total] in Hpos. rewrite length_map in Hpos.
  pose proof (pos_INR (length xs)) as HN.
  assert (HT : 0 < t + INR (length xs)).
  { destruct Hpos as [Hn|Hn0].
    - assert (0 < INR (length xs)) by (apply lt_0_INR; lia). lra.
    - assert (t <> 0) by congruence. lra. }
  eexists. split; [apply update_closed_form; lra|]. split.
  - unfold consistent. cbn [total mean mean2]. split; [lra|].
    apply second_moment_dominates; assumption.
  - cbn [total]. intros H. injection H as H. lra.
Qed.

Lemma consistent_radicand (s : zmuv) :
  consistent s ->
  exists r, radicand s = Fin r /\ 0 <= r /\ std s = Ok (Fin (sqrt r)).
Proof.
  intros Hs.
  destruct s as [[t| | |] [m| | |] [m2| | |]]; try contradiction.
  unfold consistent in Hs. cbn in Hs. destruct Hs as [_ Hm].
  exists (m2 + - (m * m)). split; [reflexivity|]. split; [lra|].
  unfold std, radicand, tensor_sqrt, xsub, xsqr. cbn.
  destruct (Rlt_dec (m2 + - (m * m)) 0) as [H|_]; [lra | reflexivity].
Qed.

Lemma forward_finite (s : zmuv) (r : R) (x : tensor) :
  consistent s -> radicand s = Fin r -> 0 < r -> finite_tensor x ->
  exists y, forward s x = Ok y /\ finite_tensor y.
Proof.
  intros Hs Hr Hpos Hx.
  destruct (@consistent_radicand s Hs) as [r' [Hr' [_ Hstd]]].
  assert (r' = r) by congruence. subst r'.
  destruct s as [[t| | |] [m| | |] [m2| | |]]; try contradiction.
  unfold forward, buffer_shape. rewrite Hstd, broadcast_with_one.
  cbn [Py.bind mean].
  eexists. split; [reflexivity|].
  unfold finite_tensor in *. cbn [flat].
  pose proof (sqrt_lt_R0 r Hpos) as Hsq.
  induction Hx as [|e l He _ IH]; cbn [map]; constructor; [|exact IH].
  destruct e as [v| | |]; try contradiction.
  cbn. destruct (Req_dec_T (sqrt r) 0) as [H0|_]; [lra | exact I].
Qed.

(** C10, as stated, fails twice. An unmasked [update] of the initial
    statistics with an empty tensor computes [0 / 0] and leaves [mean] at
    [NaN]; and on the initial statistics, which are consistent, [std] is
    [0] and [forward] divides by it. *)
Lemma consistency_lost_on_empty_update :
  consistent init
  /\ (exists s', update init (vec []) None = Ok s'
                 /\ mean s' = NaN /\ ~ consistent s')
  /\ forward init (vec [Fin 0]) = Ok (vec [NaN]).
Proof.
  split; [exact init_consistent|]. split.
  - eexists. split; [reflexivity|].
    assert (Hm : xdiv (xadd (tsum (vec [])) (xmul (Fin 0) (Fin 0)))
                      (xadd (Fin 0) (Fin (INR (numel (vec []))))) = NaN).
    { cbn. destruct (Req_dec_T (0 + 0) 0) as [_|H]; [|lra].
      destruct (Req_dec_T (0 + 0 * 0) 0) as [_|H]; [reflexivity | lra]. }
    split.
    + cbn [mean init]. exact Hm.
    + unfold consistent. cbn [total mean mean2 init]. rewrite Hm.
      destruct (xadd (Fin 0) (Fin (INR (numel (vec []))))); auto.
  - unfold forward, std, radicand, tensor_sqrt, init, xsub, xsqr, vec.
    cbn. destruct (Rlt_dec (0 + - (0 * 0)) 0) as [H|_]; [lra|].
    cbn. replace (0 + - (0 * 0)) with 0 by ring. rewrite sqrt_0.
    destruct (Req_dec_T 0 0) as [_|H]; [|lra].
    destruct (Req_dec_T (0 + - 0) 0) as [_|H]; [reflexivity | lra].
Qed.

(** A sequence of updates that does not begin, on a zero count, with an
    empty tensor. *)
Definition no_empty_start (s : zmuv) (datas : list tensor) : Prop :=
  total s <> Fin 0
  \/ match datas with
     | [] => True
     | d :: _ => numel d <> 0%nat
     end.

(** C10, amended. In exact arithmetic the initial statistics satisfy
    [total >= 0] and [mean2 >= mean ** 2], and an unmasked [update] with a
    tensor of real numbers keeps both, unless it is the update of a zero
    count by an empty tensor. So after any sequence of unmasked updates
    without such a step, from any consistent statistics, the radicand of
    [std] is a real number [r >= 0] and [std] reads [sqrt r]. [forward] then
    yields real numbers provided [r > 0]; at [r = 0] it divides by zero. *)
Theorem consistent_after_updates (s : zmuv) (datas : list tensor) :
  consistent s ->
  Forall finite_tensor datas ->
  no_empty_start s datas ->
  consistent init
  /\ exists s' r,
       initialize s datas = Ok s' /\ consistent s'
       /\ radicand s' = Fin r /\ 0 <= r /\ std s' = Ok (Fin (sqrt r))
       /\ (0 < r -> forall x, finite_tensor x ->
                    exists y, forward s' x = Ok y /\ finite_tensor y).
Proof.
  intros Hs Hall Hstart. split; [exact init_consistent|].
  revert s Hs Hstart. induction Hall as [|d datas Hfin _ IH]; intros s Hs Hstart.
  - destruct (@consistent_radicand s Hs) as [r [Hr [Hr0 Hstd]]].
    exists s, r. cbn [initialize]. repeat split; try assumption.
    intros Hpos x Hx. exact (@forward_finite s r x Hs Hr Hpos Hx).
  - assert (Hstep : numel d <> 0%nat \/ total s <> Fin 0)
      by (destruct Hstart as [H|H]; [right | left]; exact H).
    destruct (@update_preserves_consistent s d Hs Hfin Hstep)
      as [s1 [Hup [Hs1 Ht1]]].
    destruct (IH s1 Hs1 (or_introl Ht1)) as [s' [r H]].
    exists s', r. cbn [initialize]. rewrite Hup. exact H.
Qed.

Lemma consistent_after_updates_witness :
  consistent init
  /\ exists s' r,
       initialize init [vec [Fin 1; Fin 3]; vec []; vec [Fin 2]] = Ok s'
       /\ consistent s'
       /\ radicand s' = Fin r /\ 0 <= r /\ std s' = Ok (Fin (sqrt r))
       /\ (0 < r -> forall x, finite_tensor x ->
                    exists y, forward s' x = Ok y /\ finite_tensor y).
Proof.
  apply (@consistent_after_updates init [vec [Fin 1; Fin 3]; vec []; vec [Fin 2]]).
  - unfold consistent, init. cbn. lra.
  - repeat constructor.
  - right. cbn. discriminate.
Defined.

End ZmuvProps.

(* ===================================================================== *)
(** * [ZmuvTransform]: a pass over a dataset, normalisation and masks *)
(* ===================================================================== *)

Module ZmuvDataset.

Import Zmuv ZmuvProps.
Local Open Scope R_scope.

(** The real numbers held by a tensor. *)
Definition reals (t : tensor) : list R :=
  flat_map (fun e => match e with Fin r => [r] | _ => [] end) (flat t).

Lemma reals_finite (t : tensor) :
  finite_tensor t -> flat t = map Fin (reals t).
Proof.
  unfold finite_tensor, reals. induction 1 as [|e l He _ IH]; [reflexivity|].
  destruct e as [r| | |]; try contradiction.
  cbn [flat_map app map]. f_equal. exact IH.
Qed.

Lemma reals_length (t : tensor) : finite_tensor t -> length (reals t) = numel t.
Proof.
  intros H. unfold numel.
  rewrite <- (length_map Fin (reals t)), <- (reals_finite H). reflexivity.
Qed.

(** The statistics of the numbers [acc]: their count, their mean and the
    mean of their squares. *)
Definition moments (acc : list R) : zmuv :=
  mkZmuv (Fin (INR (length acc)))
         (Fin (rsum acc / INR (length acc)))
         (Fin (rsum (squares acc) / INR (length acc))).

Lemma update_init_moments (data : tensor) :
  finite_tensor data -> numel data <> 0%nat ->
  update init data None = Ok (moments (reals data)).
Proof.
  intros Hfin Hne. destruct data as [sh fl].
  pose proof (reals_length Hfin) as Hlen.
  pose proof (reals_finite Hfin) as Hfl. cbn [flat] in Hfl.
  set (xs := reals (mkTensor sh fl)) in *. rewrite Hfl.
  assert (HN : 0 < INR (length xs)) by (apply lt_0_INR; lia).
  unfold init. rewrite update_closed_form by lra.
  unfold moments. f_equal. f_equal; f_equal; field; lra.
Qed.

Lemma update_moments (acc : list R) (data : tensor) :
  acc <> [] -> finite_tensor data ->
  update (moments acc) data None = Ok (moments (acc ++ reals data)).
Proof.
  intros Hacc Hfin. destruct data as [sh fl].
  pose proof (reals_finite Hfin) as Hfl. cbn [flat] in Hfl.
  set (xs := reals (mkTensor sh fl)) in *. rewrite Hfl.
  assert (HA : 0 < INR (length acc))
    by (apply lt_0_INR; destruct acc; [congruence | cbn; lia]).
  pose proof (pos_INR (length xs)) as HX.
  unfold moments. rewrite update_closed_form by lra.
  rewrite squares_app, !rsum_app, length_app, plus_INR.
  f_equal. f_equal; f_equal; field; lra.
Qed.

(** [initialize] over a dataset whose first tensor is not empty leaves the
    count, the mean and the mean of squares of all its numbers, in
    whatever way the numbers are split into tensors. *)
Theorem initialize_dataset_moments (d : tensor) (rest : list tensor) :
  Forall finite_tensor (d :: rest) -> numel d <> 0%nat ->
  initialize init (d :: rest)
  = Ok (moments (flat_map reals (d :: rest))).
Proof.
  intros Hall Hne. inversion Hall as [|? ? Hd Hrest]; subst.
  cbn [initialize flat_map]. rewrite (update_init_moments Hd Hne).
  cbn [Py.bind].
  assert (Hacc : reals d <> []).
  { intros H. pose proof (reals_length Hd) as Hl. rewrite H in Hl.
    cbn in Hl. lia. }
  revert Hacc. generalize (reals d) as acc. clear Hall Hd Hne.
  induction Hrest as [|t rest Ht _ IH]; intros acc Hacc; cbn [initialize flat_map].
  - rewrite app_nil_r. reflexivity.
  - rewrite (update_moments Hacc Ht). cbn [Py.bind].
    rewrite IH; [rewrite app_assoc; reflexivity|].
    destruct acc; [congruence | discriminate].
Qed.

Lemma initialize_dataset_moments_witness :
  initialize init [vec [Fin 1; Fin 3]; vec []; vec [Fin 2]]
  = Ok (moments (flat_map reals [vec [Fin 1; Fin 3]; vec []; vec [Fin 2]])).
Proof.
  apply (@initialize_dataset_moments (vec [Fin 1; Fin 3]) [vec []; vec [Fin 2]]).
  - repeat constructor.
  - cbn. discriminate.
Defined.

(** ** An empty first tensor *)

Lemma update_keeps_nan (s : zmuv) (data : tensor) :
  mean s = NaN -> mean2 s = NaN ->
  exists s', update s data None = Ok s' /\ mean s' = NaN /\ mean2 s' = NaN.
Proof.
  intros Hm Hm2. eexists. split; [reflexivity|].
  cbn [mean mean2]. rewrite Hm, Hm2. cbn [xmul].
  split.
  - destruct (tsum data); reflexivity.
  - destruct (tsum (tsqr data)); reflexivity.
Qed.

(** When the first tensor of a dataset is empty, [initialize] computes
    [0 / 0] for it, and [mean] and [mean2] stay [NaN] whatever tensors
    follow. *)
Theorem initialize_empty_first (sh : list nat) (rest : list tensor) :
  exists s, initialize init (mkTensor sh [] :: rest) = Ok s
            /\ mean s = NaN /\ mean2 s = NaN.
Proof.
  cbn [initialize].
  assert (H0 : exists s0, update init (mkTensor sh []) None = Ok s0
                          /\ mean s0 = NaN /\ mean2 s0 = NaN).
  { eexists. split; [reflexivity|]. cbn.
    destruct (Req_dec_T (0 + 0) 0) as [_|H]; [|lra].
    destruct (Req_dec_T (0 + 0 * 0) 0) as [_|H]; [|lra]. split; reflexivity. }
  destruct H0 as [s0 [Hup [Hm Hm2]]]. rewrite Hup. cbn [Py.bind].
  clear Hup. revert s0 Hm Hm2.
  induction rest as [|t rest IH]; intros s0 Hm Hm2; cbn [initialize].
  - exists s0. auto.
  - destruct (@update_keeps_nan s0 t Hm Hm2) as [s1 [Hup [Hm1 Hm21]]].
    rewrite Hup. cbn [Py.bind]. exact (IH s1 Hm1 Hm21).
Qed.


(** ** Normalising the data that the statistics were taken from *)

Lemma centered_squares_pos (xs : list R) (c x : R) :
  In x xs -> x <> c ->
  0 < rsum (squares xs) - 2 * c * rsum xs + INR (length xs) * (c * c).
Proof.
  induction xs as [|y xs IH]; intros Hin Hne; [contradiction|].
  change (squares (y :: xs)) with (y * y :: squares xs).
  cbn [rsum length]. rewrite S_INR.
  pose proof (centered_squares_nonneg xs c) as Hrest.
  destruct Hin as [->|Hin].
  - assert (0 < (x - c) * (x - c)) by nra. nra.
  - specialize (IH Hin Hne).
    pose proof (Rle_0_sqr (y - c)) as Hy. unfold Rsqr in Hy. nra.
Qed.

Lemma rsum_shifted (xs : list R) (m sd : R) :
  sd <> 0 ->
  rsum (map (fun x => (x + - m) / sd) xs)
  = (rsum xs - INR (length xs) * m) / sd.
Proof.
  intros Hsd. induction xs as [|x xs IH].
  - cbn. field. exact Hsd.
  - cbn [map rsum length]. rewrite IH, S_INR. field. exact Hsd.
Qed.

Lemma rsum_squares_shifted (xs : list R) (m sd : R) :
  sd <> 0 ->
  rsum (squares (map (fun x => (x + - m) / sd) xs))
  = (rsum (squares xs) - 2 * m * rsum xs + INR (length xs) * (m * m))
    / (sd * sd).
Proof.
  intros Hsd. induction xs as [|x xs IH].
  - cbn. field. exact Hsd.
  - change (squares (x :: xs)) with (x * x :: squares xs).
    cbn [map]. 
    change (squares ((x + - m) / sd :: map (fun x0 => (x0 + - m) / sd) xs))
      with ((x + - m) / sd * ((x + - m) / sd)
            :: squares (map (fun x0 => (x0 + - m) / sd) xs)).
    cbn [rsum length]. rewrite IH, S_INR. field. exact Hsd.
Qed.

(** The variance [mean2 - mean ** 2] of numbers that are not all equal is
    positive. *)
Lemma variance_pos (xs : list R) (x y : R) :
  In x xs -> In y xs -> x <> y ->
  0 < rsum (squares xs) / INR (length xs)
      + - (rsum xs / INR (length xs) * (rsum xs / INR (length xs))).
Proof.
  intros Hx Hy Hne.
  assert (HN : 0 < INR (length xs))
    by (apply lt_0_INR; destruct xs; [contradiction | cbn; lia]).
  set (m := rsum xs / INR (length xs)).
  assert (Hc : 0 < rsum (squares xs) - 2 * m * rsum xs
                   + INR (length xs) * (m * m)).
  { destruct (Req_dec_T x m) as [Hxm|Hxm].
    - apply (@centered_squares_pos xs m y Hy). congruence.
    - apply (@centered_squares_pos xs m x Hx). exact Hxm. }
  replace (rsum (squares xs) / INR (length xs) + - (m * m))
    with ((rsum (squares xs) - 2 * m * rsum xs + INR (length xs) * (m * m))
          / INR (length xs))
    by (unfold m; field; lra).
  apply Rdiv_lt_0_compat; assumption.
Qed.

(** Zero mean, unit variance. When the statistics are taken, by a first
    unmasked [update], from a tensor of real numbers that are not all
    equal, [forward] maps that tensor to real numbers whose sum is [0] and
    whose squares sum to the number of elements: their mean is 0 and the
    mean of their squares is 1. The result has the shape of the tensor
    broadcast against the one-element buffers, which for a well-formed
    tensor of two elements or more is the shape of the tensor. *)
Theorem forward_standardizes (data : tensor) (x y : R) :
  finite_tensor data ->
  In x (reals data) -> In y (reals data) -> x <> y ->
  exists s ys,
    update init data None = Ok s
    /\ forward s data = Ok (mkTensor (with_one (shape data)) (map Fin ys))
    /\ rsum ys = 0
    /\ rsum (squares ys) = INR (numel data)
    /\ (wf data -> with_one (shape data) = shape data).
Proof.
  intros Hfin Hx Hy Hne.
  assert (Hshape : wf data -> with_one (shape data) = shape data).
  { intros Hwf. apply with_one_wf; [exact Hwf|]. left.
    rewrite <- (reals_length Hfin).
    destruct (reals data) as [|a [|b l]]; cbn [length]; [contradiction | | lia].
    destruct Hx as [<-|[]]. destruct Hy as [<-|[]]. congruence. }
  pose proof (reals_length Hfin) as Hlen.
  pose proof (reals_finite Hfin) as Hfl.
  set (xs := reals data) in *.
  assert (HN : 0 < INR (length xs))
    by (apply lt_0_INR; destruct xs; [contradiction | cbn; lia]).
  assert (Hnum : numel data <> 0%nat)
    by (rewrite <- Hlen; destruct xs; [contradiction | discriminate]).
  pose proof (@variance_pos xs x y Hx Hy Hne) as Hvar.
  set (m := rsum xs / INR (length xs)) in *.
  set (r := rsum (squares xs) / INR (length xs) + - (m * m)) in *.
  pose proof (sqrt_lt_R0 r Hvar) as Hsd.
  exists (moments xs), (map (fun v => (v + - m) / sqrt r) xs).
  split; [exact (update_init_moments Hfin Hnum)|].
  split; [|split; [|split; [|exact Hshape]]].
  - unfold forward, buffer_shape, std, radicand, tensor_sqrt, moments, xsub, xsqr.
    rewrite broadcast_with_one.
    cbn [mean mean2 xmul xopp xadd xsqrt Py.bind].
    fold m. fold r.
    destruct (Rlt_dec r 0) as [H|_]; [lra|].
    f_equal. f_equal. rewrite Hfl, !map_map.
    apply map_ext. intros v. cbn.
    destruct (Req_dec_T (sqrt r) 0) as [H|_]; [lra | reflexivity].
  - rewrite rsum_shifted by lra. unfold m. field. lra.
  - rewrite rsum_squares_shifted by lra.
    rewrite sqrt_sqrt by lra. rewrite <- Hlen.
    assert (Hr : rsum (squares xs) * INR (length xs) + - (rsum xs * rsum xs)
                 = r * (INR (length xs) * INR (length xs)))
      by (unfold r, m; field; lra).
    assert (Hpos : 0 < r * (INR (length xs) * INR (length xs)))
      by (apply Rmult_lt_0_compat; [exact Hvar | apply Rmult_lt_0_compat; exact HN]).
    unfold r, m. field. split; [lra|]. rewrite Hr. lra.
Qed.

Lemma forward_standardizes_witness :
  exists s ys,
    update init (vec [Fin 1; Fin 3]) None = Ok s
    /\ forward s (vec [Fin 1; Fin 3])
       = Ok (mkTensor (with_one (shape (vec [Fin 1; Fin 3]))) (map Fin ys))
    /\ rsum ys = 0
    /\ rsum (squares ys) = INR (numel (vec [Fin 1; Fin 3]))
    /\ (wf (vec [Fin 1; Fin 3])
        -> with_one (shape (vec [Fin 1; Fin 3])) = shape (vec [Fin 1; Fin 3])).
Proof.
  apply (@forward_standardizes (vec [Fin 1; Fin 3]) 1 3).
  - repeat constructor.
  - cbn. left. reflexivity.
  - cbn. right. left. reflexivity.
  - lra.
Defined.

Lemma constant_data_forward (data : tensor) (N : nat) (v : R) :
  (0 < N)%nat -> flat data = repeat (Fin v) N ->
  exists s,
    update init data None = Ok s
    /\ std s = Ok (Fin 0)
    /\ forward s data = Ok (mkTensor (with_one (shape data)) (repeat NaN N)).
Proof.
  intros HN Hflat.
  assert (Hfin : finite_tensor data).
  { unfold finite_tensor. rewrite Hflat. clear. induction N; cbn; constructor; cbn; auto. }
  assert (Hreals : reals data = repeat v N).
  { unfold reals. rewrite Hflat. clear. induction N; cbn; congruence. }
  assert (Hnum : numel data <> 0%nat)
    by (unfold numel; rewrite Hflat, repeat_length; lia).
  assert (HNR : 0 < INR N) by (apply lt_0_INR; exact HN).
  exists (moments (reals data)).
  split; [exact (update_init_moments Hfin Hnum)|].
  rewrite Hreals. unfold moments.
  rewrite squares_repeat, !rsum_repeat, repeat_length.
  assert (Hm : INR N * v / INR N = v) by (field; lra).
  assert (Hm2 : INR N * (v * v) / INR N = v * v) by (field; lra).
  rewrite Hm, Hm2.
  assert (Hstd : std (mkZmuv (Fin (INR N)) (Fin v) (Fin (v * v))) = Ok (Fin 0)).
  { unfold std, radicand, tensor_sqrt, xsub, xsqr.
    cbn [mean mean2 xmul xopp xadd xsqrt].
    replace (v * v + - (v * v)) with 0 by ring.
    destruct (Rlt_dec 0 0) as [H|_]; [lra|]. rewrite sqrt_0. reflexivity. }
  split; [exact Hstd|].
  unfold forward, buffer_shape. rewrite Hstd, broadcast_with_one.
  cbn [Py.bind mean].
  f_equal. f_equal. rewrite Hflat. clear - v.
  induction N as [|N IH]; [reflexivity|].
  cbn [repeat map]. rewrite IH. f_equal.
  cbn. destruct (Req_dec_T 0 0) as [_|H]; [|lra].
  destruct (Req_dec_T (v + - v) 0) as [_|H]; [reflexivity | lra].
Qed.

(** Constant data, in exact arithmetic. When the statistics are taken
    from a tensor that holds the same real number [N > 0] times, [std] is
    0 and [forward] maps every element of that tensor to [NaN]. The result
    has the shape of the tensor broadcast against the one-element buffers:
    the shape of the tensor, or [(1,)] when the tensor is
    zero-dimensional. *)
Theorem forward_constant_is_nan (data : tensor) (N : nat) (v : R) :
  (0 < N)%nat -> flat data = repeat (Fin v) N ->
  exists s,
    update init data None = Ok s
    /\ std s = Ok (Fin 0)
    /\ forward s data = Ok (mkTensor (with_one (shape data)) (repeat NaN N)).
Proof. exact (@constant_data_forward data N v). Qed.

Lemma forward_constant_is_nan_witness :
  exists s,
    update init (full [2; 2]%nat (Fin 7)) None = Ok s
    /\ std s = Ok (Fin 0)
    /\ forward s (full [2; 2]%nat (Fin 7))
       = Ok (mkTensor (with_one (shape (full [2; 2]%nat (Fin 7)))) (repeat NaN 4)).
Proof.
  apply (@forward_constant_is_nan (full [2; 2]%nat (Fin 7)) 4 7).
  - lia.
  - reflexivity.
Defined.

(** A zero-dimensional tensor comes back with one dimension. *)
Example forward_zero_dimensional :
  exists s,
    update init (mkTensor [] [Fin 7]) None = Ok s
    /\ forward s (mkTensor [] [Fin 7]) = Ok (vec [NaN]).
Proof.
  destruct (@constant_data_forward (mkTensor [] [Fin 7]) 1 7)
    as [s [Hu [_ Hf]]]; [lia | reflexivity |].
  exists s. split; [exact Hu | exact Hf].
Qed.

End ZmuvDataset.

(* ===================================================================== *)
(** * [ZmuvTransform.update] with a mask *)
(* ===================================================================== *)

Module ZmuvMask.

Import Zmuv ZmuvProps.

Lemma rows_concat {A : Type} (n k : nat) (l : list A) :
  length l = n * k -> concat (rows n k l) = l.
Proof.
  revert l. induction n as [|n IH]; intros l Hlen; cbn [rows concat].
  - destruct l; [reflexivity | discriminate].
  - rewrite IH; [apply firstn_skipn|]. rewrite length_skipn. lia.
Qed.

Lemma rows_lengths {A : Type} (n k : nat) (l : list A) :
  length l = n * k -> Forall (fun r => length r = k) (rows n k l).
Proof.
  revert l. induction n as [|n IH]; intros l Hlen; cbn [rows]; constructor.
  - rewrite length_firstn. lia.
  - apply IH. rewrite length_skipn. lia.
Qed.

(** Expanding a tensor to its own shape changes nothing. *)
Lemma expand_same {A : Type} (sh : list nat) (l : list A) :
  length l = shape_prod sh -> expand sh sh l = l.
Proof.
  revert l. induction sh as [|d sh IH]; intros l Hlen; [reflexivity|].
  cbn [expand]. rewrite Nat.eqb_refl.
  cbn [shape_prod fold_right] in Hlen. fold (shape_prod sh) in Hlen.
  rewrite <- (rows_concat d (shape_prod sh) l Hlen) at 2.
  f_equal. rewrite <- (map_id (rows d (shape_prod sh) l)) at 2.
  apply map_ext_in. intros r Hr.
  pose proof (rows_lengths d (shape_prod sh) l Hlen) as Hall.
  rewrite Forall_forall in Hall. apply IH. exact (Hall r Hr).
Qed.

Lemma broadcast_dims_same (sh : list nat) : broadcast_dims sh sh = Some sh.
Proof.
  induction sh as [|d sh IH]; [reflexivity|].
  cbn [broadcast_dims]. rewrite IH, Nat.eqb_refl. reflexivity.
Qed.

Lemma pad_shape_same (sh : list nat) : pad_shape (length sh) sh = sh.
Proof. unfold pad_shape. rewrite Nat.sub_diag. reflexivity. Qed.

(** The product of two tensors of one shape is taken element by element. *)
Lemma tmul_same_shape (sh : list nat) (a b : list xreal) :
  length a = shape_prod sh -> length b = shape_prod sh ->
  tmul (mkTensor sh a) (mkTensor sh b) = Ok (mkTensor sh (map2 xmul a b)).
Proof.
  intros Ha Hb. unfold tmul, broadcast_shapes. cbn [shape flat].
  rewrite Nat.max_id, pad_shape_same, broadcast_dims_same, pad_shape_same.
  rewrite !expand_same by assumption. reflexivity.
Qed.

Local Open Scope R_scope.

(** A mask of zeros and ones. *)
Definition mask_element (b : bool) : xreal := if b then Fin 1 else Fin 0.

Definition mask_tensor (sh : list nat) (bs : list bool) : tensor :=
  mkTensor sh (map mask_element bs).

(** The numbers that a mask selects. *)
Fixpoint select (xs : list R) (bs : list bool) : list R :=
  match xs, bs with
  | x :: xs', b :: bs' => if b then x :: select xs' bs' else select xs' bs'
  | _, _ => []
  end.

Definition masked (xs : list R) (bs : list bool) : list R :=
  map2 (fun x (b : bool) => x * (if b then 1 else 0)) xs bs.

Lemma map2_xmul_mask (xs : list R) (bs : list bool) :
  map2 xmul (map Fin xs) (map mask_element bs) = map Fin (masked xs bs).
Proof.
  revert bs. induction xs as [|x xs IH]; intros [|b bs]; try reflexivity.
  cbn [map map2 masked]. fold (masked xs bs). rewrite IH.
  destruct b; reflexivity.
Qed.

Lemma rsum_masked (xs : list R) (bs : list bool) :
  rsum (masked xs bs) = rsum (select xs bs).
Proof.
  revert bs. induction xs as [|x xs IH]; intros [|b bs]; try reflexivity.
  cbn [masked map2 select rsum]. fold (masked xs bs).
  destruct b; cbn [rsum]; rewrite IH; ring.
Qed.

Lemma rsum_squares_masked (xs : list R) (bs : list bool) :
  rsum (squares (masked xs bs)) = rsum (squares (select xs bs)).
Proof.
  revert bs. induction xs as [|x xs IH]; intros [|b bs]; try reflexivity.
  cbn [masked map2 select]. fold (masked xs bs).
  destruct b.
  - change (squares (x :: select xs bs)) with (x * x :: squares (select xs bs)).
    change (squares (x * 1 :: masked xs bs))
      with (x * 1 * (x * 1) :: squares (masked xs bs)).
    cbn [rsum]. rewrite IH. ring.
  - change (squares (x * 0 :: masked xs bs))
      with (x * 0 * (x * 0) :: squares (masked xs bs)).
    cbn [rsum]. rewrite IH. ring.
Qed.

Lemma mask_sum (xs : list R) (bs : list bool) :
  length xs = length bs ->
  xsum (map mask_element bs) = Fin (INR (length (select xs bs))).
Proof.
  intros Hlen.
  replace (map mask_element bs)
    with (map Fin (map (fun b : bool => if b then 1 else 0) bs))
    by (rewrite map_map; apply map_ext; intros []; reflexivity).
  rewrite xsum_fin. f_equal.
  revert bs Hlen. induction xs as [|x xs IH]; intros [|b bs] Hlen;
    try discriminate; [reflexivity|].
  cbn [map rsum select]. injection Hlen as Hlen.
  rewrite (IH bs Hlen). destruct b.
  - cbn [length]. rewrite S_INR. ring.
  - ring.
Qed.

(** For data of real numbers, in exact arithmetic: an [update] with a
    mask of zeros and ones, of the shape of the data, is the unmasked
    [update] with the selected numbers. This holds from any statistics.
    It is a property of real-valued data only: the mask multiplies, so an
    unselected [nan] or infinity is not removed (see
    [masked_update_keeps_nan]). *)
Theorem masked_update_selects
        (s : zmuv) (sh : list nat) (xs : list R) (bs : list bool) :
  length xs = shape_prod sh -> length bs = shape_prod sh ->
  update s (mkTensor sh (map Fin xs)) (Some (mask_tensor sh bs))
  = update s (vec (map Fin (select xs bs))) None.
Proof.
  intros Hx Hb. unfold update, mask_tensor.
  rewrite tmul_same_shape by (rewrite length_map; assumption).
  cbn [Py.bind]. unfold tsum, tsqr, numel, vec. cbn [flat shape].
  rewrite map2_xmul_mask, !map_xsqr_fin, !xsum_fin.
  rewrite rsum_masked, rsum_squares_masked.
  rewrite (@mask_sum xs bs) by lia.
  rewrite length_map. reflexivity.
Qed.

Lemma masked_update_selects_witness :
  update init (mkTensor [2; 2]%nat (map Fin [1; 2; 3; 4]))
         (Some (mask_tensor [2; 2]%nat [true; false; false; true]))
  = update init (vec (map Fin (select [1; 2; 3; 4] [true; false; false; true])))
           None.
Proof.
  apply (@masked_update_selects init [2; 2]%nat [1; 2; 3; 4]
           [true; false; false; true]); reflexivity.
Defined.

(** The mask multiplies the data: a [nan] at an unselected position stays
    [nan] in [data * mask] and reaches both sums, where the unmasked
    update with the selected element alone gives real statistics. *)
Example masked_update_keeps_nan :
  (exists s,
      update init (vec [Fin 1; NaN]) (Some (mask_tensor [2%nat] [true; false]))
      = Ok s
      /\ mean s = NaN /\ mean2 s = NaN)
  /\ (exists s,
         update init (vec (map Fin (select [1] [true]))) None = Ok s
         /\ is_finite (mean s) /\ is_finite (mean2 s)).
Proof.
  split.
  - eexists. split; [reflexivity|]. split; reflexivity.
  - eexists. split; [reflexivity|]. cbn.
    destruct (Req_dec_T (0 + 1) 0) as [H|_]; [lra|]. split; exact I.
Qed.

(** A mask whose shape cannot be broadcast with the shape of the data is
    refused, and the statistics are not touched. *)
Example masked_update_mismatch :
  update init (vec [Fin 1; Fin 2]) (Some (vec [Fin 1; Fin 1; Fin 1]))
  = Raise RuntimeError.
Proof. reflexivity. Qed.

End ZmuvMask.

(* ===================================================================== *)
(** * Properties of [batchify] *)
(* ===================================================================== *)

Module BatchifyProps.

Import Transform.
Local Open Scope nat_scope.

(** The number of samples of a waveform. *)
Definition wave_len (ex : example) : nat := length (flat (audio_data ex)).

(** A waveform stored as a one-dimensional tensor. *)
Definition one_dimensional (ex : example) : Prop :=
  exists l, audio_data ex = vec l.

(** A one-dimensional waveform of a length other than one. *)
Definition paddable (ex : example) : Prop :=
  one_dimensional ex /\ wave_len ex <> 1.

Definition padded_row (m : nat) (ex : example) : list xreal :=
  flat (audio_data ex) ++ repeat (Fin 0%R) (m - wave_len ex).

(** ** Stable sorting *)

Section SortFacts.

Variable A : Type.
Variable key : A -> nat.

Lemma insert_desc_perm (x : A) (l : list A) :
  Permutation (insert_desc key Nat.ltb x l) (x :: l).
Proof.
  induction l as [|y l IH]; cbn [insert_desc]; [reflexivity|].
  destruct (key x <? key y); [|reflexivity].
  rewrite IH. apply perm_swap.
Qed.

Lemma sorted_desc_perm (l : list A) :
  Permutation (sorted_desc key Nat.ltb l) l.
Proof.
  induction l as [|x l IH]; cbn [sorted_desc fold_right]; [reflexivity|].
  fold (sorted_desc key Nat.ltb l).
  rewrite insert_desc_perm. constructor. exact IH.
Qed.

Definition descending (l : list A) : Prop :=
  StronglySorted (fun a b => key b <= key a) l.

Lemma insert_desc_sorted (x : A) (l : list A) :
  descending l -> descending (insert_desc key Nat.ltb x l).
Proof.
  unfold descending.
  induction 1 as [|y l Hl IH Hy]; cbn [insert_desc].
  - repeat constructor.
  - destruct (Nat.ltb_spec (key x) (key y)) as [Hlt|Hge].
    + constructor; [exact IH|].
      apply Forall_forall. intros z Hz.
      apply (Permutation_in _ (insert_desc_perm x l)) in Hz.
      destruct Hz as [<-|Hz]; [lia|].
      rewrite Forall_forall in Hy. exact (Hy z Hz).
    + constructor; [constructor; assumption|].
      constructor; [exact Hge|].
      rewrite Forall_forall in Hy |- *. intros z Hz.
      specialize (Hy z Hz). lia.
Qed.

Lemma sorted_desc_sorted (l : list A) : descending (sorted_desc key Nat.ltb l).
Proof.
  induction l as [|x l IH]; cbn [sorted_desc fold_right].
  - constructor.
  - apply insert_desc_sorted. exact IH.
Qed.

(** Sorting the pairs [(key x, x)] on their first component sorts the
    [x] on [key]. *)
Definition keyed (x : A) : nat * A := (key x, x).

Lemma insert_desc_keyed (x : A) (l : list A) :
  insert_desc fst Nat.ltb (keyed x) (map keyed l)
  = map keyed (insert_desc key Nat.ltb x l).
Proof.
  induction l as [|y l IH]; cbn [insert_desc map]; [reflexivity|].
  cbn [keyed fst]. destruct (key x <? key y); [|reflexivity].
  cbn [map]. f_equal. exact IH.
Qed.

Lemma sorted_desc_keyed (l : list A) :
  map snd (sorted_desc fst Nat.ltb (map keyed l)) = sorted_desc key Nat.ltb l.
Proof.
  assert (H : sorted_desc fst Nat.ltb (map keyed l)
              = map keyed (sorted_desc key Nat.ltb l)).
  { induction l as [|x l IH]; cbn [sorted_desc fold_right map]; [reflexivity|].
    fold (sorted_desc fst Nat.ltb (map keyed l)).
    fold (sorted_desc key Nat.ltb l).
    rewrite IH. apply insert_desc_keyed. }
  rewrite H, map_map. cbn. apply map_id.
Qed.

End SortFacts.

(** ** The steps of the assembly on one-dimensional waveforms *)

Lemma audio_size_1d (ex : example) :
one_dimensional ex -> audio_size ex = Ok (wave_len ex).
Proof. intros [l H]. unfold audio_size, wave_len. rewrite H. reflexivity. Qed.

Lemma mapM_ok {A B : Type} (f : A -> pyres B) (g : A -> B) (l : list A) :
Forall (fun x => f x = Ok (g x)) l -> mapM f l = Ok (map g l).
Proof.
induction 1 as [|x l Hx _ IH]; cbn [mapM map]; [reflexivity|].
rewrite Hx, IH. reflexivity.
Qed.

Lemma sort_by_size_1d (examples : list example) :
Forall one_dimensional examples ->
sort_by_size (fun ex => ex) examples
= Ok (sorted_desc wave_len Nat.ltb examples).
Proof.
intros H. unfold sort_by_size.
rewrite (@mapM_ok _ _ _ (keyed wave_len)).
- cbn [Py.bind]. rewrite sorted_desc_keyed. reflexivity.
- eapply Forall_impl; [|exact H].
  intros ex Hex. cbn beta. rewrite (audio_size_1d Hex). reflexivity.
Qed.

Lemma fold_max_ge (l : list nat) (x : nat) :
x <= fold_left Nat.max l x /\ Forall (fun y => y <= fold_left Nat.max l x) l.
Proof.
revert x. induction l as [|y l IH]; intros x; cbn [fold_left].
- split; [lia | constructor].
- destruct (IH (Nat.max x y)) as [H1 H2]. split; [lia|].
  constructor; [lia | exact H2].
Qed.

Lemma fold_max_in (l : list nat) (x : nat) : In (fold_left Nat.max l x) (x :: l).
Proof.
revert x. induction l as [|y l IH]; intros x; cbn [fold_left].
- left. reflexivity.
- destruct (IH (Nat.max x y)) as [H|H].
  + destruct (Nat.max_spec x y) as [[_ Hm]|[_ Hm]]; rewrite Hm in H |- *.
    * right. left. exact H.
    * left. exact H.
  + right. right. exact H.
Qed.

Lemma py_max_spec (l : list nat) :
l <> [] ->
exists m, py_max l = Ok m /\ In m l /\ Forall (fun y => y <= m) l.
Proof.
destruct l as [|x l]; [congruence|]. intros _.
exists (fold_left Nat.max l x). split; [reflexivity|].
split; [apply fold_max_in|].
destruct (fold_max_ge l x) as [H1 H2]. constructor; assumption.
Qed.

Lemma squeeze_vec (l : list xreal) : length l <> 1 -> squeeze (vec l) = vec l.
Proof.
intros H. unfold squeeze, vec. cbn [shape flat filter].
destruct (Nat.eqb_spec (length l) 1); [contradiction | reflexivity].
Qed.

Lemma pad_to_paddable (m : nat) (ex : example) :
paddable ex -> pad_to m ex = Ok (vec (padded_row m ex)).
Proof.
intros [H1d Hlen]. unfold pad_to. rewrite (audio_size_1d H1d).
destruct H1d as [l Hl]. unfold padded_row, wave_len in *.
rewrite Hl in *. cbn [flat vec] in *. cbn [Py.bind].
rewrite squeeze_vec by exact Hlen. unfold zeros. apply cat_last_vec.
Qed.

Lemma stack_rows (m : nat) (rws : list (list xreal)) :
rws <> [] -> Forall (fun r => length r = m) rws ->
stack (map vec rws) = Ok (mkTensor [length rws; m] (concat rws)).
Proof.
intros Hne Hall. destruct rws as [|r rws]; [congruence|].
unfold stack. cbn [map].
inversion Hall as [|? ? Hr Hrest]; subst.
assert (Hshapes : forallb (fun u => shape_eqb (shape u) (shape (vec r)))
                          (map vec rws) = true).
{ apply forallb_forall. intros u Hu. apply in_map_iff in Hu.
  destruct Hu as [r' [<- Hr']]. rewrite Forall_forall in Hrest.
  unfold shape_eqb, vec. cbn [shape]. rewrite (Hrest r' Hr').
  destruct (list_eq_dec Nat.eq_dec _ _); congruence. }
rewrite Hshapes. f_equal. f_equal.
- cbn [length shape vec]. rewrite length_map. reflexivity.
- change (vec r :: map vec rws) with (map vec (r :: rws)).
  rewrite map_map. cbn [flat vec]. rewrite map_id. reflexivity.
Qed.


(** ** [batchify] on waveforms that can be padded *)

(** For a non-empty sequence of one-dimensional waveforms none of which
    has exactly one sample, [batchify] returns the batch that the
    specification describes: the examples sorted by length, longest first
    and stably; each waveform followed by zeros up to the longest length
    [m]; the rows stacked into a tensor of shape [(n, m)]; no labels; the
    lengths before padding in the sorted order. *)
Theorem batchify_of_paddable (examples : list example) :
  examples <> [] -> Forall paddable examples ->
  let sorted := sorted_desc wave_len Nat.ltb examples in
  exists m,
    batchify examples
    = Ok (mkBatch (mkTensor [length examples; m]
                            (concat (map (padded_row m) sorted)))
                  None (map wave_len sorted))
    /\ Permutation sorted examples
    /\ descending wave_len sorted
    /\ In m (map wave_len examples)
    /\ Forall (fun ex => wave_len ex <= m) examples
    /\ Forall (fun ex => length (padded_row m ex) = m) sorted.
Proof.
  intros Hne Hall sorted.
  pose proof (sorted_desc_perm wave_len examples) as Hperm. fold sorted in Hperm.
  assert (Hall' : Forall paddable sorted).
  { rewrite Forall_forall in Hall |- *. intros ex Hex.
    apply Hall. exact (Permutation_in _ Hperm Hex). }
  assert (Hsne : map wave_len sorted <> []).
  { intros H. apply map_eq_nil in H. rewrite H in Hperm.
    apply Permutation_nil in Hperm. contradiction. }
  destruct (py_max_spec Hsne) as [m [Hmax [Hin Hle]]].
  assert (Hle' : Forall (fun ex => wave_len ex <= m) sorted).
  { rewrite Forall_forall in Hle |- *. intros ex Hex.
    apply Hle. apply in_map. exact Hex. }
  assert (Hrows : Forall (fun ex => length (padded_row m ex) = m) sorted).
  { eapply Forall_impl; [|exact Hle']. intros ex Hex. cbn beta in *.
    unfold padded_row. rewrite length_app, repeat_length.
    unfold wave_len in *. lia. }
  exists m. repeat split.
  - unfold batchify, assemble.
    rewrite sort_by_size_1d
      by (eapply Forall_impl; [|exact Hall]; intros ex Hex; exact (proj1 Hex)).
    cbn [Py.bind]. fold sorted.
    rewrite (@mapM_ok _ _ _ wave_len)
      by (eapply Forall_impl; [|exact Hall']; intros ex Hex;
          exact (audio_size_1d (proj1 Hex))).
    cbn [Py.bind]. rewrite Hmax. cbn [Py.bind].
    rewrite (@mapM_ok _ _ _ (fun ex => vec (padded_row m ex)))
      by (eapply Forall_impl; [|exact Hall']; intros ex Hex;
          exact (pad_to_paddable m Hex)).
    cbn [Py.bind].
    rewrite <- (map_map (padded_row m) vec).
    rewrite stack_rows with (m := m).
    + cbn [Py.bind]. rewrite length_map, (Permutation_length Hperm). reflexivity.
    + intros H. apply map_eq_nil in H. rewrite H in Hsne. apply Hsne. reflexivity.
    + apply Forall_map. exact Hrows.
  - exact Hperm.
  - apply sorted_desc_sorted.
  - apply in_map_iff in Hin. destruct Hin as [ex [Hex Hin]].
    apply in_map_iff. exists ex. split; [exact Hex|].
    exact (Permutation_in _ Hperm Hin).
  - rewrite Forall_forall in Hle' |- *. intros ex Hex.
    apply Hle'. exact (Permutation_in _ (Permutation_sym Hperm) Hex).
  - exact Hrows.
Qed.

(** A clip of [n] samples, all equal to [1], without labels. *)
Definition clip (n : nat) : example := mkExample (vec (repeat (Fin 1%R) n)) [].

Definition one : xreal := Fin 1%R.
Definition zero : xreal := Fin 0%R.

(** The example of the specification: lengths 5, 3 and 8. *)
Example batchify_5_3_8 :
  batchify [clip 5; clip 3; clip 8]
  = Ok (mkBatch
          (mkTensor [3; 8]
             [one; one; one; one; one; one; one; one;
              one; one; one; one; one; zero; zero; zero;
              one; one; one; zero; zero; zero; zero; zero])
          None [8; 5; 3]).
Proof. reflexivity. Qed.

(** ** [batchify] on a waveform of one sample *)

(** C8 fails on the code for a waveform of exactly one sample:
    [squeeze()] turns the tensor of shape [(1,)] into a zero-dimensional
    tensor, which [torch.cat] refuses, so [batchify] raises instead of
    returning a batch with lengths [[1]]. *)
Theorem batchify_one_sample_raises (x : xreal) (labels : list (Z * Z)) :
  batchify [mkExample (vec [x]) labels] = Raise RuntimeError.
Proof. reflexivity. Qed.

(** The same with a longer clip in the batch. *)
Example batchify_1_3_raises : batchify [clip 1; clip 3] = Raise RuntimeError.
Proof. reflexivity. Qed.

End BatchifyProps.

(* ===================================================================== *)
(** * Properties of [WakeWordBatchifier] *)
(* ===================================================================== *)

Module BatchifierProps.

Import Transform Random.
Local Open Scope Z_scope.

(** A window [w] lies inside an interval [iv]. *)
Definition inside (w iv : Z * Z) : Prop := fst iv <= fst w /\ snd w <= snd iv.

(** ** The window cut from a wide interval *)

(** For an interval [(a, b)] wider than [window_size_ms], with
    [b >= window_size_ms], the window starts somewhere in
    [[0, b - window_size_ms]], is [window_size_ms] wide and ends at or
    before [b]. Its start is drawn from 0, not from [a]. *)
Lemma negative_window_range (self : WakeWordBatchifier) (a b : Z) (g : rng) :
  window_size_ms self < b - a -> 0 <= b - window_size_ms self ->
  exists a' g',
    negative_window self (a, b) g = Ok ((a', a' + window_size_ms self), g')
    /\ 0 <= a' <= b - window_size_ms self.
Proof.
  intros Hwide Hpos. unfold negative_window.
  destruct (Z.ltb_spec (window_size_ms self) (b - a)) as [_|H]; [|lia].
  unfold Random.bind, randint.
  destruct (Z.ltb_spec (b - window_size_ms self) 0) as [H|_]; [lia|].
  destruct (next g) as [r g'] eqn:Hnext.
  eexists _, _. split; [reflexivity|].
  pose proof (Z.mod_pos_bound r (b - window_size_ms self - 0 + 1)). lia.
Qed.

(** Every start in that range is drawn by some generator, the start 0
    included, whatever the interval's own start [a]. *)
Lemma negative_window_any_start (self : WakeWordBatchifier) (a b a' : Z) :
  window_size_ms self < b - a -> 0 <= a' <= b - window_size_ms self ->
  exists g g',
    negative_window self (a, b) g = Ok ((a', a' + window_size_ms self), g').
Proof.
  intros Hwide Hrange. exists (mkRng (fun _ => a') 0). eexists.
  unfold negative_window.
  destruct (Z.ltb_spec (window_size_ms self) (b - a)) as [_|H]; [|lia].
  unfold Random.bind, randint.
  destruct (Z.ltb_spec (b - window_size_ms self) 0) as [H|_]; [lia|].
  cbn [next draws pos]. unfold ret.
  rewrite Z.mod_small by lia. reflexivity.
Qed.

(** ** A labelled clip whose negative window leaves its interval *)

(** Two seconds of audio at 16 kHz with one entry in [frame_labels]:
    end timestamp 500 ms, label 1. *)
Definition labelled_clip : example :=
  mkExample (full [Z.to_nat 32000] (Fin 0%R)) [(500, 1)].

Definition batchifier : WakeWordBatchifier := default_batchifier 0.

(** The generator whose raw draws are all 0. *)
Definition zero_draws : rng := mkRng (fun _ => 0) 0.

(** The first draw, for [random.random()], is above the probability of a
    positive sample; the others are 0. *)
Definition negative_draws : rng :=
  mkRng (fun i => match i with O => unit_denominator - 1 | _ => 0 end) 0.

Example labelled_clip_intervals :
  negative_intervals batchifier labelled_clip = Ok [(151, 2000)].
Proof. reflexivity. Qed.

(** C9 fails on the code. For [labelled_clip] the only negative interval
    is [(151, 2000)], wider than the 500 ms window; line 115 draws the new
    start with [random.randint(0, b - window_size_ms)], so the window
    [(0, 500)] is emitted, which starts before the interval does. The
    emitted pair carries [negative_label] and the waveform span
    [audio_data[..., 0:500]]. *)
Theorem negative_window_leaves_interval :
  exists g',
    negative_span batchifier labelled_clip zero_draws
    = Ok (((151, 2000), (0, 500)), g')
    /\ ~ inside (0, 500) (151, 2000)
    /\ negative_sample batchifier labelled_clip zero_draws
       = Ok ((negative_label batchifier,
              emplaced_audio_data labelled_clip (full [Z.to_nat 500] (Fin 0%R))), g')
    /\ sample batchifier labelled_clip negative_draws
       = Ok ((negative_label batchifier,
              emplaced_audio_data labelled_clip (full [Z.to_nat 500] (Fin 0%R))),
             mkRng (draws negative_draws) 3).
Proof.
  eexists. split; [reflexivity|]. split.
  - unfold inside. cbn. lia.
  - split.
    + vm_compute. reflexivity.
    + vm_compute. reflexivity.
Qed.

End BatchifierProps.

(* ===================================================================== *)
(** * Properties of [Composition] *)
(* ===================================================================== *)

Module CompositionProps.

Import Composition.

Section Stages.

Variable V : Type.

(** A pipeline made of two pipelines, the first of which is not empty,
    runs the first on the arguments and the second on its result; when
    the first raises, the second is not run. *)
Theorem forward_app (ms1 ms2 : list (stage V)) (args : list V) :
  ms1 <> [] ->
  forward (compose (ms1 ++ ms2)) args
  = Py.bind (forward (compose ms1) args)
            (fun v => forward (compose ms2) [v]).
Proof.
  unfold forward, compose. cbn [modules].
  revert args. induction ms1 as [|m ms1 IH]; intros args Hne; [congruence|].
  cbn [app run_stages]. destruct (run m args) as [v|e]; [|reflexivity].
  cbn [Py.bind]. destruct ms1 as [|m' ms1].
  - reflexivity.
  - apply IH. discriminate.
Qed.

(** A pipeline of plain functions of one argument applies them from left
    to right; with no stage at all it returns its argument. *)
Theorem forward_plain (fs : list (V -> V)) (x : V) :
  forward (compose (map (@plain V) fs)) [x]
  = Ok (fold_left (fun acc f => f acc) fs x).
Proof.
  unfold forward, compose. cbn [modules].
  revert x. induction fs as [|f fs IH]; intros x; [reflexivity|].
  cbn [map run_stages plain run unary_call Py.bind fold_left]. apply IH.
Qed.

(** [identity] and [IdentityTransform] may be put in any slot of a
    pipeline that is called with one argument, without changing what the
    pipeline returns. *)
Theorem identity_is_neutral (ms1 ms2 : list (stage V)) (x : V) (m : stage V) :
  m = identity V \/ m = IdentityTransform V ->
  forward (compose (ms1 ++ m :: ms2)) [x]
  = forward (compose (ms1 ++ ms2)) [x].
Proof.
  intros Hm. unfold forward, compose. cbn [modules].
  assert (Hrun : forall y, run m [y] = Ok y)
    by (intros y; destruct Hm as [-> | ->]; reflexivity).
  revert x. induction ms1 as [|m1 ms1 IH]; intros x.
  - cbn [app run_stages]. rewrite Hrun. cbn [Py.bind].
    destruct ms2; reflexivity.
  - cbn [app run_stages]. destruct (run m1 [x]) as [v|e]; [|reflexivity].
    cbn [Py.bind]. apply IH.
Qed.

(** Only the modules among the stages are registered, in their order. *)
Lemma registered_modules (ms : list (stage V)) :
  Forall (fun m => is_module m = true) (_module_list (compose ms))
  /\ forall m, In m ms -> is_module m = true -> In m (_module_list (compose ms)).
Proof.
  unfold compose. cbn [_module_list]. split.
  - apply Forall_forall. intros m Hm. apply filter_In in Hm. tauto.
  - intros m Hin Hmod. apply filter_In. tauto.
Qed.

End Stages.

(** [compose(f, g)(3) == 8] when [f] adds one and [g] doubles. *)
Example compose_add_double :
  forward (compose [plain (fun n => n + 1); plain (fun n => 2 * n)]) [3] = Ok 8.
Proof. reflexivity. Qed.

Lemma forward_app_witness :
  forward (compose ([plain (fun n => n + 1)] ++ [plain (fun n => 2 * n)])) [3]
  = Py.bind (forward (compose [plain (fun n => n + 1)]) [3])
            (fun v => forward (compose [plain (fun n => 2 * n)]) [v]).
Proof.
  apply (@forward_app nat [plain (fun n => n + 1)] [plain (fun n => 2 * n)] [3]).
  discriminate.
Defined.

Lemma identity_is_neutral_witness :
  forward (compose ([plain (fun n => n + 1)] ++ identity nat :: [plain (fun n => 2 * n)])) [3]
  = forward (compose ([plain (fun n => n + 1)] ++ [plain (fun n => 2 * n)])) [3].
Proof.
  apply (@identity_is_neutral nat [plain (fun n => n + 1)]
           [plain (fun n => 2 * n)] 3 (identity nat)).
  left. reflexivity.
Defined.

End CompositionProps.

(* ===================================================================== *)
(** * Properties of [random_slice] and of the unlabelled path *)
(* ===================================================================== *)

Module SliceProps.

Import Transform Random BatchifyProps.
Local Open Scope Z_scope.

Lemma slice_window {A : Type} (l : list A) (a w : Z) :
  0 <= a -> 0 <= w -> a + w <= Z.of_nat (length l) ->
  slice a (a + w) l = firstn (Z.to_nat w) (skipn (Z.to_nat a) l)
  /\ length (firstn (Z.to_nat w) (skipn (Z.to_nat a) l)) = Z.to_nat w
  /\ (slice_bound (length l) (a + w) - slice_bound (length l) a)%nat = Z.to_nat w.
Proof.
  intros Ha Hw Hle. unfold slice, slice_bound.
  destruct (Z.ltb_spec a 0) as [H|_]; [lia|].
  destruct (Z.ltb_spec (a + w) 0) as [H|_]; [lia|].
  rewrite !Z.max_l by lia. rewrite !Z.min_l by lia.
  replace (Z.to_nat (a + w) - Z.to_nat a)%nat with (Z.to_nat w) by lia.
  repeat split. rewrite length_firstn, length_skipn. lia.
Qed.

(** A window of a one-dimensional tensor that lies inside it. *)
Lemma slice_last_vec (l : list xreal) (a w : Z) :
  0 <= a -> 0 <= w -> a + w <= Z.of_nat (length l) ->
  slice_last a (a + w) (vec l)
  = Ok (vec (firstn (Z.to_nat w) (skipn (Z.to_nat a) l))).
Proof.
  intros Ha Hw Hle.
  destruct (slice_window l Ha Hw Hle) as [Hs [Hlen Hb]].
  unfold slice_last. cbn [vec shape last lead removelast app].
  rewrite TensorProps.rows_of_vec. cbn [map concat]. rewrite app_nil_r.
  rewrite Hs, Hb. unfold vec. rewrite Hlen. reflexivity.
Qed.

(** What [random_slice] makes of one example for the window [w]: the
    example itself when it is shorter than [w], and else a copy whose
    waveform is [w] consecutive samples of the original, starting at some
    offset [a] with [0 <= a <= length - w]. The labels are kept. *)
Definition sliced (w : Z) (ex ex' : example) : Prop :=
  frame_labels ex' = frame_labels ex
  /\ if Z.of_nat (wave_len ex) <? w then ex' = ex
     else exists a,
         0 <= a <= Z.of_nat (wave_len ex) - w
         /\ audio_data ex'
            = vec (firstn (Z.to_nat w) (skipn (Z.to_nat a) (flat (audio_data ex)))).

Lemma random_slice_one_sliced (w : Z) (ex : example) (g : rng) :
  0 <= w -> one_dimensional ex ->
  exists ex' g',
    random_slice_one w ex g = Ok (ex', g') /\ sliced w ex ex'.
Proof.
  intros Hw H1d. unfold random_slice_one, Random.bind at 1, lift at 1.
  rewrite (audio_size_1d H1d). destruct H1d as [l Hl].
  unfold sliced, wave_len. rewrite Hl. cbn [flat vec].
  destruct (Z.ltb_spec (Z.of_nat (length l)) w) as [Hlt|Hge].
  - exists ex, g. unfold ret. repeat split.
  - unfold Random.bind at 1, randint.
    destruct (Z.ltb_spec (Z.of_nat (length l) - w) 0) as [H|_]; [lia|].
    destruct (next g) as [r g'].
    set (a := 0 + r mod (Z.of_nat (length l) - w - 0 + 1)).
    assert (Ha : 0 <= a <= Z.of_nat (length l) - w).
    { unfold a. pose proof (Z.mod_pos_bound r (Z.of_nat (length l) - w - 0 + 1)).
      lia. }
    unfold Random.bind at 1, lift.
    rewrite slice_last_vec by lia. unfold ret.
    eexists _, _. split; [reflexivity|]. split; [reflexivity|].
    exists a. split; [exact Ha | reflexivity].
Qed.

(** [random_slice] returns one example for each example it gets, in the
    same order: every example shorter than the window unchanged, every
    other one cut to a window of exactly [max_window_size] consecutive
    samples that lies inside the original waveform. *)
Theorem random_slice_windows (examples : list example) (w : Z) (g : rng) :
  0 <= w -> Forall one_dimensional examples ->
  exists out g',
    random_slice examples w g = Ok (out, g') /\ Forall2 (sliced w) examples out.
Proof.
  intros Hw Hall. revert g. unfold random_slice.
  induction Hall as [|ex examples Hex _ IH]; intros g; cbn [for_each].
  - exists [], g. split; [reflexivity | constructor].
  - destruct (random_slice_one_sliced g Hw Hex) as [ex' [g1 [Hone Hs]]].
    destruct (IH g1) as [out [g2 [Hrest Hall']]].
    exists (ex' :: out), g2. unfold Random.bind at 1. rewrite Hone.
    unfold Random.bind at 1. rewrite Hrest. unfold ret.
    split; [reflexivity | constructor; assumption].
Qed.

Definition ramp : example :=
  mkExample (vec (map (fun n => Fin (INR n)) (seq 0 10))) [(300, 2)].

Definition short_clip : example :=
  mkExample (vec [Fin 1; Fin 2; Fin 3]%R) [].

Lemma random_slice_windows_witness :
  exists out g',
    random_slice [ramp; short_clip] 4 (mkRng (fun _ => 12) 0) = Ok (out, g')
    /\ Forall2 (sliced 4) [ramp; short_clip] out.
Proof.
  apply (@random_slice_windows [ramp; short_clip] 4 (mkRng (fun _ => 12) 0)).
  - lia.
  - repeat constructor; eexists; reflexivity.
Defined.

(** ** An example without labels *)

(** An example whose [frame_labels] is empty is always given
    [negative_label], with a window of [sample_rate * window_size_ms / 1000]
    samples cut by [random_slice], or its whole waveform when that is
    shorter. *)
Theorem unlabelled_is_negative (self : WakeWordBatchifier) (ex : example) (g : rng) :
  frame_labels ex = [] -> one_dimensional ex ->
  0 <= int_div (sample_rate self * window_size_ms self) 1000 ->
  exists ex' g',
    sample self ex g = Ok ((negative_label self, ex'), g')
    /\ sliced (int_div (sample_rate self * window_size_ms self) 1000) ex ex'.
Proof.
  intros Hlab H1d Hw. unfold sample. rewrite Hlab.
  destruct (@random_slice_one_sliced _ ex g Hw H1d) as [ex' [g' [Hone Hs]]].
  unfold Random.bind at 1, random_slice. cbn [for_each].
  unfold Random.bind at 1. rewrite Hone.
  unfold Random.bind, ret. exists ex', g'. split; [reflexivity | exact Hs].
Qed.

Lemma unlabelled_is_negative_witness :
  exists ex' g',
    sample (default_batchifier 0) short_clip (mkRng (fun _ => 5) 0)
    = Ok ((negative_label (default_batchifier 0), ex'), g')
    /\ sliced (int_div (sample_rate (default_batchifier 0)
                        * window_size_ms (default_batchifier 0)) 1000)
              short_clip ex'.
Proof.
  apply (@unlabelled_is_negative (default_batchifier 0) short_clip
           (mkRng (fun _ => 5) 0)).
  - reflexivity.
  - eexists. reflexivity.
  - cbv. discriminate.
Defined.

End SliceProps.

(* ===================================================================== *)
(** * The intervals and the labels of [WakeWordBatchifier] *)
(* ===================================================================== *)

Module IntervalProps.

Import Transform Random BatchifyProps.
Local Open Scope Z_scope.

(** ** Sorting by the start of an interval *)

Definition by_start (x y : Z * Z) : Prop := fst x <= fst y.

Lemma insert_asc_perm (x : Z * Z) (l : list (Z * Z)) :
  Permutation (insert_asc fst Z.ltb x l) (x :: l).
Proof.
  induction l as [|y l IH]; cbn [insert_asc]; [reflexivity|].
  destruct (fst y <? fst x); [|reflexivity].
  rewrite IH. apply perm_swap.
Qed.

Lemma sorted_asc_perm (l : list (Z * Z)) :
  Permutation (sorted_asc fst Z.ltb l) l.
Proof.
  induction l as [|x l IH]; cbn [sorted_asc fold_right]; [reflexivity|].
  fold (sorted_asc fst Z.ltb l). rewrite insert_asc_perm. constructor. exact IH.
Qed.

Lemma insert_asc_sorted (x : Z * Z) (l : list (Z * Z)) :
  StronglySorted by_start l -> StronglySorted by_start (insert_asc fst Z.ltb x l).
Proof.
  induction 1 as [|y l Hl IH Hy]; cbn [insert_asc].
  - repeat constructor.
  - destruct (Z.ltb_spec (fst y) (fst x)) as [Hlt|Hge].
    + constructor; [exact IH|].
      apply Forall_forall. intros z Hz.
      apply (Permutation_in _ (insert_asc_perm x l)) in Hz.
      destruct Hz as [<-|Hz]; [unfold by_start; lia|].
      rewrite Forall_forall in Hy. exact (Hy z Hz).
    + constructor; [constructor; assumption|].
      constructor; [exact Hge|].
      rewrite Forall_forall in Hy |- *. intros z Hz.
      specialize (Hy z Hz). unfold by_start in *. lia.
Qed.

Lemma sorted_asc_sorted (l : list (Z * Z)) :
  StronglySorted by_start (sorted_asc fst Z.ltb l).
Proof.
  induction l as [|x l IH]; cbn [sorted_asc fold_right].
  - constructor.
  - apply insert_asc_sorted. exact IH.
Qed.

(** ** The loop over the positive intervals *)

(** Two intervals that do not overlap. *)
Definition apart (n p : Z * Z) : Prop := snd p <= fst n \/ snd n <= fst p.

Section Gaps.

Variable self : WakeWordBatchifier.

(** An interval of the width that [positive_delta_ms] gives. *)
Definition around (p : Z * Z) : Prop :=
  snd p = fst p + 2 * positive_delta_ms self.

Lemma gaps_fold (todo done negs : list (Z * Z)) (last : Z) (b : option Z) :
  StronglySorted by_start todo ->
  (forall x y, In x done -> In y todo -> fst x <= fst y) ->
  (forall x, In x (done ++ todo) -> around x) ->
  (forall x, In x done -> snd x <= last) ->
  (forall n p, In n negs -> In p (done ++ todo) -> apart n p) ->
  (todo = [] -> b = Some last) ->
  exists negs' last',
    fold_left gaps_step todo (negs, last, b) = (negs', last', Some last')
    /\ (forall n p, In n negs' -> In p (done ++ todo) -> apart n p)
    /\ (forall x, In x (done ++ todo) -> snd x <= last')
    /\ (forall n, In n negs' ->
          In n negs
          \/ (fst n < snd n
              /\ (fst n = last \/ exists p, In p todo /\ fst n = snd p)))
    /\ (last' = last \/ exists p, In p todo /\ last' = snd p).
Proof.
  intros Hsorted. revert done negs last b.
  induction Hsorted as [|[a e] todo Hs IH Hhd];
    intros done negs last b Hord Har Hlast Hneg Hb.
  - exists negs, last. cbn [fold_left]. rewrite (Hb eq_refl).
    rewrite app_nil_r in *. repeat split; auto.
  - cbn [fold_left gaps_step].
    assert (He : e = a + 2 * positive_delta_ms self).
    { apply (Har (a, e)). apply in_or_app. right. left. reflexivity. }
    rewrite Forall_forall in Hhd.
    set (negs1 := if last <? a then negs ++ [(last, a)] else negs).
    assert (Hneg1 : forall n p, In n negs1 -> In p (done ++ (a, e) :: todo) -> apart n p).
    { intros n p Hn Hp. unfold negs1 in Hn.
      destruct (Z.ltb_spec last a) as [Hlt|Hge]; [|exact (Hneg n p Hn Hp)].
      apply in_app_or in Hn. destruct Hn as [Hn|[<-|[]]]; [exact (Hneg n p Hn Hp)|].
      unfold apart. cbn [fst snd].
      apply in_app_or in Hp. destruct Hp as [Hp|[<-|Hp]].
      - left. exact (Hlast p Hp).
      - right. cbn. lia.
      - right. exact (Hhd p Hp). }
    destruct (IH (done ++ [(a, e)]) negs1 e (Some e)) as [negs' [last' H]].
    + intros x y Hx Hy. apply in_app_or in Hx. destruct Hx as [Hx|[<-|[]]].
      * apply Hord; [exact Hx | right; exact Hy].
      * exact (Hhd y Hy).
    + intros x Hx. apply Har. rewrite <- app_assoc in Hx. exact Hx.
    + intros x Hx. apply in_app_or in Hx. destruct Hx as [Hx|[<-|[]]].
      * pose proof (Har x (in_or_app _ _ _ (or_introl Hx))) as Hax.
        pose proof (Hord x (a, e) Hx (or_introl eq_refl)) as Hxa.
        unfold around in Hax. cbn [fst] in Hxa. lia.
      * cbn. lia.
    + intros n p Hn Hp. rewrite <- app_assoc in Hp. exact (Hneg1 n p Hn Hp).
    + reflexivity.
    + destruct H as [Hfold [Hap [Hle [Hfrom Hl']]]].
      exists negs', last'. split; [exact Hfold|].
      rewrite <- app_assoc in Hap, Hle. cbn [app] in Hap, Hle.
      split; [exact Hap|]. split; [exact Hle|]. split.
      * intros n Hn. destruct (Hfrom n Hn) as [Hin|[Hpos Hst]].
        -- unfold negs1 in Hin. destruct (Z.ltb_spec last a) as [Hlt|Hge];
             [|left; exact Hin].
           apply in_app_or in Hin. destruct Hin as [Hin|[<-|[]]];
             [left; exact Hin|].
           right. cbn [fst snd]. split; [exact Hlt|]. left. reflexivity.
        -- right. split; [exact Hpos|]. right.
           destruct Hst as [Hst|[p [Hp Hst]]].
           ++ exists (a, e). split; [left; reflexivity | exact Hst].
           ++ exists p. split; [right; exact Hp | exact Hst].
      * right. destruct Hl' as [->|[p [Hp ->]]].
        -- exists (a, e). split; [left; reflexivity | reflexivity].
        -- exists p. split; [right; exact Hp | reflexivity].
Qed.

Lemma positive_intervals_spec (ex : example) (p : Z * Z) :
  In p (positive_intervals self ex)
  <-> exists kv, In kv (frame_labels ex)
                 /\ p = (snd kv - positive_delta_ms self,
                         snd kv + positive_delta_ms self).
Proof.
  unfold positive_intervals. split.
  - intros H. apply (Permutation_in _ (sorted_asc_perm _)) in H.
    apply in_map_iff in H. destruct H as [kv [<- Hkv]]. exists kv. auto.
  - intros [kv [Hkv ->]].
    apply (Permutation_in _ (Permutation_sym (sorted_asc_perm _))).
    apply in_map_iff. exists kv. auto.
Qed.

(** The loop run on the positive intervals of a labelled example. *)
Lemma gaps_from_start (ex : example) :
  frame_labels ex <> [] ->
  exists negs last,
    fold_left gaps_step (positive_intervals self ex) ([], 0, None)
    = (negs, last, Some last)
    /\ (forall n p, In n negs -> In p (positive_intervals self ex) -> apart n p)
    /\ (forall x, In x (positive_intervals self ex) -> snd x <= last)
    /\ (forall n, In n negs ->
          fst n < snd n
          /\ (fst n = 0 \/ exists p, In p (positive_intervals self ex)
                                      /\ fst n = snd p))
    /\ (last = 0 \/ exists p, In p (positive_intervals self ex) /\ last = snd p).
Proof.
  intros Hlab.
  assert (Hne : positive_intervals self ex <> []).
  { intros H. destruct (frame_labels ex) as [|kv l] eqn:Hfl; [congruence|].
    assert (Hin : In (snd kv - positive_delta_ms self, snd kv + positive_delta_ms self)
                     (positive_intervals self ex)).
    { apply positive_intervals_spec. exists kv. rewrite Hfl. split; [left|]; reflexivity. }
    rewrite H in Hin. contradiction. }
  destruct (@gaps_fold (positive_intervals self ex) [] [] 0 None)
    as [negs [last [Hfold [Hap [Hle [Hfrom Hlast]]]]]].
  - apply sorted_asc_sorted.
  - intros x y [].
  - intros x Hx. cbn [app] in Hx. apply positive_intervals_spec in Hx.
    destruct Hx as [kv [_ ->]]. unfold around. cbn [fst snd]. lia.
  - intros x [].
  - intros n p [].
  - intros H. contradiction.
  - cbn [app] in Hap, Hle. exists negs, last.
    split; [exact Hfold|]. split; [exact Hap|]. split; [exact Hle|].
    split; [|exact Hlast].
    intros n Hn. destruct (Hfrom n Hn) as [[]|H]. exact H.
Qed.

(** The negative intervals of a labelled example exist, and each starts
    at 0 or where a positive interval ends. *)
Lemma negative_intervals_starts (ex : example) :
  frame_labels ex <> [] -> shape (audio_data ex) <> [] ->
  exists ivs,
    negative_intervals self ex = Ok ivs
    /\ ivs <> []
    /\ (forall n, In n ivs ->
          fst n = 0 \/ exists p, In p (positive_intervals self ex) /\ fst n = snd p).
Proof.
  intros Hlab Hshape.
  destruct (gaps_from_start ex Hlab) as [negs [last [Hfold [_ [_ [Hfrom Hlast]]]]]].
  unfold negative_intervals. rewrite Hfold.
  unfold len. destruct (shape (audio_data ex)) as [|d sh]; [congruence|].
  cbn [Py.bind]. eexists. split; [reflexivity|].
  split; [intros H; apply app_eq_nil in H; destruct H; discriminate|].
  intros n Hn. apply in_app_or in Hn. destruct Hn as [Hn|[<-|[]]].
  - exact (proj2 (Hfrom n Hn)).
  - cbn [fst]. exact Hlast.
Qed.

(** For a labelled example, the negative intervals are never an empty
    list, none of them overlaps an interval of [positive_delta_ms] around a
    value of [frame_labels], every one before the last has a positive
    width, and every one starts at 0 or where a positive interval ends. *)
Theorem negative_intervals_avoid_positives (ex : example) :
  frame_labels ex <> [] -> shape (audio_data ex) <> [] ->
  exists ivs,
    negative_intervals self ex = Ok ivs
    /\ ivs <> []
    /\ (forall n p, In n ivs -> In p (positive_intervals self ex) -> apart n p)
    /\ (forall n, In n (removelast ivs) -> fst n < snd n)
    /\ (forall n, In n ivs ->
          fst n = 0 \/ exists p, In p (positive_intervals self ex) /\ fst n = snd p).
Proof.
  intros Hlab Hshape.
  destruct (gaps_from_start ex Hlab) as [negs [last [Hfold [Hap [Hle [Hfrom Hlast]]]]]].
  unfold negative_intervals. rewrite Hfold.
  unfold len. destruct (shape (audio_data ex)) as [|d sh]; [congruence|].
  cbn [Py.bind]. eexists. split; [reflexivity|].
  split; [intros H; apply app_eq_nil in H; destruct H; discriminate|].
  split; [|split].
  - intros n p Hn Hp. apply in_app_or in Hn.
    destruct Hn as [Hn|[<-|[]]]; [exact (Hap n p Hn Hp)|].
    left. cbn [fst]. exact (Hle p Hp).
  - intros n Hn. rewrite removelast_last in Hn. exact (proj1 (Hfrom n Hn)).
  - intros n Hn. apply in_app_or in Hn. destruct Hn as [Hn|[<-|[]]].
    + exact (proj2 (Hfrom n Hn)).
    + cbn [fst]. exact Hlast.
Qed.

End Gaps.

Lemma negative_intervals_avoid_positives_witness :
  exists ivs,
    negative_intervals BatchifierProps.batchifier BatchifierProps.labelled_clip = Ok ivs
    /\ ivs <> []
    /\ (forall n p, In n ivs ->
          In p (positive_intervals BatchifierProps.batchifier
                                   BatchifierProps.labelled_clip) -> apart n p)
    /\ (forall n, In n (removelast ivs) -> fst n < snd n)
    /\ (forall n, In n ivs ->
          fst n = 0
          \/ exists p, In p (positive_intervals BatchifierProps.batchifier
                                                BatchifierProps.labelled_clip)
                       /\ fst n = snd p).
Proof.
  apply (@negative_intervals_avoid_positives BatchifierProps.batchifier
           BatchifierProps.labelled_clip); discriminate.
Defined.

End IntervalProps.

(* ===================================================================== *)
(** * The pairs that [WakeWordBatchifier] emits *)
(* ===================================================================== *)

Module SampleProps.

Import Transform Random BatchifyProps IntervalProps.
Local Open Scope Z_scope.

Lemma choice_in {A : Type} (l : list A) (g : rng) :
  l <> [] ->
  exists x, choice l g = Ok (x, snd (next g)) /\ In x l.
Proof.
  intros Hne. destruct l as [|y l]; [congruence|].
  unfold choice. destruct (next g) as [r g'] eqn:Hn. cbn [snd].
  eexists. split; [reflexivity|].
  apply nth_In.
  pose proof (Z.mod_pos_bound r (Z.of_nat (length (y :: l)))
                ltac:(cbn [length]; lia)).
  lia.
Qed.

Lemma choice_ok_in {A : Type} (l : list A) (g g' : rng) (x : A) :
  choice l g = Ok (x, g') -> In x l.
Proof.
  intros H. destruct l as [|y l]; [discriminate|].
  destruct (@choice_in A (y :: l) g ltac:(discriminate)) as [x' [Hc Hin]].
  rewrite Hc in H. injection H as <- _. exact Hin.
Qed.

Lemma slice_last_ok (a b : Z) (t : tensor) :
  shape t <> [] -> exists w, slice_last a b t = Ok w.
Proof.
  intros H. unfold slice_last. destruct (shape t); [congruence|].
  eexists. reflexivity.
Qed.

(** ** The negative path *)

(** For a labelled example whose label values [v] all satisfy
    [v + positive_delta_ms >= 0], the negative path never fails: for every
    state of the generator it emits [negative_label] with a span
    [audio_data[..., a:b]] that starts at an offset [a >= 0], is at most
    [window_size_ms] wide and ends no later than the chosen negative
    interval does. A chosen interval that is not wider than the window is
    emitted as it is. *)
Theorem negative_sample_succeeds
        (self : WakeWordBatchifier) (ex : example) (g : rng) :
  frame_labels ex <> [] -> shape (audio_data ex) <> [] ->
  (forall kv, In kv (frame_labels ex) -> 0 <= snd kv + positive_delta_ms self) ->
  exists ivs iv a b w g',
    negative_intervals self ex = Ok ivs /\ In iv ivs
    /\ negative_span self ex g = Ok ((iv, (a, b)), g')
    /\ slice_last a b (audio_data ex) = Ok w
    /\ negative_sample self ex g
       = Ok ((negative_label self, emplaced_audio_data ex w), g')
    /\ 0 <= a /\ b - a <= window_size_ms self /\ b <= snd iv
    /\ (snd iv - fst iv <= window_size_ms self -> (a, b) = iv).
Proof.
  intros Hlab Hshape Hvals.
  destruct (@negative_intervals_starts self ex Hlab Hshape)
    as [ivs [Hivs [Hne Hstart]]].
  destruct (@choice_in _ ivs g Hne) as [[ia ib] [Hch Hin]].
  assert (Hia : 0 <= ia).
  { destruct (Hstart _ Hin) as [H0|[p [Hp Hst]]]; cbn [fst] in *; [lia|].
    apply positive_intervals_spec in Hp. destruct Hp as [kv [Hkv ->]].
    cbn [snd] in Hst. specialize (Hvals kv Hkv). lia. }
  assert (Hwin : exists a b g',
             negative_window self (ia, ib) (snd (next g)) = Ok ((a, b), g')
             /\ 0 <= a /\ b - a <= window_size_ms self /\ b <= ib
             /\ (ib - ia <= window_size_ms self -> (a, b) = (ia, ib))).
  { destruct (Z.ltb_spec (window_size_ms self) (ib - ia)) as [Hwide|Hnarrow].
    - destruct (@BatchifierProps.negative_window_range self ia ib (snd (next g)))
        as [a' [g' [Hw Hr]]]; [lia | lia |].
      exists a', (a' + window_size_ms self), g'.
      split; [exact Hw|]. split; [lia|]. split; [lia|]. split; [lia|].
      intros H. lia.
    - exists ia, ib, (snd (next g)). unfold negative_window.
      destruct (Z.ltb_spec (window_size_ms self) (ib - ia)) as [H|_]; [lia|].
      unfold ret. repeat split; lia. }
  destruct Hwin as [a [b [g' [Hw [Hnonneg [Hwidth [Hend Hsame]]]]]]].
  destruct (@slice_last_ok a b (audio_data ex) Hshape) as [w Hslice].
  assert (Hspan : negative_span self ex g = Ok (((ia, ib), (a, b)), g')).
  { unfold negative_span, Random.bind at 1, lift. rewrite Hivs.
    unfold Random.bind at 1. rewrite Hch.
    unfold Random.bind at 1. rewrite Hw. reflexivity. }
  exists ivs, (ia, ib), a, b, w, g'.
  split; [exact Hivs|]. split; [exact Hin|]. split; [exact Hspan|].
  split; [exact Hslice|]. split.
  - unfold negative_sample, Random.bind at 1. rewrite Hspan.
    unfold Random.bind at 1, lift. rewrite Hslice. reflexivity.
  - cbn [fst snd]. auto.
Qed.

Lemma negative_sample_succeeds_witness :
  exists ivs iv a b w g',
    negative_intervals BatchifierProps.batchifier BatchifierProps.labelled_clip
    = Ok ivs /\ In iv ivs
    /\ negative_span BatchifierProps.batchifier BatchifierProps.labelled_clip
                     BatchifierProps.zero_draws = Ok ((iv, (a, b)), g')
    /\ slice_last a b (audio_data BatchifierProps.labelled_clip) = Ok w
    /\ negative_sample BatchifierProps.batchifier BatchifierProps.labelled_clip
                       BatchifierProps.zero_draws
       = Ok ((negative_label BatchifierProps.batchifier,
              emplaced_audio_data BatchifierProps.labelled_clip w), g')
    /\ 0 <= a /\ b - a <= window_size_ms BatchifierProps.batchifier /\ b <= snd iv
    /\ (snd iv - fst iv <= window_size_ms BatchifierProps.batchifier -> (a, b) = iv).
Proof.
  apply (@negative_sample_succeeds BatchifierProps.batchifier
           BatchifierProps.labelled_clip BatchifierProps.zero_draws).
  - discriminate.
  - discriminate.
  - intros kv [<-|[]]. cbv. discriminate.
Defined.

(** ** Where a label comes from *)

Lemma negative_sample_label
      (self : WakeWordBatchifier) (ex ex' : example) (g g' : rng) (label : Z) :
  negative_sample self ex g = Ok ((label, ex'), g') ->
  label = negative_label self /\ frame_labels ex' = frame_labels ex.
Proof.
  unfold negative_sample, Random.bind at 1.
  destruct (negative_span self ex g) as [[[iv [a b]] g1]|e]; [|discriminate].
  unfold Random.bind, lift.
  destruct (slice_last a b (audio_data ex)) as [w|e]; [|discriminate].
  unfold ret. intros H. injection H as <- <- _. split; reflexivity.
Qed.

(** ** The span of a positive pair *)

(** Line 96 rounds twice before it truncates, so the end of the span can
    lie one sample before the exact product: for the end timestamp
    1001 ms at 16 kHz the code cuts [[8015:16015]], where
    [1001 * 16000 / 1000 = 16016]. *)
Example positive_span_1001 :
  positive_span BatchifierProps.batchifier 1001 = Ok (8015, 16015)
  /\ int_div (1001 * sample_rate BatchifierProps.batchifier) 1000 = 16016.
Proof. split; vm_compute; reflexivity. Qed.

(** The window of line 91, [int(sample_rate * window_size_ms / 1000)],
    is one division of an exact product. *)
Example window_samples_default :
  (q <- PyFloat.truediv (sample_rate BatchifierProps.batchifier
                         * window_size_ms BatchifierProps.batchifier) 1000 ;;
   PyFloat.to_int q)%py
  = Ok (int_div (sample_rate BatchifierProps.batchifier
                 * window_size_ms BatchifierProps.batchifier) 1000).
Proof. vm_compute. reflexivity. Qed.

Example positive_span_500 :
  positive_span BatchifierProps.batchifier 500 = Ok (0, 8000).
Proof. vm_compute. reflexivity. Qed.

(** A clip of 100 samples labelled at 1000 ms. *)
Definition short_labelled_clip : example :=
  mkExample (full [100%nat] (Fin 0%R)) [(1000, 1)].

(** The span [[8000:16000]] of that label lies past the end of the clip:
    its width is not 0, so the pair is emitted as a positive, with a
    waveform of no samples. *)
Example positive_past_the_end :
  positive_span BatchifierProps.batchifier 1000 = Ok (8000, 16000)
  /\ sample BatchifierProps.batchifier short_labelled_clip
            BatchifierProps.zero_draws
     = Ok ((1, emplaced_audio_data short_labelled_clip (vec [])),
           mkRng (fun _ => 0) 2).
Proof. split; vm_compute; reflexivity. Qed.

(** Whatever pair is emitted for an example, its labels are those of the
    example, and its label is [negative_label] or the label of an entry
    [(end_ms, label)] of [frame_labels]. In the second case the waveform
    is [audio_data[..., a:b]] for the span [(a, b)] that lines 96-97
    compute for [end_ms], and [b - a] is not 0: an entry whose span has
    width 0 is never emitted as a positive. The slice itself can still
    be empty, when [a] lies at or past the end of the waveform. *)
Theorem sample_label_provenance
        (self : WakeWordBatchifier) (ex ex' : example) (g g' : rng) (label : Z) :
  sample self ex g = Ok ((label, ex'), g') ->
  frame_labels ex' = frame_labels ex
  /\ (label = negative_label self
      \/ exists end_ms a b,
           In (end_ms, label) (frame_labels ex)
           /\ positive_span self end_ms = Ok (a, b)
           /\ b - a <> 0
           /\ slice_last a b (audio_data ex) = Ok (audio_data ex')).
Proof.
  unfold sample. destruct (frame_labels ex) as [|kv labels] eqn:Hfl.
  - unfold Random.bind at 1, random_slice. cbn [for_each].
    unfold Random.bind at 1.
    destruct (random_slice_one _ ex g) as [[ex1 g1]|e] eqn:Hone; [|discriminate].
    unfold Random.bind, ret. intros H. injection H as <- <- _.
    split; [|left; reflexivity].
    revert Hone. unfold random_slice_one, Random.bind at 1, lift at 1.
    destruct (audio_size ex) as [n|e]; [|discriminate].
    destruct (Z.of_nat n <? _).
    + unfold ret. intros H. injection H as <- _. exact Hfl.
    + unfold Random.bind at 1.
      destruct (randint _ _ g) as [[a g2]|e]; [|discriminate].
      unfold Random.bind, lift.
      destruct (slice_last _ _ _) as [w|e]; [|discriminate].
      unfold ret. intros H. injection H as <- _. exact Hfl.
  - rewrite <- Hfl. unfold Random.bind at 1, random.
    destruct (next g) as [r g1].
    destruct (positive_sample_prob self <? r mod unit_denominator).
    + intros H. apply negative_sample_label in H. destruct H as [-> H].
      split; [exact H | left; reflexivity].
    + unfold Random.bind at 1, positive_sample, Random.bind at 1.
      destruct (choice (frame_labels ex) g1) as [[[end_ms lab] g2]|e] eqn:Hch;
        [|discriminate].
      apply choice_ok_in in Hch.
      unfold Random.bind at 1, lift at 1.
      destruct (positive_span self end_ms) as [[a b]|e] eqn:Hspan; [|discriminate].
      destruct (Z.eqb_spec (b - a) 0) as [Hz|Hnz].
      * unfold ret at 1. intros H. apply negative_sample_label in H.
        destruct H as [-> H]. split; [exact H | left; reflexivity].
      * unfold Random.bind at 1, lift.
        destruct (slice_last _ _ (audio_data ex)) as [w|e] eqn:Hs; [|discriminate].
        unfold ret. intros H. injection H as <- <- _.
        split; [reflexivity|]. right. exists end_ms, a, b.
        split; [exact Hch|]. split; [exact Hspan|]. split; [exact Hnz | exact Hs].
Qed.

Lemma sample_label_provenance_witness :
  frame_labels (emplaced_audio_data BatchifierProps.labelled_clip
                                    (full [Z.to_nat 8000] (Fin 0%R)))
  = frame_labels BatchifierProps.labelled_clip
  /\ (1 = negative_label BatchifierProps.batchifier
      \/ exists end_ms a b,
           In (end_ms, 1) (frame_labels BatchifierProps.labelled_clip)
           /\ positive_span BatchifierProps.batchifier end_ms = Ok (a, b)
           /\ b - a <> 0
           /\ slice_last a b (audio_data BatchifierProps.labelled_clip)
              = Ok (audio_data (emplaced_audio_data BatchifierProps.labelled_clip
                                                    (full [Z.to_nat 8000] (Fin 0%R))))).
Proof.
  apply (@sample_label_provenance BatchifierProps.batchifier
           BatchifierProps.labelled_clip _ BatchifierProps.zero_draws
           (mkRng (fun _ => 0) 2) 1).
  vm_compute. reflexivity.
Defined.

End SampleProps.

(* ===================================================================== *)
(** * The batch of [WakeWordBatchifier.__call__] *)
(* ===================================================================== *)

Module CallProps.

Import Transform Random BatchifyProps SliceProps.
Local Open Scope nat_scope.

Section Assemble.

Variable A : Type.
Variable wave : A -> example.

Definition size_of (x : A) : nat := wave_len (wave x).

Lemma sort_by_size_wave (xs : list A) :
  Forall (fun x => one_dimensional (wave x)) xs ->
  sort_by_size wave xs = Ok (sorted_desc size_of Nat.ltb xs).
Proof.
  intros H. unfold sort_by_size.
  rewrite (@mapM_ok _ _ _ (keyed size_of)).
  - cbn [Py.bind]. rewrite sorted_desc_keyed. reflexivity.
  - eapply Forall_impl; [|exact H].
    intros x Hx. cbn beta. rewrite (audio_size_1d Hx). reflexivity.
Qed.

(** Lines 118-123 on pairs whose waveforms can be padded: the pairs are
    sorted as wholes, longest waveform first, and each waveform is padded
    to the longest length. *)
Lemma assemble_of_paddable (xs : list A) :
  xs <> [] -> Forall (fun x => paddable (wave x)) xs ->
  let sorted := sorted_desc size_of Nat.ltb xs in
  exists m,
    assemble wave xs
    = Ok (sorted,
          mkTensor [length xs; m]
                   (concat (map (fun x => padded_row m (wave x)) sorted)),
          map size_of sorted)
    /\ Permutation sorted xs
    /\ descending size_of sorted
    /\ In m (map size_of xs)
    /\ Forall (fun x => size_of x <= m) xs.
Proof.
  intros Hne Hall sorted.
  pose proof (sorted_desc_perm size_of xs) as Hperm. fold sorted in Hperm.
  assert (Hall' : Forall (fun x => paddable (wave x)) sorted).
  { rewrite Forall_forall in Hall |- *. intros x Hx.
    apply Hall. exact (Permutation_in _ Hperm Hx). }
  assert (Hsne : map size_of sorted <> []).
  { intros H. apply map_eq_nil in H. rewrite H in Hperm.
    apply Permutation_nil in Hperm. contradiction. }
  destruct (py_max_spec Hsne) as [m [Hmax [Hin Hle]]].
  assert (Hle' : Forall (fun x => size_of x <= m) sorted).
  { rewrite Forall_forall in Hle |- *. intros x Hx.
    apply Hle. apply in_map. exact Hx. }
  assert (Hrows : Forall (fun x => length (padded_row m (wave x)) = m) sorted).
  { eapply Forall_impl; [|exact Hle']. intros x Hx. cbn beta in *.
    unfold padded_row. rewrite length_app, repeat_length.
    unfold size_of, wave_len in *. lia. }
  exists m. repeat split.
  - unfold assemble.
    rewrite sort_by_size_wave
      by (eapply Forall_impl; [|exact Hall]; intros x Hx; exact (proj1 Hx)).
    cbn [Py.bind]. fold sorted.
    rewrite (@mapM_ok _ _ _ size_of)
      by (eapply Forall_impl; [|exact Hall']; intros x Hx;
          exact (audio_size_1d (proj1 Hx))).
    cbn [Py.bind]. rewrite Hmax. cbn [Py.bind].
    rewrite (@mapM_ok _ _ _ (fun x => vec (padded_row m (wave x))))
      by (eapply Forall_impl; [|exact Hall']; intros x Hx;
          exact (pad_to_paddable m Hx)).
    cbn [Py.bind].
    rewrite <- (map_map (fun x => padded_row m (wave x)) vec).
    rewrite stack_rows with (m := m).
    + cbn [Py.bind]. rewrite length_map, (Permutation_length Hperm). reflexivity.
    + intros H. apply map_eq_nil in H. rewrite H in Hsne. apply Hsne. reflexivity.
    + apply Forall_map. exact Hrows.
  - exact Hperm.
  - apply sorted_desc_sorted.
  - apply in_map_iff in Hin. destruct Hin as [x [Hx Hin]].
    apply in_map_iff. exists x. split; [exact Hx|].
    exact (Permutation_in _ Hperm Hin).
  - rewrite Forall_forall in Hle' |- *. intros x Hx.
    apply Hle'. exact (Permutation_in _ (Permutation_sym Hperm) Hx).
Qed.

End Assemble.

(** ** A batch of unlabelled examples *)

Section Unlabelled.

Variable self : WakeWordBatchifier.

(** The window of the unlabelled path, in samples. *)
Definition window_samples : Z :=
  int_div (sample_rate self * window_size_ms self) 1000.

(** A one-dimensional example without labels and with at least two
    samples. *)
Definition unlabelled (ex : example) : Prop :=
  frame_labels ex = [] /\ one_dimensional ex /\ 2 <= wave_len ex.

Lemma sliced_paddable (ex ex' : example) :
  (2 <= window_samples)%Z -> unlabelled ex -> sliced window_samples ex ex' ->
  paddable ex' /\ (Z.of_nat (wave_len ex') <= window_samples)%Z
  /\ wave_len ex' <= wave_len ex.
Proof.
  intros Hw [_ [H1d Hlen]] [_ Hs].
  destruct (Z.ltb_spec (Z.of_nat (wave_len ex)) window_samples) as [Hlt|Hge].
  - subst ex'. split; [split; [exact H1d | lia]|]. lia.
  - destruct Hs as [a [Ha Haudio]].
    assert (Hl : wave_len ex' = Z.to_nat window_samples).
    { unfold wave_len at 1. rewrite Haudio. cbn [flat vec].
      rewrite length_firstn, length_skipn. unfold wave_len in *. lia. }
    split; [split; [eexists; exact Haudio | lia]|]. lia.
Qed.

Lemma samples_of_unlabelled (examples : list example) (g : rng) :
  (2 <= window_samples)%Z -> Forall unlabelled examples ->
  exists pairs g',
    for_each (sample self) examples g = Ok (pairs, g')
    /\ length pairs = length examples
    /\ Forall (fun p => fst p = negative_label self
                        /\ paddable (snd p)
                        /\ (Z.of_nat (wave_len (snd p)) <= window_samples)%Z)
              pairs.
Proof.
  intros Hw Hall. revert g.
  induction Hall as [|ex examples Hex _ IH]; intros g; cbn [for_each].
  - exists [], g. repeat split. constructor.
  - destruct Hex as [Hlab [H1d Hlen]].
    destruct (@random_slice_one_sliced window_samples ex g ltac:(lia) H1d)
      as [ex' [g1 [Hone Hsl]]].
    assert (Hs : sample self ex g = Ok ((negative_label self, ex'), g1)).
    { unfold sample. rewrite Hlab.
      unfold Random.bind at 1, random_slice. cbn [for_each].
      unfold Random.bind at 1. fold window_samples. rewrite Hone. reflexivity. }
    destruct (IH g1) as [pairs [g2 [Hrest [Hlen' Hall']]]].
    exists ((negative_label self, ex') :: pairs), g2.
    unfold Random.bind at 1. rewrite Hs.
    unfold Random.bind at 1. rewrite Hrest. unfold ret.
    split; [reflexivity|]. split; [cbn [length]; lia|].
    constructor; [|exact Hall'].
    destruct (@sliced_paddable ex ex' Hw (conj Hlab (conj H1d Hlen)) Hsl)
      as [Hp [Hle _]].
    cbn [fst snd]. auto.
Qed.

(** A non-empty batch of unlabelled one-dimensional examples of at least
    two samples each, with a window of at least two samples: the call
    returns, for every state of the generator, a batch in which every label
    is [negative_label], the lengths are in descending order and none
    exceeds the window, and the audio has one row for each example, as
    long as the longest length. *)
Theorem call_unlabelled (examples : list example) (g : rng) :
  examples <> [] -> (2 <= window_samples)%Z -> Forall unlabelled examples ->
  exists batch g' m,
    call self examples g = Ok (batch, g')
    /\ batch_labels batch
       = Some (repeat (negative_label self) (length examples))
    /\ length (batch_lengths batch) = length examples
    /\ StronglySorted ge (batch_lengths batch)
    /\ Forall (fun n => (Z.of_nat n <= window_samples)%Z) (batch_lengths batch)
    /\ In m (batch_lengths batch)
    /\ Forall (fun n => n <= m) (batch_lengths batch)
    /\ shape (batch_audio batch) = [length examples; m].
Proof.
  intros Hne Hw Hall.
  destruct (@samples_of_unlabelled examples g Hw Hall)
    as [pairs [g' [Hpairs [Hlen Hprop]]]].
  assert (Hpne : pairs <> [])
    by (intros H; rewrite H in Hlen; destruct examples; [congruence | discriminate]).
  assert (Hpad : Forall (fun p => paddable (snd p)) pairs)
    by (eapply Forall_impl; [|exact Hprop]; intros p Hp; exact (proj1 (proj2 Hp))).
  destruct (@assemble_of_paddable _ snd pairs Hpne Hpad)
    as [m [Hasm [Hperm [Hdesc [Hin Hle]]]]].
  set (sorted := sorted_desc (size_of snd) Nat.ltb pairs) in *.
  assert (Hsorted : Forall (fun p => fst p = negative_label self
                        /\ paddable (snd p)
                        /\ (Z.of_nat (wave_len (snd p)) <= window_samples)%Z)
                      sorted).
  { rewrite Forall_forall in Hprop |- *. intros p Hp.
    apply Hprop. exact (Permutation_in _ Hperm Hp). }
  eexists _, g', m. split.
  - unfold call, Random.bind at 1. rewrite Hpairs.
    unfold Random.bind at 1, lift. rewrite Hasm. reflexivity.
  - cbn [batch_labels batch_lengths batch_audio shape].
    pose proof (Permutation_length Hperm) as Hpl.
    split; [|split; [|split; [|split; [|split; [|split]]]]].
    + f_equal. rewrite <- Hlen, <- Hpl. clear - Hsorted.
      induction Hsorted as [|p l [Hp _] _ IH]; [reflexivity|].
      cbn [map length repeat]. rewrite Hp, IH. reflexivity.
    + rewrite length_map. lia.
    + clear - Hdesc. unfold descending in Hdesc.
      induction Hdesc as [|p l _ IH Hp]; cbn [map]; constructor; [exact IH|].
      apply Forall_map. eapply Forall_impl; [|exact Hp].
      intros q Hq. unfold ge. exact Hq.
    + apply Forall_map. eapply Forall_impl; [|exact Hsorted].
      intros p Hp. unfold size_of. exact (proj2 (proj2 Hp)).
    + apply in_map_iff in Hin. destruct Hin as [p [Hp Hin]].
      apply in_map_iff. exists p. split; [exact Hp|].
      exact (Permutation_in _ (Permutation_sym Hperm) Hin).
    + apply Forall_map. rewrite Forall_forall in Hle |- *.
      intros p Hp. apply Hle. exact (Permutation_in _ Hperm Hp).
    + rewrite Hlen. reflexivity.
Qed.

End Unlabelled.

Lemma call_unlabelled_witness :
  exists batch g' m,
    call (default_batchifier 0) [short_clip; clip 5] (mkRng (fun _ => 9%Z) 0)
    = Ok (batch, g')
    /\ batch_labels batch
       = Some (repeat (negative_label (default_batchifier 0))
                      (length [short_clip; clip 5]))
    /\ length (batch_lengths batch) = length [short_clip; clip 5]
    /\ StronglySorted ge (batch_lengths batch)
    /\ Forall (fun n => (Z.of_nat n <= window_samples (default_batchifier 0))%Z)
              (batch_lengths batch)
    /\ In m (batch_lengths batch)
    /\ Forall (fun n => n <= m) (batch_lengths batch)
    /\ shape (batch_audio batch) = [length [short_clip; clip 5]; m].
Proof.
  apply (@call_unlabelled (default_batchifier 0) [short_clip; clip 5]
           (mkRng (fun _ => 9%Z) 0)).
  - discriminate.
  - cbv. discriminate.
  - repeat constructor; try (eexists; reflexivity); cbn; lia.
Defined.

(** ** An empty batch *)

(** Neither [batchify] nor the batchifier accepts an empty sequence of
    examples: [max] of no lengths raises [ValueError]. *)
Theorem empty_batch_raises (self : WakeWordBatchifier) (g : rng) :
  batchify [] = Raise ValueError /\ call self [] g = Raise ValueError.
Proof. split; reflexivity. Qed.

End CallProps.

(* ===================================================================== *)
(** * [batchify]: singleton dimensions *)
(* ===================================================================== *)

Module BatchifyShapes.

Import Transform BatchifyProps.
Local Open Scope nat_scope.

Lemma batchify_of_paddable_witness :
  let sorted := sorted_desc wave_len Nat.ltb [clip 5; clip 3; clip 8] in
  exists m,
    batchify [clip 5; clip 3; clip 8]
    = Ok (mkBatch (mkTensor [length [clip 5; clip 3; clip 8]; m]
                            (concat (map (padded_row m) sorted)))
                  None (map wave_len sorted))
    /\ Permutation sorted [clip 5; clip 3; clip 8]
    /\ descending wave_len sorted
    /\ In m (map wave_len [clip 5; clip 3; clip 8])
    /\ Forall (fun ex => wave_len ex <= m) [clip 5; clip 3; clip 8]
    /\ Forall (fun ex => length (padded_row m ex) = m) sorted.
Proof.
  apply (@batchify_of_paddable [clip 5; clip 3; clip 8]).
  - discriminate.
  - repeat constructor; try (eexists; reflexivity); cbn; lia.
Defined.

(** A mono waveform of [n <> 1] samples, stored with shape [(n,)] or with
    shape [(1, n)]. *)
Definition mono (ex : example) : Prop :=
  wave_len ex <> 1
  /\ (shape (audio_data ex) = [wave_len ex]
      \/ shape (audio_data ex) = [1; wave_len ex]).

(** The example with its waveform stored in one dimension. *)
Definition flattened (ex : example) : example :=
  emplaced_audio_data ex (vec (flat (audio_data ex))).

Lemma flattened_len (ex : example) : wave_len (flattened ex) = wave_len ex.
Proof. reflexivity. Qed.

Lemma mono_size (ex : example) : mono ex -> audio_size ex = Ok (wave_len ex).
Proof.
  intros [_ [H|H]]; unfold audio_size, size_last; rewrite H; reflexivity.
Qed.

Lemma mono_size_flattened (ex : example) :
  mono ex -> audio_size (flattened ex) = audio_size ex.
Proof.
  intros H. rewrite (mono_size H). reflexivity.
Qed.

Lemma mono_squeeze (ex : example) :
  mono ex -> squeeze (audio_data ex) = vec (flat (audio_data ex)).
Proof.
  intros [Hne Hsh]. unfold squeeze, vec. fold (wave_len ex).
  destruct Hsh as [H|H]; rewrite H; cbn [filter Nat.eqb negb];
    destruct (Nat.eqb_spec (wave_len ex) 1); try contradiction; reflexivity.
Qed.

Lemma mono_pad_to (m : nat) (ex : example) :
  mono ex -> pad_to m ex = pad_to m (flattened ex).
Proof.
  intros H. unfold pad_to.
  assert (Hf : mono (flattened ex)).
  { destruct H as [Hne _]. split; [exact Hne | left; reflexivity]. }
  rewrite (mono_size H), (mono_size Hf), (mono_squeeze H), (mono_squeeze Hf).
  reflexivity.
Qed.

Lemma insert_desc_map {A B : Type} (f : A -> B) (key : B -> nat) (x : A) (l : list A) :
  insert_desc key Nat.ltb (f x) (map f l)
  = map f (insert_desc (fun a => key (f a)) Nat.ltb x l).
Proof.
  induction l as [|y l IH]; cbn [insert_desc map]; [reflexivity|].
  destruct (key (f x) <? key (f y)); [|reflexivity].
  cbn [map]. f_equal. exact IH.
Qed.

Lemma sorted_desc_map {A B : Type} (f : A -> B) (key : B -> nat) (l : list A) :
  sorted_desc key Nat.ltb (map f l)
  = map f (sorted_desc (fun a => key (f a)) Nat.ltb l).
Proof.
  induction l as [|x l IH]; cbn [sorted_desc fold_right map]; [reflexivity|].
  fold (sorted_desc key Nat.ltb (map f l)).
  fold (sorted_desc (fun a => key (f a)) Nat.ltb l).
  rewrite IH. apply insert_desc_map.
Qed.

Lemma sort_by_size_sized (examples : list example) :
  Forall (fun ex => audio_size ex = Ok (wave_len ex)) examples ->
  sort_by_size (fun ex => ex) examples
  = Ok (sorted_desc wave_len Nat.ltb examples).
Proof.
  intros H. unfold sort_by_size.
  rewrite (@mapM_ok _ _ _ (keyed wave_len)).
  - cbn [Py.bind]. rewrite sorted_desc_keyed. reflexivity.
  - eapply Forall_impl; [|exact H].
    intros ex Hex. cbn beta. rewrite Hex. reflexivity.
Qed.

Lemma mapM_ext_in {A B : Type} (f g : A -> pyres B) (l : list A) :
  Forall (fun x => f x = g x) l -> mapM f l = mapM g l.
Proof.
  induction 1 as [|x l Hx _ IH]; cbn [mapM]; [reflexivity|].
  rewrite Hx, IH. reflexivity.
Qed.

Lemma mapM_map {A B C : Type} (f : B -> pyres C) (h : A -> B) (l : list A) :
  mapM f (map h l) = mapM (fun x => f (h x)) l.
Proof.
  induction l as [|x l IH]; cbn [mapM map]; [reflexivity|].
  rewrite IH. reflexivity.
Qed.

(** [batchify] does not see a leading dimension of size one: for mono
    waveforms of shape [(n,)] or [(1, n)], [n <> 1], it returns the batch
    that it returns for the same waveforms stored in one dimension. *)
Theorem batchify_ignores_leading_dimension (examples : list example) :
  Forall mono examples ->
  batchify examples = batchify (map flattened examples).
Proof.
  intros Hall.
  assert (Hflat : Forall mono (map flattened examples)).
  { apply Forall_map. eapply Forall_impl; [|exact Hall].
    intros ex [Hne _]. split; [exact Hne | left; reflexivity]. }
  set (sorted := sorted_desc wave_len Nat.ltb examples).
  assert (Hsorted : Forall mono sorted).
  { rewrite Forall_forall in Hall |- *. intros ex Hex. apply Hall.
    exact (Permutation_in _ (sorted_desc_perm wave_len examples) Hex). }
  unfold batchify, assemble.
  rewrite !sort_by_size_sized
    by (eapply Forall_impl; [|eassumption]; intros ex Hex; exact (mono_size Hex)).
  cbn [Py.bind].
  rewrite (sorted_desc_map flattened wave_len examples).
  change (fun a => wave_len (flattened a)) with wave_len. fold sorted.
  rewrite !mapM_map.
  rewrite (@mapM_ext_in _ _ (fun x => audio_size (flattened x)) audio_size sorted)
    by (eapply Forall_impl; [|exact Hsorted]; intros ex Hex; cbn beta;
        exact (mono_size_flattened Hex)).
  destruct (mapM audio_size sorted) as [lengths|e]; [|reflexivity].
  cbn [Py.bind]. destruct (py_max lengths) as [m|e]; [|reflexivity].
  cbn [Py.bind]. rewrite mapM_map.
  rewrite (@mapM_ext_in _ _ (fun x => pad_to m (flattened x))
             (fun x => pad_to m x) sorted)
    by (eapply Forall_impl; [|exact Hsorted]; intros ex Hex; cbn beta;
        symmetry; exact (mono_pad_to m Hex)).
  destruct (mapM (fun x => pad_to m x) sorted) as [rws|e]; [|reflexivity].
  cbn [Py.bind]. destruct (stack rws); reflexivity.
Qed.

(** A waveform of five samples stored as one row. *)
Definition row_clip : example :=
  mkExample (mkTensor [1; 5] (repeat (Fin 1%R) 5)) [].

Lemma batchify_ignores_leading_dimension_witness :
  batchify [row_clip; clip 3] = batchify (map flattened [row_clip; clip 3]).
Proof.
  apply (@batchify_ignores_leading_dimension [row_clip; clip 3]).
  constructor; [|constructor; [|constructor]].
  - split; [cbn; lia | right; reflexivity].
  - split; [cbn; lia | left; reflexivity].
Defined.

End BatchifyShapes.

(* ===================================================================== *)
(** * The sliding window of the clients *)
(* ===================================================================== *)

Module Window.

Local Open Scope nat_scope.

(** The length of the buffer after one more chunk, from its length
    before, and whether that chunk triggers an inference. *)
Definition fires (n : nat) : bool := S n =? 16.
Definition next_len (n : nat) : nat := if fires n then 14 else S n.

(** The buffer length and the number of inferences after [k] chunks,
    starting from a buffer of [n] chunks. *)
Fixpoint run (k n : nat) : nat * nat :=
  match k with
  | O => (n, 0)
  | S k' =>
      let (n', count) := run k' (next_len n) in
      (n', (if fires n then 1 else 0) + count)
  end.

Lemma run_snoc (k n : nat) :
  run (S k) n
  = let (n', count) := run k n in
    (next_len n', count + (if fires n' then 1 else 0)).
Proof.
  revert n. induction k as [|k IH]; intros n.
  - cbn [run]. f_equal. lia.
  - change (run (S (S k)) n)
      with (let (n', count) := run (S k) (next_len n) in
            (n', (if fires n then 1 else 0) + count)).
    rewrite IH. cbn [run].
    destruct (run k (next_len n)) as [n' count].
    f_equal. lia.
Qed.

(** From an empty buffer: the buffer grows to 15, the 16th chunk
    triggers the first inference and leaves 14, and from then on every
    second chunk triggers one. *)
Lemma run_from_empty (k : nat) :
  run k 0
  = (if k <? 16 then k else 14 + k mod 2,
     if k <? 16 then 0 else (k - 14) / 2).
Proof.
  induction k as [|k IH]; [reflexivity|].
  rewrite run_snoc, IH. clear IH.
  unfold next_len, fires.
  pose proof (Nat.div_mod_eq k 2) as Hk.
  pose proof (Nat.mod_upper_bound k 2 ltac:(lia)) as Hk2.
  pose proof (Nat.div_mod_eq (S k) 2) as HSk.
  pose proof (Nat.mod_upper_bound (S k) 2 ltac:(lia)) as HSk2.
  pose proof (Nat.div_mod_eq (k - 14) 2) as Hd.
  pose proof (Nat.mod_upper_bound (k - 14) 2 ltac:(lia)) as Hd2.
  pose proof (Nat.div_mod_eq (S k - 14) 2) as HSd.
  pose proof (Nat.mod_upper_bound (S k - 14) 2 ltac:(lia)) as HSd2.
  destruct (Nat.ltb_spec k 16) as [Hlt|Hge];
    destruct (Nat.ltb_spec (S k) 16) as [Hlt'|Hge']; try lia.
  - destruct (Nat.eqb_spec (S k) 16); [lia|]. f_equal; lia.
  - assert (k = 15) by lia. subst k. reflexivity.
  - destruct (Nat.eqb_spec (S (14 + k mod 2)) 16) as [He|He]; f_equal; lia.
Qed.

(** ** Sixteen-bit chunks *)

Definition even_chunk (d : bytes) : Prop := Nat.Even (length d).

Lemma frombuffer_even_length (n : nat) (data : bytes) :
  length data = 2 * n -> exists arr, frombuffer_int16 data = Ok arr.
Proof.
  revert data. induction n as [|n IH]; intros data Hlen.
  - destruct data; [|discriminate]. exists []. reflexivity.
  - destruct data as [|lo [|hi rest]]; cbn [length] in Hlen; try lia.
    destruct (IH rest ltac:(lia)) as [arr Harr].
    exists (int16 lo hi :: arr). cbn [frombuffer_int16]. rewrite Harr. reflexivity.
Qed.

Lemma concat_even (buf : list bytes) :
  Forall even_chunk buf -> Nat.Even (length (concat buf)).
Proof.
  induction 1 as [|d buf [k Hd] _ [m IH]]; cbn [concat].
  - exists 0. reflexivity.
  - exists (k + m). rewrite length_app. lia.
Qed.

Lemma frombuffer_window (buf : list bytes) :
  Forall even_chunk buf -> exists arr, frombuffer_int16 (concat buf) = Ok arr.
Proof.
  intros H. destruct (concat_even H) as [n Hn].
  exact (frombuffer_even_length n _ Hn).
Qed.

Lemma Forall_skipn {A : Type} (P : A -> Prop) (n : nat) (l : list A) :
  Forall P l -> Forall P (skipn n l).
Proof.
  intros H. rewrite Forall_forall in H |- *.
  intros x Hx. apply H. rewrite <- (firstn_skipn n l).
  apply in_or_app. right. exact Hx.
Qed.

Lemma infer_count_app (t1 t2 : list event) :
  infer_count (t1 ++ t2) = infer_count t1 + infer_count t2.
Proof. unfold infer_count. rewrite filter_app, length_app. reflexivity. Qed.

Lemma run_le (k n : nat) : fst (run k n) <= n + k.
Proof.
  revert n. induction k as [|k IH]; intros n; cbn [run]; [cbn; lia|].
  specialize (IH (next_len n)).
  destruct (run k (next_len n)) as [n' count]. cbn [fst] in *.
  assert (next_len n <= S n) 
    by (unfold next_len, fires; destruct (Nat.eqb_spec (S n) 16); lia).
  lia.
Qed.

(** The buffer after one more chunk [d]. *)
Definition next_buf (buf : list bytes) (d : bytes) : list bytes :=
  if fires (length buf) then skipn 2 (buf ++ [d]) else buf ++ [d].

Lemma next_buf_length (buf : list bytes) (d : bytes) :
  length (next_buf buf d) = next_len (length buf).
Proof.
  unfold next_buf, next_len, fires.
  destruct (Nat.eqb_spec (S (length buf)) 16) as [H|H].
  - rewrite length_skipn, length_app. cbn [length]. lia.
  - rewrite length_app. cbn [length]. lia.
Qed.

Lemma next_buf_even (buf : list bytes) (d : bytes) :
  Forall even_chunk buf -> even_chunk d -> Forall even_chunk (next_buf buf d).
Proof.
  intros Hb Hd.
  assert (H : Forall even_chunk (buf ++ [d]))
    by (apply Forall_app; split; [exact Hb | repeat constructor; exact Hd]).
  unfold next_buf. destruct (fires (length buf)); [apply Forall_skipn|]; exact H.
Qed.

(** ** A handler run over a delivery sequence

    What follows holds of any handler that treats its buffer and its
    inference calls as [next_buf] and [fires] say; both clients have such
    a handler. *)
Section Deliveries.

Variable State : Type.
Variable buf : State -> list bytes.
Variable count : State -> nat.
Variable ready : State -> Prop.
Variable step : bytes -> State -> State.
Variable deliver : list bytes -> State -> State.

Hypothesis deliver_nil : forall s, deliver [] s = s.
Hypothesis deliver_cons :
  forall d chunks s, deliver (d :: chunks) s = deliver chunks (step d s).
Hypothesis step_spec :
  forall s d,
    ready s -> Forall even_chunk (buf s) -> even_chunk d ->
    ready (step d s)
    /\ buf (step d s) = next_buf (buf s) d
    /\ count (step d s) = count s + (if fires (length (buf s)) then 1 else 0).

Lemma handler_deliveries (chunks : list bytes) (s : State) :
  ready s -> Forall even_chunk (buf s) -> Forall even_chunk chunks ->
  let k := length chunks in
  let n := length (buf s) in
  ready (deliver chunks s)
  /\ buf (deliver chunks s)
     = skipn (n + k - fst (run k n)) (buf s ++ chunks)
  /\ count (deliver chunks s) = count s + snd (run k n).
Proof.
  intros Hr Hb Hall. revert s Hr Hb.
  induction Hall as [|d chunks Hd _ IH]; intros s Hr Hb; cbn zeta.
  - rewrite deliver_nil. cbn [length run fst snd].
    rewrite Nat.add_0_r, Nat.sub_diag, app_nil_r. cbn [skipn].
    repeat split; [exact Hr | lia].
  - rewrite deliver_cons.
    destruct (step_spec Hr Hb Hd) as [Hr1 [Hb1 Hc1]].
    assert (Hb1' : Forall even_chunk (buf (step d s)))
      by (rewrite Hb1; apply next_buf_even; assumption).
    destruct (IH _ Hr1 Hb1') as [Hr2 [Hb2 Hc2]]. cbn zeta in Hb2, Hc2.
    rewrite Hb1, next_buf_length in Hb2, Hc2.
    pose proof (run_le (length chunks) (next_len (length (buf s)))) as Hle.
    cbn [length run].
    destruct (run (length chunks) (next_len (length (buf s)))) as [n' c'].
    cbn [fst snd] in *.
    split; [exact Hr2|]. split; [|lia].
    rewrite Hb2. unfold next_buf, next_len, fires in *.
    destruct (Nat.eqb_spec (S (length (buf s))) 16) as [H16|H16].
    + replace (skipn 2 (buf s ++ [d]) ++ chunks)
        with (skipn 2 (buf s ++ d :: chunks)).
      * rewrite skipn_skipn. f_equal. lia.
      * change (d :: chunks) with ([d] ++ chunks).
        rewrite app_assoc, (skipn_app 2 (buf s ++ [d])).
        rewrite length_app. cbn [length].
        replace (2 - (length (buf s) + 1)) with 0 by lia. reflexivity.
    + change (d :: chunks) with ([d] ++ chunks).
      rewrite app_assoc. f_equal. lia.
Qed.

End Deliveries.

End Window.

(* ===================================================================== *)
(** * Properties of [HowlClient] *)
(* ===================================================================== *)

Module HowlClientProps.

Import HowlClient Window.
Local Open Scope nat_scope.

Lemma extend_nil (w : world) : extend w [] = w.
Proof. destruct w. unfold extend. cbn. rewrite app_nil_r. reflexivity. Qed.

Lemma extend_extend (w : world) (e1 e2 : list event) :
  extend (extend w e1) e2 = extend w (e1 ++ e2).
Proof. unfold extend. cbn. rewrite app_assoc. reflexivity. Qed.

Section WithEngine.

Variable E : InferenceEngine.

Let state := HowlClient.state E.

(** ** The notification, lines 53-57 *)

Definition calls (ls : list nat) (seq : list Z) : list event :=
  map (fun lis => ListenerCall lis seq) ls.

Lemma for_each_listeners (ls : list nat) (seq : list Z) (s : state) :
  for_each (fun lis => effect (E:=E) (ListenerCall lis seq)) ls s
  = (Ok tt, (fst s, extend (snd s) (calls ls seq))).
Proof.
  revert s. induction ls as [|l ls IH]; intros [c w]; cbn [for_each].
  - unfold ret. cbn. rewrite extend_nil. reflexivity.
  - unfold bind, effect at 1. cbn [fst snd]. rewrite IH. cbn [fst snd].
    unfold emit. rewrite extend_extend. reflexivity.
Qed.

Lemma vocab_word_state (x : Z) (s : state) : snd (vocab_word (E:=E) x s) = s.
Proof.
  unfold vocab_word, bind, get, raise, lift. cbn.
  destruct (ctx (fst s)); reflexivity.
Qed.

Lemma phrase_words_state (seq : list Z) (s : state) :
  snd (mapM_ (vocab_word (E:=E)) seq s) = s.
Proof.
  induction seq as [|x seq IH]; cbn [mapM_]; [reflexivity|].
  unfold bind at 1. pose proof (vocab_word_state x s) as Hx.
  destruct (vocab_word x s) as [[w|e] s1]; cbn in Hx; subst s1; [|reflexivity].
  unfold bind. destruct (mapM_ (vocab_word (E:=E)) seq s) as [[ws|e] s2];
    cbn in IH; subst s2; reflexivity.
Qed.

Lemma phrase_of_state (seq : list Z) (s : state) :
  snd (phrase_of (E:=E) seq s) = s.
Proof.
  unfold phrase_of, bind. pose proof (phrase_words_state seq s) as H.
  destruct (mapM_ (vocab_word (E:=E)) seq s) as [[ws|e] s1];
    cbn in H; subst s1; reflexivity.
Qed.

(** [logging.info(..., end='\r')] makes no record: it raises when the
    logger is enabled for [INFO] and is dropped otherwise. *)
Lemma logging_info_end (msg : string) (w : world) :
  logging_info msg ["end"%string] w
  = (if info_enabled w then Raise TypeError else Ok tt, w).
Proof. unfold logging_info. cbn. destruct (info_enabled w); reflexivity. Qed.

(** The notification leaves the client as it is and adds nothing to the
    trace but calls of listeners. *)
Lemma notify_effects (s : state) :
  exists ls seq,
    snd (notify (E:=E) s) = (fst s, extend (snd s) (calls ls seq)).
Proof.
  destruct s as [c w]. unfold notify, bind at 1, engine_sequence, bind at 1, get.
  cbn [fst snd].
  destruct (engine c) as [e|] eqn:He;
    [|exists [], []; cbn; rewrite extend_nil; reflexivity].
  unfold ret at 1. unfold bind at 1.
  pose proof (phrase_of_state (sequence E e) (c, w)) as Hp.
  destruct (phrase_of (sequence E e) (c, w)) as [[phrase|ex] s1];
    cbn in Hp; subst s1;
    [|exists [], []; cbn; rewrite extend_nil; reflexivity].
  unfold bind at 1, in_world. cbn [fst snd]. rewrite logging_info_end.
  destruct (info_enabled w);
    [exists [], []; cbn; rewrite extend_nil; reflexivity|].
  unfold bind at 1, get. cbn [fst snd].
  unfold bind at 1, engine_sequence, bind at 1, get. cbn [fst snd].
  rewrite He. unfold ret at 1.
  rewrite for_each_listeners. cbn [fst snd].
  exists (listeners c), (sequence E e). reflexivity.
Qed.

Lemma vocab_word_eq (x : Z) (c : client E) (w : world) (cx : InferenceContext) :
  ctx c = Some cx ->
  vocab_word x (c, w) = (Text.py_index (vocab cx) x, (c, w)).
Proof.
  intros Hcx. unfold vocab_word, bind, get, lift. cbn [fst snd].
  rewrite Hcx. reflexivity.
Qed.

Lemma phrase_of_ok (seq : list Z) (c : client E) (w : world)
      (cx : InferenceContext) (ws : list string) :
  ctx c = Some cx ->
  mapM (Text.py_index (vocab cx)) seq = Ok ws ->
  phrase_of seq (c, w) = (Ok (Text.title (Text.join " " ws)), (c, w)).
Proof.
  intros Hcx Hws. unfold phrase_of, bind at 1.
  assert (H : mapM_ (vocab_word (E:=E)) seq (c, w) = (Ok ws, (c, w))).
  { revert ws Hws. induction seq as [|x seq IH]; intros ws Hws; cbn [mapM mapM_] in *.
    - injection Hws as <-. reflexivity.
    - unfold bind at 1. rewrite (@vocab_word_eq x c w cx Hcx).
      destruct (Text.py_index (vocab cx) x) as [word|ex]; [|discriminate].
      cbn [Py.bind] in Hws.
      destruct (mapM (Text.py_index (vocab cx)) seq) as [rest|ex]; [|discriminate].
      cbn [Py.bind] in Hws. injection Hws as <-.
      unfold bind. rewrite (IH rest eq_refl). reflexivity. }
  rewrite H. reflexivity.
Qed.

(** With the logger enabled for [INFO] the notification raises before a
    listener is called. *)
Lemma notify_info_enabled (c : client E) (w : world) :
  info_enabled w = true ->
  exists ex, notify (c, w) = (Raise ex, (c, w)).
Proof.
  intros Hinfo. unfold notify, bind at 1, engine_sequence, bind at 1, get.
  cbn [fst snd].
  destruct (engine c) as [e|]; [|eexists; reflexivity].
  unfold ret at 1. unfold bind at 1.
  pose proof (phrase_of_state (sequence E e) (c, w)) as Hp.
  destruct (phrase_of (sequence E e) (c, w)) as [[phrase|ex] s1];
    cbn in Hp; subst s1; [|eexists; reflexivity].
  unfold bind at 1, in_world. cbn [fst snd].
  rewrite logging_info_end, Hinfo. eexists. reflexivity.
Qed.

(** With the logger not enabled for [INFO] and every index of the
    sequence in the vocabulary, the notification calls the listeners in
    the order of their registration. *)
Lemma notify_info_disabled (c : client E) (w : world)
      (e : engine_state E) (cx : InferenceContext) (ws : list string) :
  info_enabled w = false ->
  engine c = Some e -> ctx c = Some cx ->
  mapM (Text.py_index (vocab cx)) (sequence E e) = Ok ws ->
  notify (c, w)
  = (Ok tt, (c, extend w (calls (listeners c) (sequence E e)))).
Proof.
  intros Hinfo He Hcx Hws.
  unfold notify, bind at 1, engine_sequence, bind at 1, get. cbn [fst snd].
  rewrite He. unfold ret at 1. unfold bind at 1.
  rewrite (@phrase_of_ok (sequence E e) c w cx ws Hcx Hws).
  unfold bind at 1, in_world. cbn [fst snd].
  rewrite logging_info_end, Hinfo.
  unfold bind at 1, get. cbn [fst snd].
  unfold bind at 1, engine_sequence, bind at 1, get. cbn [fst snd].
  rewrite He. unfold ret at 1.
  rewrite for_each_listeners. reflexivity.
Qed.

Lemma infer_count_calls (ls : list nat) (seq : list Z) :
  infer_count (calls ls seq) = 0.
Proof. unfold infer_count, calls. induction ls; cbn; auto. Qed.

(** ** One delivery *)

(** The engine is set. *)
Definition ready (s : state) : Prop := exists e, engine (fst s) = Some e.

(** The handler with its state written out. *)
Definition after_append (c : client E) (d : bytes) : client E :=
  set_audio_buf (_audio_buf c ++ [d]) (set_last_data (Chunk d) c).

Definition after_drop (c : client E) (d : bytes) : client E :=
  set_audio_buf (skipn 2 (_audio_buf c ++ [d])) (after_append c d).

Definition finish (d : bytes) (r : pyres unit * state)
  : pyres (bytes * Z) * state :=
  match r with
  | (Ok _, s) => (Ok (d, paContinue), s)
  | (Raise ex, s) => (Raise ex, s)
  end.

Lemma on_audio_unfold (c : client E) (w : world) (d : bytes) :
  _on_audio d (c, w)
  = if negb (length (_audio_buf c ++ [d]) =? 16)
    then (Ok (d, paContinue), (after_append c d, w))
    else
      match frombuffer_int16 (concat (_audio_buf c ++ [d])) with
      | Raise ex => (Raise ex, (after_drop c d, w))
      | Ok arr =>
          match engine c with
          | None => (Raise AttributeError, (after_drop c d, w))
          | Some e =>
              let s3 := (set_engine (Some (snd (infer E e (normalized arr))))
                                    (after_drop c d),
                         emit (Infer (device c) (normalized arr)) w) in
              if fst (infer E e (normalized arr))
              then finish d (notify s3)
              else (Ok (d, paContinue), s3)
          end
      end.
Proof.
  unfold after_drop, after_append, finish.
  cbv [_on_audio bind modify get ret lift engine_infer effect raise].
  cbn [fst snd set_last_data set_audio_buf _audio_buf engine device].
  destruct (negb (length (_audio_buf c ++ [d]) =? 16)); [reflexivity|].
  destruct (frombuffer_int16 (concat (_audio_buf c ++ [d]))) as [arr|ex];
    [|reflexivity].
  cbn [fst snd set_last_data set_audio_buf _audio_buf engine device].
  destruct (engine c) as [e|]; [|reflexivity].
  destruct (infer E e (normalized arr)) as [detected e'].
  cbn [fst snd set_last_data set_audio_buf set_engine _audio_buf engine device].
  destruct detected; [|reflexivity].
  destruct (notify _) as [[[]|ex] s4]; reflexivity.
Qed.

Lemma client_on_audio_step (s : state) (d : bytes) :
  ready s -> Forall even_chunk (_audio_buf (fst s)) -> even_chunk d ->
  let s' := snd (_on_audio d s) in
  ready s'
  /\ _audio_buf (fst s') = next_buf (_audio_buf (fst s)) d
  /\ infer_count (trace (snd s'))
     = infer_count (trace (snd s))
       + (if fires (length (_audio_buf (fst s))) then 1 else 0).
Proof.
  destruct s as [c w]. intros [e He] Hev Hd. cbn [fst snd] in *.
  assert (Hev' : Forall even_chunk (_audio_buf c ++ [d]))
    by (apply Forall_app; split; [exact Hev | repeat constructor; exact Hd]).
  assert (Hlen' : length (_audio_buf c ++ [d]) = S (length (_audio_buf c)))
    by (rewrite length_app; cbn [length]; lia).
  rewrite on_audio_unfold, Hlen'. unfold next_buf, fires.
  destruct (Nat.eqb_spec (S (length (_audio_buf c))) 16) as [H16|H16];
    cbn [negb].
  - destruct (frombuffer_window Hev') as [arr Harr]. rewrite Harr, He.
    set (c1 := set_engine _ _). set (w1 := emit _ w).
    assert (Hc1 : ready (c1, w1)
                  /\ _audio_buf (fst (c1, w1)) = skipn 2 (_audio_buf c ++ [d])).
    { unfold ready, c1, after_drop, after_append.
      cbn [fst set_engine set_audio_buf engine _audio_buf].
      split; [eexists|]; reflexivity. }
    assert (Hw1 : infer_count (trace w1) = infer_count (trace w) + 1).
    { unfold w1, emit, extend. cbn [trace].
      rewrite infer_count_app. reflexivity. }
    cbv zeta. destruct (fst (infer E e (normalized arr))).
    + destruct (notify_effects (c1, w1)) as [ls [seq Hn]].
      destruct (notify (c1, w1)) as [[[]|ex] s2]; cbn [snd fst finish] in *;
        subst s2; cbn [snd fst];
        (split; [exact (proj1 Hc1)|]); (split; [exact (proj2 Hc1)|]);
        unfold extend; cbn [trace]; rewrite infer_count_app, infer_count_calls; lia.
    + cbn [fst snd]. split; [exact (proj1 Hc1)|].
      split; [exact (proj2 Hc1) | lia].
  - cbn [fst snd]. unfold ready, after_append.
    cbn [fst set_audio_buf set_last_data engine _audio_buf].
    split; [eexists; exact He|]. split; [reflexivity | lia].
Qed.

(** ** The handler called with the chunk alone *)

(** [client._on_audio(in_data)]: a call with one argument, which the
    parameters of the [def] accept. *)
Definition direct_call (in_data : bytes) : M E (bytes * Z)%type :=
  bind (lift (call_bound def__on_audio 1 (Ok tt)))
       (fun _ => _on_audio in_data).

Fixpoint direct_calls (chunks : list bytes) (s : state) : state :=
  match chunks with
  | [] => s
  | in_data :: rest => direct_calls rest (snd (direct_call in_data s))
  end.

Lemma direct_call_runs_body (d : bytes) (s : state) :
  direct_call d s = _on_audio d s.
Proof. reflexivity. Qed.

Lemma client_direct_calls_spec (chunks : list bytes) (s : state) :
  ready s -> Forall even_chunk (_audio_buf (fst s)) ->
  Forall even_chunk chunks ->
  let k := length chunks in
  let n := length (_audio_buf (fst s)) in
  ready (direct_calls chunks s)
  /\ _audio_buf (fst (direct_calls chunks s))
     = skipn (n + k - fst (run k n)) (_audio_buf (fst s) ++ chunks)
  /\ infer_count (trace (snd (direct_calls chunks s)))
     = infer_count (trace (snd s)) + snd (run k n).
Proof.
  apply (@Window.handler_deliveries state
           (fun s => _audio_buf (fst s))
           (fun s => infer_count (trace (snd s)))
           ready
           (fun d s => snd (_on_audio d s))
           direct_calls).
  - reflexivity.
  - reflexivity.
  - intros s0 d. apply client_on_audio_step.
Qed.

(** ** A delivery sequence *)

(** The stream's call passes four arguments to a [def] that takes the
    instance and one more: the call is refused before the body runs. *)
Lemma stream_callback_refused (d : bytes) (s : state) :
  stream_callback d s = (Raise TypeError, s).
Proof. reflexivity. Qed.

Lemma deliver_refused (chunks : list bytes) (s : state) :
  deliver chunks s = s.
Proof.
  induction chunks as [|d chunks IH]; [reflexivity|].
  cbn [deliver]. rewrite stream_callback_refused. exact IH.
Qed.

End WithEngine.

End HowlClientProps.

(* ===================================================================== *)
(** * Properties of the demo's [InferenceClient] *)
(* ===================================================================== *)

Module DemoProps.

Import Window.
Local Open Scope nat_scope.

Section WithEngine.

Variable E : InferenceEngine.

Let state := Demo.state E.

Lemma demo_on_audio_step (s : state) (d : bytes) :
  Forall even_chunk (Demo._audio_buf (fst s)) -> even_chunk d ->
  let s' := snd (Demo._on_audio d s) in
  Demo._audio_buf (fst s') = next_buf (Demo._audio_buf (fst s)) d
  /\ infer_count (trace (snd s'))
     = infer_count (trace (snd s))
       + (if fires (length (Demo._audio_buf (fst s))) then 1 else 0).
Proof.
  destruct s as [c w]. intros Hev Hd. cbn [fst snd] in *.
  assert (Hev' : Forall even_chunk (Demo._audio_buf c ++ [d]))
    by (apply Forall_app; split; [exact Hev | repeat constructor; exact Hd]).
  assert (Hlen' : length (Demo._audio_buf c ++ [d])
                  = S (length (Demo._audio_buf c)))
    by (rewrite length_app; cbn [length]; lia).
  unfold Demo._on_audio. rewrite Hlen'. unfold next_buf, fires.
  destruct (Nat.eqb_spec (S (length (Demo._audio_buf c))) 16) as [H16|H16];
    cbn [negb].
  - destruct (frombuffer_window Hev') as [arr Harr]. rewrite Harr.
    cbn [Demo.engine Demo.device Demo._audio_buf Demo.words
         Demo.chunk_size Demo.last_data].
    destruct (infer E (Demo.engine c) (normalized arr)) as [detected e'].
    assert (Hcount : forall t,
               infer_count (trace w ++ [Infer (Demo.device c) (normalized arr)] ++ t)
               = infer_count (trace w) + 1 + infer_count t).
    { intros t. rewrite !infer_count_app. cbn. lia. }
    destruct detected.
    + destruct (mapM _ _) as [ws|ex]; cbn [fst snd Demo._audio_buf];
        (split; [reflexivity|]).
      * unfold Demo.print, emit, extend. cbn [trace].
        rewrite <- app_assoc, Hcount. cbn. lia.
      * unfold emit, extend. cbn [trace].
        rewrite infer_count_app. cbn. lia.
    + cbn [fst snd Demo._audio_buf]. split; [reflexivity|].
      unfold Demo.print, emit, extend. cbn [trace].
      rewrite <- app_assoc, Hcount. cbn. lia.
  - cbn [fst snd Demo._audio_buf]. split; [reflexivity | lia].
Qed.

Lemma demo_deliver_spec (chunks : list bytes) (s : state) :
  Forall even_chunk (Demo._audio_buf (fst s)) ->
  Forall even_chunk chunks ->
  let k := length chunks in
  let n := length (Demo._audio_buf (fst s)) in
  Demo._audio_buf (fst (Demo.deliver chunks s))
  = skipn (n + k - fst (run k n)) (Demo._audio_buf (fst s) ++ chunks)
  /\ infer_count (trace (snd (Demo.deliver chunks s)))
     = infer_count (trace (snd s)) + snd (run k n).
Proof.
  intros Hb Hall.
  apply (@Window.handler_deliveries state
           (fun s => Demo._audio_buf (fst s))
           (fun s => infer_count (trace (snd s)))
           (fun _ => True)
           (fun d s => snd (Demo._on_audio d s))
           (@Demo.deliver E)); auto.
  intros s0 d _ Hb0 Hd. split; [exact I|]. apply demo_on_audio_step; assumption.
Qed.

End WithEngine.

End DemoProps.

(* ===================================================================== *)
(** * The clients on delivery sequences, detections and start-up *)
(* ===================================================================== *)

Module ClientClaims.

Import Window.
Local Open Scope nat_scope.

(** ** The cadence of inference *)

Section Cadence.

Variable E : InferenceEngine.

(** The number of chunks held and of inference calls made after [k]
    chunks, from an empty buffer. *)
Definition held (k : nat) : nat := if k <? 16 then k else 14 + k mod 2.
Definition inferred (k : nat) : nat := if k <? 16 then 0 else (k - 14) / 2.

Lemma held_suffix (chunks : list bytes) :
  length (skipn (length chunks - held (length chunks)) chunks)
  = held (length chunks).
Proof.
  assert (H : held (length chunks) <= length chunks).
  { unfold held. pose proof (Nat.mod_upper_bound (length chunks) 2 ltac:(lia)).
    destruct (Nat.ltb_spec (length chunks) 16); lia. }
  rewrite length_skipn. lia.
Qed.

(** The body of the client's handler follows the cadence when it is
    called with the chunk alone. *)
Lemma client_body_cadence (c : HowlClient.client E) (w : world)
      (chunks : list bytes) :
  (exists e, HowlClient.engine c = Some e) ->
  HowlClient._audio_buf c = [] ->
  Forall even_chunk chunks ->
  let k := length chunks in
  let s := HowlClientProps.direct_calls chunks (c, w) in
  HowlClient._audio_buf (fst s) = skipn (k - held k) chunks
  /\ length (HowlClient._audio_buf (fst s)) = held k
  /\ infer_count (trace (snd s)) = infer_count (trace w) + inferred k.
Proof.
  intros Heng Hbuf Hall k s.
  destruct (@HowlClientProps.client_direct_calls_spec E chunks (c, w))
    as [_ [Hb Hc]]; [exact Heng | | exact Hall |].
  { cbn [fst]. rewrite Hbuf. constructor. }
  cbn zeta in Hb, Hc. cbn [fst snd] in Hb, Hc.
  rewrite Hbuf in Hb, Hc. cbn [length app Nat.add] in Hb, Hc.
  fold k in Hb, Hc. rewrite run_from_empty in Hb, Hc. cbn [fst snd] in Hb, Hc.
  fold (held k) (inferred k) in Hb, Hc. fold s in Hb, Hc.
  split; [exact Hb|]. split; [rewrite Hb; apply held_suffix | exact Hc].
Qed.

(** The cadence of the demo. Let the stream of the demo's client hand
    the chunks of a delivery sequence, [k] chunks of 16-bit samples, to
    its callback, starting from an empty buffer. Then the buffer holds the
    last [k] chunks while [k < 16] and the last [14 + k mod 2] afterwards,
    and the engine has been called [(k - 14) / 2] times (never while
    [k < 16]). So the first inference is on the 16th chunk, which leaves
    14 chunks; the 17th leaves 15; the second inference is on the 18th;
    and from then on there is one inference for every two chunks. *)
Theorem demo_inference_every_second_chunk
        (dc : Demo.client E) (w : world) (chunks : list bytes) :
  Demo._audio_buf dc = [] ->
  Forall even_chunk chunks ->
  let k := length chunks in
  let ds := Demo.deliver chunks (dc, w) in
  Demo._audio_buf (fst ds) = skipn (k - held k) chunks
  /\ length (Demo._audio_buf (fst ds)) = held k
  /\ infer_count (trace (snd ds)) = infer_count (trace w) + inferred k.
Proof.
  intros Hdbuf Hall k ds.
  destruct (@DemoProps.demo_deliver_spec E chunks (dc, w)) as [Hb Hc];
    [cbn [fst]; rewrite Hdbuf; constructor | exact Hall |].
  cbn zeta in Hb, Hc. cbn [fst snd] in Hb, Hc.
  rewrite Hdbuf in Hb, Hc. cbn [length app Nat.add] in Hb, Hc.
  fold k in Hb, Hc. rewrite run_from_empty in Hb, Hc. cbn [fst snd] in Hb, Hc.
  fold (held k) (inferred k) in Hb, Hc. fold ds in Hb, Hc.
  split; [exact Hb|]. split; [rewrite Hb; apply held_suffix | exact Hc].
Qed.

End Cadence.

(** The counts of the specification's example. *)
Example cadence_15_16_17_18 :
  run 15 0 = (15, 0) /\ run 16 0 = (14, 1)
  /\ run 17 0 = (15, 1) /\ run 18 0 = (14, 2).
Proof. repeat split. Qed.

(** ** A concrete client *)

(** An engine that detects the label sequence [[0; 1]] in every window. *)
Definition eager_engine : InferenceEngine :=
  @mkEngine unit (fun _ _ => (true, tt)) (fun _ => [0; 1]%Z).

Definition hey_context : InferenceContext :=
  mkContext ["hey"; "fire fox"; "it's"]%string.

(** One chunk of a single silent sample. *)
Definition silence : bytes := [x00; x00]%byte.

(** A quiet world and one in which the root logger is enabled for
    [INFO]. *)
Definition quiet_world : world := mkWorld [] false ["hw:0"; "default"; "pulse"]%string.
Definition info_world : world := mkWorld [] true ["hw:0"; "default"; "pulse"]%string.

(** A client as [__init__] would leave it on the CPU, with the engine,
    the context and the listeners 7 and 3 registered in this order. *)
Definition fresh_client : HowlClient.client eager_engine :=
  HowlClient.mkClient eager_engine [7; 3] 500 Cpu (Some tt) (Some hey_context) []
                      (HowlClient.Zeros 500) false.

Definition fresh_demo : Demo.client eager_engine :=
  @Demo.mkClient eager_engine tt 500 ["hey"; "fire fox"; "it's"]%string
                (HowlClient.Zeros 500) [] Cpu.

(** The client after [start()]: the stream is open and has the bound
    handler as its callback. *)
Definition started_client : HowlClient.state eager_engine :=
  snd (HowlClient.start (fresh_client, quiet_world)).

Lemma demo_inference_every_second_chunk_witness :
  let chunks := repeat silence 18 in
  let ds := Demo.deliver chunks (fresh_demo, quiet_world) in
  Demo._audio_buf (fst ds) = skipn (18 - held 18) chunks
  /\ length (Demo._audio_buf (fst ds)) = held 18
  /\ infer_count (trace (snd ds)) = infer_count (trace quiet_world) + inferred 18.
Proof.
  apply (@demo_inference_every_second_chunk eager_engine fresh_demo
           quiet_world (repeat silence 18)).
  - reflexivity.
  - repeat constructor; exists 1; reflexivity.
Defined.

(** C1 fails on the client. [start] installs the bound method
    [self._on_audio] as the callback of the stream, and the stream calls
    it with four arguments; [_on_audio(self, in_data)] takes one. Every
    delivery is refused with [TypeError] before the body of the handler
    runs, so whatever the stream delivers, the client buffers nothing and
    the engine is never called. After 16 chunks of silence the started
    client has an empty buffer and no inference; the demo's client, whose
    handler takes the four arguments, holds 14 chunks and has called the
    engine once for the same chunks. *)
Theorem client_stream_delivery_is_refused :
  (forall (E : InferenceEngine) (s : HowlClient.state E) (d : bytes),
      HowlClient.stream_callback d s = (Raise TypeError, s))
  /\ (forall (E : InferenceEngine) (s : HowlClient.state E) (chunks : list bytes),
         HowlClient.deliver chunks s = s)
  /\ (let s := HowlClient.deliver (repeat silence 16) started_client in
      let ds := Demo.deliver (repeat silence 16) (fresh_demo, quiet_world) in
      HowlClient.stream (fst started_client) = true
      /\ HowlClient._audio_buf (fst s) = []
      /\ infer_count (trace (snd s)) = 0
      /\ length (Demo._audio_buf (fst ds)) = 14
      /\ infer_count (trace (snd ds)) = 1).
Proof.
  split; [|split].
  - intros E s d. apply HowlClientProps.stream_callback_refused.
  - intros E s chunks. apply HowlClientProps.deliver_refused.
  - cbv zeta. rewrite HowlClientProps.deliver_refused.
    repeat split; vm_compute; reflexivity.
Qed.

(** Called with the chunk alone, the body of the client's handler keeps
    the cadence of the demo. *)
Example client_body_cadence_18 :
  let s := HowlClientProps.direct_calls (repeat silence 18)
             (fresh_client, quiet_world) in
  length (HowlClient._audio_buf (fst s)) = 14
  /\ infer_count (trace (snd s)) = 2.
Proof.
  destruct (@client_body_cadence eager_engine fresh_client quiet_world
              (repeat silence 18)) as [_ [H1 H2]].
  - exists tt. reflexivity.
  - reflexivity.
  - repeat constructor; exists 1; reflexivity.
  - split; assumption.
Qed.


(** ** A detection *)

(** With the logger not enabled for [INFO], a detection calls every
    listener, in the order of registration, with the engine's sequence;
    nothing is logged. *)
Lemma detection_calls_listeners
      (E : InferenceEngine) (c : HowlClient.client E) (w : world) (d : bytes)
      (e : engine_state E) (arr : list Z)
      (cx : InferenceContext) (ws : list string) :
  HowlClient.engine c = Some e ->
  length (HowlClient._audio_buf c) = 15 ->
  frombuffer_int16 (concat (HowlClient._audio_buf c ++ [d])) = Ok arr ->
  fst (infer E e (normalized arr)) = true ->
  HowlClient.ctx c = Some cx ->
  mapM (Text.py_index (vocab cx)) (sequence E (snd (infer E e (normalized arr))))
  = Ok ws ->
  info_enabled w = false ->
  HowlClient._on_audio d (c, w)
  = (Ok (d, paContinue),
     (HowlClient.set_engine (Some (snd (infer E e (normalized arr))))
                            (HowlClientProps.after_drop c d),
      extend w
        (Infer (HowlClient.device c) (normalized arr)
         :: HowlClientProps.calls
              (HowlClient.listeners c)
              (sequence E (snd (infer E e (normalized arr))))))).
Proof.
  intros He Hlen Harr Hdet Hcx Hws Hinfo.
  rewrite HowlClientProps.on_audio_unfold.
  rewrite length_app, Hlen. cbn [length Nat.add Nat.eqb negb].
  rewrite Harr, He. cbv zeta. rewrite Hdet.
  rewrite (@HowlClientProps.notify_info_disabled E _ _
             (snd (infer E e (normalized arr))) cx ws);
    try assumption; try reflexivity.
  unfold HowlClientProps.finish, emit. rewrite HowlClientProps.extend_extend.
  reflexivity.
Qed.

(** C2 fails on the code. Line 54 is
    [logging.info(f'{phrase} detected', end='\r')], and [end] is not a
    keyword of the logger. With the logger enabled for [INFO] the handler
    raises [TypeError] on a detection: the trace gains the inference call
    and nothing else, neither a log record nor a call of a listener. (With
    the logger not enabled the listeners are called but no record is made,
    see [detection_calls_listeners].) *)
Theorem detection_with_info_logging_raises
        (E : InferenceEngine) (c : HowlClient.client E) (w : world) (d : bytes)
        (e : engine_state E) (arr : list Z)
        (cx : InferenceContext) (ws : list string) :
  HowlClient.engine c = Some e ->
  length (HowlClient._audio_buf c) = 15 ->
  frombuffer_int16 (concat (HowlClient._audio_buf c ++ [d])) = Ok arr ->
  fst (infer E e (normalized arr)) = true ->
  HowlClient.ctx c = Some cx ->
  mapM (Text.py_index (vocab cx)) (sequence E (snd (infer E e (normalized arr))))
  = Ok ws ->
  info_enabled w = true ->
  HowlClient._on_audio d (c, w)
  = (Raise TypeError,
     (HowlClient.set_engine (Some (snd (infer E e (normalized arr))))
                            (HowlClientProps.after_drop c d),
      extend w [Infer (HowlClient.device c) (normalized arr)])).
Proof.
  intros He Hlen Harr Hdet Hcx Hws Hinfo.
  rewrite HowlClientProps.on_audio_unfold.
  rewrite length_app, Hlen. cbn [length Nat.add Nat.eqb negb].
  rewrite Harr, He. cbv zeta. rewrite Hdet.
  set (c1 := HowlClient.set_engine _ _). set (w1 := emit _ w).
  assert (Hn : HowlClient.notify (c1, w1) = (Raise TypeError, (c1, w1))).
  { unfold HowlClient.notify, HowlClient.bind at 1, HowlClient.engine_sequence,
      HowlClient.bind at 1, HowlClient.get. cbn [fst snd].
    unfold c1 at 1. cbn [HowlClient.set_engine HowlClient.engine].
    unfold HowlClient.ret at 1. unfold HowlClient.bind at 1.
    rewrite (@HowlClientProps.phrase_of_ok E _ c1 w1 cx ws); [|exact Hcx|exact Hws].
    unfold HowlClient.bind at 1, HowlClient.in_world. cbn [fst snd].
    rewrite HowlClientProps.logging_info_end.
    unfold w1, emit, extend. cbn [info_enabled]. rewrite Hinfo. reflexivity. }
  rewrite Hn. reflexivity.
Qed.

(** The client with 15 chunks in its buffer. *)
Definition primed_client : HowlClient.client eager_engine :=
  HowlClient.set_audio_buf (repeat silence 15) fresh_client.

Lemma detection_with_info_logging_raises_witness :
  exists c',
    HowlClient._on_audio silence (primed_client, info_world)
    = (Raise TypeError,
       (c', extend info_world [Infer Cpu (normalized (repeat 0%Z 16))])).
Proof.
  eexists.
  apply (@detection_with_info_logging_raises eager_engine primed_client
           info_world silence tt (repeat 0%Z 16) hey_context
           ["hey"; "fire fox"]%string);
    reflexivity.
Defined.

(** The phrase that the handler builds for the sequence [[0; 1]]. *)
Example phrase_title_case :
  Text.title (Text.join " " ["hey"; "fire fox"; "it's"]%string)
  = "Hey Fire Fox It'S"%string.
Proof. reflexivity. Qed.

Example detection_without_info_logging :
  snd (snd (HowlClient._on_audio silence (primed_client, quiet_world)))
  = extend quiet_world
      [Infer Cpu (normalized (repeat 0%Z 16));
       ListenerCall 7 [0; 1]%Z; ListenerCall 3 [0; 1]%Z].
Proof. reflexivity. Qed.

(** ** Construction *)

(** The body of [_get_device] does what the specification says of the
    device selector. *)
Lemma get_device_body (d : Z) :
  (d = -1 -> HowlClient._get_device d = Cpu)%Z
  /\ (d <> -1 -> HowlClient._get_device d = Cuda d)%Z.
Proof.
  unfold HowlClient._get_device. split; intros H.
  - subst d. reflexivity.
  - destruct (Z.eqb_spec d (-1)); [contradiction | reflexivity].
Qed.

(** C3 fails on the code. [_get_device] is defined in the class with the
    single parameter [device] and without [@staticmethod] (the decorator
    stands above [list_pretrained]); line 20 calls it as
    [self._get_device(device)], which passes two arguments. So the
    constructor raises [TypeError] for every device selector, before the
    audio handle of line 24 is made: the world is left as it was. *)
Theorem constructor_raises
        (E : InferenceEngine) (engine : option (engine_state E))
        (context : option InferenceContext) (device chunk_size : Z) (w : world) :
  HowlClient.__init__ E engine context device chunk_size w = (Raise TypeError, w).
Proof. reflexivity. Qed.

(** ** [start] without an engine or a context *)

(** C4. [start] on a client whose engine or whose context is unset raises
    [AttributeError] and leaves the client and the world as they were: no
    device is counted or looked at and no stream is opened. *)
Theorem start_unconfigured_raises
        (E : InferenceEngine) (c : HowlClient.client E) (w : world) :
  HowlClient.engine c = None \/ HowlClient.ctx c = None ->
  HowlClient.start (c, w) = (Raise AttributeError, (c, w)).
Proof.
  intros H. unfold HowlClient.start, HowlClient.bind, HowlClient.get,
              HowlClient.raise.
  cbn [fst snd].
  destruct (HowlClient.engine c) as [e|]; [|reflexivity].
  destruct H as [H|H]; [discriminate|]. rewrite H. reflexivity.
Qed.

Definition unconfigured_client : HowlClient.client eager_engine :=
  HowlClient.mkClient eager_engine [] 500 Cpu None None []
                      (HowlClient.Zeros 500) false.

Lemma start_unconfigured_raises_witness :
  HowlClient.start (unconfigured_client, quiet_world)
  = (Raise AttributeError, (unconfigured_client, quiet_world)).
Proof.
  apply (@start_unconfigured_raises eager_engine unconfigured_client quiet_world).
  left. reflexivity.
Defined.

(** [start] on a configured client: the device named ["pulse"] is chosen,
    else the device 0. *)
Example start_chooses_pulse :
  HowlClient.start (fresh_client, quiet_world)
  = (Ok tt,
     (HowlClient.set_stream true fresh_client,
      extend quiet_world
        [GetDeviceCount; GetDeviceInfo 0; GetDeviceInfo 1; GetDeviceInfo 2;
         OpenStream 2 500; StartStream])).
Proof. reflexivity. Qed.

Example start_without_pulse :
  snd (snd (HowlClient.start (fresh_client, mkWorld [] false ["hw:0"; "default"]%string)))
  = mkWorld [GetDeviceCount; GetDeviceInfo 0; GetDeviceInfo 1;
             OpenStream 0 500; StartStream]
            false ["hw:0"; "default"]%string.
Proof. reflexivity. Qed.

End ClientClaims.

(* ===================================================================== *)
(** * Decoding the window *)
(* ===================================================================== *)

Module PcmProps.

Import Window.

Lemma int16_range (lo hi : byte) : (-32768 <= int16 lo hi <= 32767)%Z.
Proof.
  unfold int16.
  pose proof (Byte.to_N_bounded lo). pose proof (Byte.to_N_bounded hi).
  destruct (Z.ltb_spec (Z.of_N (Byte.to_N lo) + 256 * Z.of_N (Byte.to_N hi)) 32768);
    lia.
Qed.

(** The value of an element of the inference window. *)
Definition sample_value (e : xreal) : Prop :=
  exists v, e = Fin (IZR v / 32767)%R /\ (-32768 <= v <= 32767)%Z.

Lemma sample_value_bounds (e : xreal) :
  sample_value e -> exists r, e = Fin r /\ (- (32768 / 32767) <= r <= 1)%R.
Proof.
  intros [v [-> [Hlo Hhi]]]. eexists. split; [reflexivity|].
  apply IZR_le in Hlo, Hhi. lra.
Qed.

Lemma frombuffer_lengths (data : bytes) :
  match frombuffer_int16 data with
  | Ok arr =>
      Nat.Even (length data)
      /\ 2 * length arr = length data
      /\ Forall (fun v => -32768 <= v <= 32767)%Z arr
  | Raise e => e = ValueError /\ Nat.Odd (length data)
  end.
Proof.
  assert (H : forall n (d : bytes), length d <= n ->
     match frombuffer_int16 d with
     | Ok arr =>
         Nat.Even (length d)
         /\ 2 * length arr = length d
         /\ Forall (fun v => -32768 <= v <= 32767)%Z arr
     | Raise e => e = ValueError /\ Nat.Odd (length d)
     end).
  { induction n as [|n IH]; intros d Hd.
    - destruct d; [|cbn in Hd; lia]. cbn. repeat split; [exists 0; reflexivity | constructor].
    - destruct d as [|lo [|hi rest]].
      + cbn. repeat split; [exists 0; reflexivity | constructor].
      + cbn. split; [reflexivity | exists 0; reflexivity].
      + cbn [frombuffer_int16 length] in *.
        specialize (IH rest ltac:(lia)).
        destruct (frombuffer_int16 rest) as [arr|e]; cbn [Py.bind].
        * destruct IH as [[k Hk] [Hl Hr]]. split; [exists (S k); lia|].
          split; [cbn [length]; lia|].
          constructor; [apply int16_range | exact Hr].
        * destruct IH as [-> [k Hk]]. split; [reflexivity | exists (S k); lia]. }
  exact (H (length data) data (le_n _)).
Qed.

Lemma normalized_values (arr : list Z) :
  Forall (fun v => -32768 <= v <= 32767)%Z arr ->
  numel (normalized arr) = length arr
  /\ Forall sample_value (flat (normalized arr)).
Proof.
  intros Hr. unfold numel, normalized, vec. cbn [flat]. split.
  - apply length_map.
  - apply Forall_map. eapply Forall_impl; [|exact Hr].
    intros v Hv. exists v. auto.
Qed.

(** [np.frombuffer(..., dtype=np.int16)] accepts a buffer exactly when its
    size is even, and raises [ValueError] otherwise. It then yields one
    sample for every two bytes, each in the 16-bit range, so every element
    of the normalised window is a real number between [-32768/32767] and
    [1]. *)
Theorem frombuffer_int16_spec (data : bytes) :
  match frombuffer_int16 data with
  | Ok arr =>
      Nat.Even (length data)
      /\ 2 * length arr = length data
      /\ Forall (fun v => -32768 <= v <= 32767)%Z arr
      /\ numel (normalized arr) = length arr
      /\ Forall sample_value (flat (normalized arr))
  | Raise e => e = ValueError /\ Nat.Odd (length data)
  end.
Proof.
  pose proof (frombuffer_lengths data) as H.
  destruct (frombuffer_int16 data) as [arr|e]; [|exact H].
  destruct H as [He [Hl Hr]].
  destruct (normalized_values Hr) as [Hn Hs].
  split; [exact He|]. split; [exact Hl|]. split; [exact Hr|].
  split; [exact Hn | exact Hs].
Qed.

(** The most negative sample is mapped below [-1]. *)
Example lowest_sample_below_minus_one :
  exists r, flat (normalized [int16 x00 x80]) = [Fin r] /\ (r < -1)%R.
Proof.
  eexists. split; [reflexivity|]. cbn. lra.
Qed.

(** A window of chunks of [2 * chunk_size] bytes each decodes to
    [chunk_size] samples for each chunk. *)
Theorem window_samples_count (chunk_size : nat) (buf : list bytes) :
  Forall (fun d => length d = 2 * chunk_size) buf ->
  exists arr,
    frombuffer_int16 (concat buf) = Ok arr
    /\ numel (normalized arr) = length buf * chunk_size
    /\ Forall sample_value (flat (normalized arr)).
Proof.
  intros Hall.
  assert (Hlen : length (concat buf) = 2 * (length buf * chunk_size)).
  { induction Hall as [|d buf Hd _ IH]; [reflexivity|].
    cbn [concat length]. rewrite length_app, Hd, IH. lia. }
  pose proof (frombuffer_lengths (concat buf)) as H.
  destruct (frombuffer_int16 (concat buf)) as [arr|e].
  - destruct H as [_ [Hl Hr]]. destruct (normalized_values Hr) as [Hn Hs].
    exists arr. split; [reflexivity|]. split; [lia | exact Hs].
  - destruct H as [_ [k Hk]]. lia.
Qed.

Lemma window_samples_count_witness :
  exists arr,
    frombuffer_int16 (concat (repeat [x01; x00; xff; x7f]%byte 16)) = Ok arr
    /\ numel (normalized arr) = length (repeat [x01; x00; xff; x7f]%byte 16) * 2
    /\ Forall sample_value (flat (normalized arr)).
Proof.
  apply (@window_samples_count 2 (repeat [x01; x00; xff; x7f]%byte 16)).
  repeat constructor.
Defined.

End PcmProps.

(* ===================================================================== *)
(** * The choice of the audio device *)
(* ===================================================================== *)

Module DeviceProps.

Import HowlClientProps.

Definition pulse : string := "pulse".

(** The device that the scan chooses among [names] and the number of
    devices that it looks at: the first one named ["pulse"], looking no
    further; or the device 0 after looking at every device. *)
Definition selection (names : list string) (idx examined : nat) : Prop :=
  (exists pre post,
      names = pre ++ pulse :: post /\ ~ In pulse pre
      /\ idx = length pre /\ examined = S (length pre))
  \/ (~ In pulse names /\ idx = 0 /\ examined = length names).

Lemma scan_devices_found (pre post : list string) (i : nat) (w : world) :
  ~ In pulse pre ->
  scan_devices (pre ++ pulse :: post) i w
  = (i + length pre, extend w (map GetDeviceInfo (seq i (S (length pre))))).
Proof.
  revert i w. induction pre as [|name pre IH]; intros i w Hnot.
  - cbn. rewrite Nat.add_0_r. reflexivity.
  - cbn [app scan_devices].
    destruct (String.eqb_spec name "pulse") as [->|Hne].
    + exfalso. apply Hnot. left. reflexivity.
    + rewrite IH by (intros H; apply Hnot; right; exact H).
      unfold emit. rewrite extend_extend. cbn [length].
      rewrite Nat.add_succ_r. reflexivity.
Qed.

Lemma scan_devices_missing (names : list string) (i : nat) (w : world) :
  ~ In pulse names ->
  scan_devices names i w
  = (0, extend w (map GetDeviceInfo (seq i (length names)))).
Proof.
  revert i w. induction names as [|name names IH]; intros i w Hnot.
  - cbn. rewrite extend_nil. reflexivity.
  - cbn [scan_devices].
    destruct (String.eqb_spec name "pulse") as [->|Hne].
    + exfalso. apply Hnot. left. reflexivity.
    + rewrite IH by (intros H; apply Hnot; right; exact H).
      unfold emit. rewrite extend_extend. reflexivity.
Qed.

Lemma first_occurrence (x : string) (l : list string) :
  In x l -> exists pre post, l = pre ++ x :: post /\ ~ In x pre.
Proof.
  induction l as [|y l IH]; intros Hin; [contradiction|].
  destruct (string_dec y x) as [->|Hne].
  - exists [], l. split; [reflexivity | intros []].
  - destruct Hin as [Heq|Hin]; [contradiction|].
    destruct (IH Hin) as [pre [post [-> Hnot]]].
    exists (y :: pre), post. split; [reflexivity|].
    intros [H|H]; [contradiction | exact (Hnot H)].
Qed.

Lemma choose_device_spec (w : world) :
  exists idx examined,
    selection (device_names w) idx examined
    /\ choose_device w
       = (idx, extend w (GetDeviceCount :: map GetDeviceInfo (seq 0 examined))).
Proof.
  unfold choose_device, emit.
  destruct (in_dec string_dec pulse (device_names w)) as [Hin|Hnot].
  - destruct (first_occurrence _ _ Hin) as [pre [post [Hnames Hpre]]].
    exists (length pre), (S (length pre)). split.
    + left. exists pre, post. auto.
    + cbn [extend device_names]. rewrite Hnames at 1.
      rewrite scan_devices_found by exact Hpre.
      rewrite extend_extend. reflexivity.
  - exists 0, (length (device_names w)). split.
    + right. auto.
    + rewrite scan_devices_missing by exact Hnot.
      rewrite extend_extend. reflexivity.
Qed.

(** [start] on a client with an engine and a context counts the devices,
    looks at them in turn up to the first one named ["pulse"], opens one
    stream on that device, or on device 0 when there is none, with
    [frames_per_buffer = chunk_size], and starts it. *)
Theorem start_opens_selected_device
        (E : InferenceEngine) (c : HowlClient.client E) (w : world)
        (e : engine_state E) (cx : InferenceContext) :
  HowlClient.engine c = Some e -> HowlClient.ctx c = Some cx ->
  exists idx examined,
    selection (device_names w) idx examined
    /\ HowlClient.start (c, w)
       = (Ok tt,
          (HowlClient.set_stream true c,
           extend w (GetDeviceCount
                     :: map GetDeviceInfo (seq 0 examined)
                     ++ [OpenStream idx (HowlClient.chunk_size c); StartStream]))).
Proof.
  intros He Hcx.
  destruct (choose_device_spec w) as [idx [examined [Hsel Hch]]].
  exists idx, examined. split; [exact Hsel|].
  unfold HowlClient.start, HowlClient.bind at 1, HowlClient.get.
  cbn [fst snd]. rewrite He, Hcx.
  unfold HowlClient.bind at 1, HowlClient.in_world at 1. cbn [fst snd].
  rewrite Hch.
  unfold HowlClient.bind at 1, HowlClient.in_world, HowlClient.modify.
  cbn [fst snd]. unfold open_and_start, emit.
  rewrite !extend_extend. reflexivity.
Qed.

(** The constructor of the demo's client makes the audio handle, chooses
    the device in the same way, and opens and starts the stream. *)
Theorem demo_constructor_opens_selected_device
        (E : InferenceEngine) (engine : engine_state E) (device : torch_device)
        (words : list string) (chunk_size : Z) (w : world) :
  exists idx examined,
    selection (device_names w) idx examined
    /\ Demo.__init__ E engine device words chunk_size w
       = (Demo.mkClient E engine chunk_size words
                        (HowlClient.Zeros chunk_size) [] device,
          extend w (PyAudioInit :: GetDeviceCount
                    :: map GetDeviceInfo (seq 0 examined)
                    ++ [OpenStream idx chunk_size; StartStream])).
Proof.
  destruct (choose_device_spec (emit PyAudioInit w)) as [idx [examined [Hsel Hch]]].
  exists idx, examined. split; [exact Hsel|].
  unfold Demo.__init__. rewrite Hch.
  unfold open_and_start, emit. rewrite !extend_extend.
  reflexivity.
Qed.


Lemma start_opens_selected_device_witness :
  exists idx examined,
    selection (device_names ClientClaims.quiet_world) idx examined
    /\ HowlClient.start (ClientClaims.fresh_client, ClientClaims.quiet_world)
       = (Ok tt,
          (HowlClient.set_stream true ClientClaims.fresh_client,
           extend ClientClaims.quiet_world
                  (GetDeviceCount
                   :: map GetDeviceInfo (seq 0 examined)
                   ++ [OpenStream idx
                         (HowlClient.chunk_size ClientClaims.fresh_client);
                       StartStream]))).
Proof.
  apply (@start_opens_selected_device ClientClaims.eager_engine
           ClientClaims.fresh_client ClientClaims.quiet_world tt
           ClientClaims.hey_context); reflexivity.
Defined.

End DeviceProps.

(* ===================================================================== *)
(** * The handlers between and at the windows *)
(* ===================================================================== *)

Module HandlerProps.

Import Window HowlClientProps.
Local Open Scope nat_scope.

(** ** A chunk that does not complete a window *)

(** When the chunk does not bring the buffer to 16 chunks, the handler of
    the client and the handler of the demo only store it: they return the
    chunk with [paContinue], remember it as [last_data], append it to the
    buffer, and touch neither the engine nor the world. They do not raise,
    even for a client without engine or context. *)
Theorem handlers_between_windows
        (E : InferenceEngine) (c : HowlClient.client E) (dc : Demo.client E)
        (w : world) (d : bytes) :
  length (HowlClient._audio_buf c) + 1 <> 16 ->
  length (Demo._audio_buf dc) + 1 <> 16 ->
  HowlClient._on_audio d (c, w)
  = (Ok (d, paContinue),
     (HowlClient.mkClient E (HowlClient.listeners c) (HowlClient.chunk_size c)
        (HowlClient.device c) (HowlClient.engine c) (HowlClient.ctx c)
        (HowlClient._audio_buf c ++ [d]) (HowlClient.Chunk d)
        (HowlClient.stream c), w))
  /\ Demo._on_audio d (dc, w)
     = (Ok (d, paContinue),
        (Demo.mkClient E (Demo.engine dc) (Demo.chunk_size dc) (Demo.words dc)
           (HowlClient.Chunk d) (Demo._audio_buf dc ++ [d]) (Demo.device dc), w)).
Proof.
  intros Hc Hd. split.
  - rewrite on_audio_unfold. rewrite length_app. cbn [length].
    destruct (Nat.eqb_spec (length (HowlClient._audio_buf c) + 1) 16);
      [contradiction | reflexivity].
  - unfold Demo._on_audio. rewrite length_app. cbn [length].
    destruct (Nat.eqb_spec (length (Demo._audio_buf dc) + 1) 16);
      [contradiction | reflexivity].
Qed.

Lemma handlers_between_windows_witness :
  HowlClient._on_audio ClientClaims.silence
    (ClientClaims.unconfigured_client, ClientClaims.info_world)
  = (Ok (ClientClaims.silence, paContinue),
     (HowlClient.mkClient ClientClaims.eager_engine [] 500 Cpu None None
        [ClientClaims.silence] (HowlClient.Chunk ClientClaims.silence) false,
      ClientClaims.info_world))
  /\ Demo._on_audio ClientClaims.silence
       (ClientClaims.fresh_demo, ClientClaims.info_world)
     = (Ok (ClientClaims.silence, paContinue),
        (Demo.mkClient ClientClaims.eager_engine tt 500
           ["hey"; "fire fox"; "it's"]%string
           (HowlClient.Chunk ClientClaims.silence) [ClientClaims.silence] Cpu,
         ClientClaims.info_world)).
Proof.
  apply (@handlers_between_windows ClientClaims.eager_engine
           ClientClaims.unconfigured_client ClientClaims.fresh_demo
           ClientClaims.info_world ClientClaims.silence);
    cbn; lia.
Defined.

(** ** Listeners *)

Lemma add_listeners (E : InferenceEngine) (ls : list nat)
      (c : HowlClient.client E) (w : world) :
  HowlClient.for_each (HowlClient.add_listener (E:=E)) ls (c, w)
  = (Ok tt, (HowlClient.set_listeners (HowlClient.listeners c ++ ls) c, w)).
Proof.
  revert c. induction ls as [|l ls IH]; intros c; cbn [HowlClient.for_each].
  - unfold HowlClient.ret. rewrite app_nil_r. destruct c; reflexivity.
  - unfold HowlClient.bind, HowlClient.add_listener at 1, HowlClient.modify.
    cbn [fst snd]. rewrite IH.
    cbn [HowlClient.set_listeners HowlClient.listeners HowlClient.chunk_size
         HowlClient.device HowlClient.engine HowlClient.ctx
         HowlClient._audio_buf HowlClient.last_data HowlClient.stream].
    rewrite <- app_assoc. reflexivity.
Qed.

(** Listeners are kept in the order of their registration and are not
    de-duplicated: after [add_listener] for every element of [ls] in turn,
    a detection (with the logger not enabled for [INFO]) calls the
    listeners registered before, then those of [ls], once for each
    registration, each with the engine's sequence. *)
Theorem listeners_called_in_registration_order
        (E : InferenceEngine) (c : HowlClient.client E) (w : world) (d : bytes)
        (ls : list nat) (e : engine_state E) (arr : list Z)
        (cx : InferenceContext) (ws : list string) :
  HowlClient.engine c = Some e ->
  length (HowlClient._audio_buf c) = 15 ->
  frombuffer_int16 (concat (HowlClient._audio_buf c ++ [d])) = Ok arr ->
  fst (infer E e (normalized arr)) = true ->
  HowlClient.ctx c = Some cx ->
  mapM (Text.py_index (vocab cx)) (sequence E (snd (infer E e (normalized arr))))
  = Ok ws ->
  info_enabled w = false ->
  let registered := snd (HowlClient.for_each (HowlClient.add_listener (E:=E)) ls (c, w)) in
  fst (HowlClient._on_audio d registered) = Ok (d, paContinue)
  /\ snd (snd (HowlClient._on_audio d registered))
     = extend w
         (Infer (HowlClient.device c) (normalized arr)
          :: map (fun lis => ListenerCall lis
                    (sequence E (snd (infer E e (normalized arr)))))
                 (HowlClient.listeners c ++ ls)).
Proof.
  intros He Hlen Harr Hdet Hcx Hws Hinfo registered.
  unfold registered. rewrite add_listeners. cbn [snd].
  rewrite (@ClientClaims.detection_calls_listeners E
             (HowlClient.set_listeners (HowlClient.listeners c ++ ls) c)
             w d e arr cx ws); try assumption.
  split; reflexivity.
Qed.

Lemma listeners_called_in_registration_order_witness :
  let registered :=
    snd (HowlClient.for_each (HowlClient.add_listener (E:=ClientClaims.eager_engine))
           [3; 9] (ClientClaims.primed_client, ClientClaims.quiet_world)) in
  fst (HowlClient._on_audio ClientClaims.silence registered)
  = Ok (ClientClaims.silence, paContinue)
  /\ snd (snd (HowlClient._on_audio ClientClaims.silence registered))
     = extend ClientClaims.quiet_world
         (Infer (HowlClient.device ClientClaims.primed_client)
                (normalized (repeat 0%Z 16))
          :: map (fun lis => ListenerCall lis
                    (sequence ClientClaims.eager_engine
                       (snd (infer ClientClaims.eager_engine tt
                               (normalized (repeat 0%Z 16))))))
                 (HowlClient.listeners ClientClaims.primed_client ++ [3; 9])).
Proof.
  apply (@listeners_called_in_registration_order ClientClaims.eager_engine
           ClientClaims.primed_client ClientClaims.quiet_world
           ClientClaims.silence [3; 9] tt (repeat 0%Z 16)
           ClientClaims.hey_context ["hey"; "fire fox"]%string);
    reflexivity.
Defined.

End HandlerProps.

(* ===================================================================== *)
(** * The console of the demo *)
(* ===================================================================== *)

Module DemoConsole.

Import Window HowlClientProps.
Local Open Scope nat_scope.

Definition is_print (e : event) : bool :=
  match e with Print _ => true | _ => false end.

(** The number of lines printed in a trace. *)
Definition print_count (t : list event) : nat := length (filter is_print t).

Lemma print_count_app (t1 t2 : list event) :
  print_count (t1 ++ t2) = print_count t1 + print_count t2.
Proof. unfold print_count. rewrite filter_app, length_app. reflexivity. Qed.

Section WithEngine.

Variable E : InferenceEngine.

(** Every sequence that the engine can report indexes the words. *)
Definition covers (words : list string) : Prop :=
  forall e : engine_state E,
    exists ws, mapM (Text.py_index words) (sequence E e) = Ok ws.

(** The words cover the engine's sequences and the buffer holds chunks
    of 16-bit samples. *)
Definition steady (s : Demo.state E) : Prop :=
  covers (Demo.words (fst s)) /\ Forall even_chunk (Demo._audio_buf (fst s)).

Lemma demo_step (s : Demo.state E) (d : bytes) :
  steady s -> even_chunk d ->
  fst (Demo._on_audio d s) = Ok (d, paContinue)
  /\ steady (snd (Demo._on_audio d s))
  /\ print_count (trace (snd (snd (Demo._on_audio d s))))
     + infer_count (trace (snd s))
     = infer_count (trace (snd (snd (Demo._on_audio d s))))
       + print_count (trace (snd s)).
Proof.
  destruct s as [c w]. intros [Hcov Hev] Hd. cbn [fst snd] in *.
  assert (Hev' : Forall even_chunk (Demo._audio_buf c ++ [d]))
    by (apply Forall_app; split; [exact Hev | repeat constructor; exact Hd]).
  unfold Demo._on_audio.
  destruct (negb (length (Demo._audio_buf c ++ [d]) =? 16)).
  - cbn [fst snd Demo.words Demo._audio_buf]. repeat split; try assumption. lia.
  - destruct (frombuffer_window Hev') as [arr Harr]. rewrite Harr.
    cbn [Demo.engine Demo.device Demo._audio_buf Demo.words
         Demo.chunk_size Demo.last_data].
    destruct (infer E (Demo.engine c) (normalized arr)) as [detected e'].
    assert (Hbuf : Forall even_chunk (skipn 2 (Demo._audio_buf c ++ [d])))
      by (apply Forall_skipn; exact Hev').
    destruct detected.
    + destruct (Hcov e') as [ws Hws]. rewrite Hws.
      cbn [fst snd Demo.words Demo._audio_buf]. repeat split; try assumption.
      unfold Demo.print, emit, extend. cbn [trace].
      rewrite !print_count_app, !infer_count_app. cbn. lia.
    + cbn [fst snd Demo.words Demo._audio_buf]. repeat split; try assumption.
      unfold Demo.print, emit, extend. cbn [trace].
      rewrite !print_count_app, !infer_count_app. cbn. lia.
Qed.

(** When every sequence of the engine indexes the vocabulary, the demo's
    handler never raises on chunks of 16-bit samples, and over any delivery
    sequence it prints exactly one status line for each inference call and
    none otherwise. *)
Theorem demo_prints_once_per_inference
        (dc : Demo.client E) (w : world) (chunks : list bytes) :
  covers (Demo.words dc) ->
  Forall even_chunk (Demo._audio_buf dc) ->
  Forall even_chunk chunks ->
  let s' := Demo.deliver chunks (dc, w) in
  print_count (trace (snd s')) + infer_count (trace w)
  = infer_count (trace (snd s')) + print_count (trace w)
  /\ forall d, even_chunk d -> fst (Demo._on_audio d s') = Ok (d, paContinue).
Proof.
  intros Hcov Hbuf Hall.
  assert (Hs : steady (dc, w)) by (split; assumption).
  clear Hcov Hbuf. cbv zeta.
  change w with (snd (dc, w)) at 2 4.
  generalize dependent (dc, w). clear dc w.
  induction Hall as [|d chunks Hd _ IH]; intros s Hs; cbn [Demo.deliver].
  - split; [lia|]. intros d Hd. exact (proj1 (demo_step Hs Hd)).
  - change (Demo.stream_callback d s) with (Demo._on_audio d s).
    destruct (demo_step Hs Hd) as [_ [Hs1 Hc1]].
    destruct (IH _ Hs1) as [Hc2 Hok]. split; [lia | exact Hok].
Qed.

End WithEngine.

Lemma demo_prints_once_per_inference_witness :
  let s' := Demo.deliver (repeat ClientClaims.silence 18)
              (ClientClaims.fresh_demo, ClientClaims.quiet_world) in
  print_count (trace (snd s')) + infer_count (trace ClientClaims.quiet_world)
  = infer_count (trace (snd s')) + print_count (trace ClientClaims.quiet_world)
  /\ forall d, even_chunk d -> fst (Demo._on_audio d s') = Ok (d, paContinue).
Proof.
  apply (@demo_prints_once_per_inference ClientClaims.eager_engine
           ClientClaims.fresh_demo ClientClaims.quiet_world
           (repeat ClientClaims.silence 18)).
  - intros e. eexists. reflexivity.
  - constructor.
  - repeat constructor; exists 1; reflexivity.
Defined.

(** The two status lines: the phrase in title case, and 32 blanks, each
    ended by a carriage return. *)
Example demo_lines :
  filter is_print
    (trace (snd (Demo.deliver (repeat ClientClaims.silence 16)
                   (ClientClaims.fresh_demo, ClientClaims.quiet_world))))
  = [Print ("Hey Fire Fox detected" ++ Demo.carriage_return)].
Proof. reflexivity. Qed.

End DemoConsole.
